(** * slick::ObjectPool: a shallow embedding of [include/slick/object_pool.h]

    The pool is a ring of pointers to free objects, coordinated by a
    producer word [reserved_], a consumer cursor [consumed_] and one
    publication record per ring slot ([control_]).  The embedding follows
    the header function by function, in two forms.
    - Whole calls: [allocate], [free], [reserve], [publish], [consume] and
      the constructor as functions on the state of the pool.  A call runs
      from its first line to its last with no other call in between (a
      compare-exchange on a value that was just loaded succeeds).
    - Steps: [allocate] and [free] cut at their accesses to the shared
      pool ([thread_step]), with threads whose steps interleave ([play]),
      for calls that overlap in time.

    Conventions.
    - Unsigned integers are [Z] with their wrap-around written out
      ([wrap64], [wrap32]); [&] is [Z.land].
    - A pointer is the [Z] value of its address ([reinterpret_cast<intptr_t>]),
      the null pointer is [0].  [T] is opaque: the pool never reads or
      writes an object, so objects are represented by their addresses and
      [sizeof(T)] is a parameter [sizeof_T].
    - The members [reserved_] and [consumed_] have no initializer in the
      constructor; as the header is C++20 ([[unlikely]]), [std::atomic]
      value-initializes them: [{0, 0}] and [0].
    - Arrays are lists read and written by index; an access outside the
      array is [Undefined].
    - [assert] is active: a failed assertion is [AssertFailed].
    - The retry loop of [consume] is cut off by a fuel argument; the
      theorems show that one pass is enough wherever they claim a result.

    Modelled: the constructor, [allocate], [free], [reset], [size],
    [get_read_index], [reserve], [operator[]], [publish] and [consume].
    The destructor is not modelled. *)

From Stdlib Require Import ZArith Lia List.
From stdpp Require Import base numbers list.

Local Open Scope Z_scope.

(** ** Machine integers *)

Definition wrap64 (x : Z) : Z := x mod 2 ^ 64.
Definition wrap32 (x : Z) : Z := x mod 2 ^ 32.

(** [std::numeric_limits<uint64_t>::max()] *)
Definition UINT64_MAX : Z := 2 ^ 64 - 1.

(** ** Outcomes of a call *)

(** [std::runtime_error("required size n > pool size size_")] *)
Inductive runtime_error : Type :=
| required_size_exceeds (n pool_size : Z).

Inductive outcome (A : Type) : Type :=
| Ok (a : A)                  (* normal return *)
| AssertFailed                (* assert(...) aborts the program *)
| Throws (e : runtime_error)  (* a C++ exception leaves the call *)
| Undefined                   (* out-of-bounds access, delete of a dead object *)
| OutOfFuel.                  (* the retry loop was cut off *)
Arguments Ok {A} a.
Arguments AssertFailed {A}.
Arguments Throws {A} e.
Arguments Undefined {A}.
Arguments OutOfFuel {A}.

#[export] Instance outcome_ret : MRet outcome := @Ok.
#[export] Instance outcome_bind : MBind outcome := λ A B f m,
  match m with
  | Ok a => f a
  | AssertFailed => AssertFailed
  | Throws e => Throws e
  | Undefined => Undefined
  | OutOfFuel => OutOfFuel
  end.

(** ** Arrays *)

Definition array_get {A} (l : list A) (i : Z) : outcome A :=
  if i <? 0 then Undefined
  else match l !! Z.to_nat i with
       | Some x => Ok x
       | None => Undefined
       end.

Definition array_set {A} (l : list A) (i : Z) (x : A) : outcome (list A) :=
  if i <? 0 then Undefined
  else match l !! Z.to_nat i with
       | Some _ => Ok (<[Z.to_nat i := x]> l)
       | None => Undefined
       end.

(** ** Data *)

(** [struct slot]: a fresh slot is [{UINT64_MAX, 1}]. *)
Module slot.
Record t : Type := mk { data_index : Z; size : Z }.
Definition fresh : t := {| data_index := UINT64_MAX; size := 1 |}.
End slot.

(** [struct reserved_info] *)
Module reserved_info.
Record t : Type := mk { index_ : Z; size_ : Z }.
Definition fresh : t := {| index_ := 0; size_ := 0 |}.
End reserved_info.

#[export] Instance slot_eq_dec : EqDecision slot.t.
Proof. solve_decision. Defined.
#[export] Instance reserved_info_eq_dec : EqDecision reserved_info.t.
Proof. solve_decision. Defined.

(** [class ObjectPool<T>] *)
Record ObjectPool : Type := mkObjectPool {
  reserved_ : reserved_info.t;
  consumed_ : Z;
  size_ : Z;
  mask_ : Z;
  buffer_ : Z;
  lower_bound_ : Z;
  upper_bound_ : Z;
  free_objects_ : list Z;
  control_ : list slot.t
}.

Definition set_reserved (r : reserved_info.t) (p : ObjectPool) : ObjectPool :=
  mkObjectPool r (consumed_ p) (size_ p) (mask_ p) (buffer_ p)
    (lower_bound_ p) (upper_bound_ p) (free_objects_ p) (control_ p).

Definition set_consumed (c : Z) (p : ObjectPool) : ObjectPool :=
  mkObjectPool (reserved_ p) c (size_ p) (mask_ p) (buffer_ p)
    (lower_bound_ p) (upper_bound_ p) (free_objects_ p) (control_ p).

Definition set_free_objects (l : list Z) (p : ObjectPool) : ObjectPool :=
  mkObjectPool (reserved_ p) (consumed_ p) (size_ p) (mask_ p) (buffer_ p)
    (lower_bound_ p) (upper_bound_ p) l (control_ p).

Definition set_control (l : list slot.t) (p : ObjectPool) : ObjectPool :=
  mkObjectPool (reserved_ p) (consumed_ p) (size_ p) (mask_ p) (buffer_ p)
    (lower_bound_ p) (upper_bound_ p) (free_objects_ p) l.

Definition set_bounds (lo hi : Z) (p : ObjectPool) : ObjectPool :=
  mkObjectPool (reserved_ p) (consumed_ p) (size_ p) (mask_ p) (buffer_ p)
    lo hi (free_objects_ p) (control_ p).

(** [control_[i] = s] and [free_objects_[i] = obj] *)
Definition store_control (i : Z) (s : slot.t) (p : ObjectPool) : outcome ObjectPool :=
  l ← array_set (control_ p) i s; Ok (set_control l p).

Definition store_free_object (i : Z) (obj : Z) (p : ObjectPool) : outcome ObjectPool :=
  l ← array_set (free_objects_ p) i obj; Ok (set_free_objects l p).

(** ** Atomics *)

(** [compare_exchange_weak(expected, desired)] on a cell, without spurious
    failure: the new content of the cell and whether the exchange happened. *)
Definition compare_exchange `{EqDecision A} (cell expected desired : A) : A * bool :=
  if decide (cell = expected) then (desired, true) else (cell, false).

(** ** Producer side *)

(** [reserve(n)].  The do-while body of the source is run on the value of
    [reserved_] loaded just before it, so its compare-exchange succeeds and
    the body runs once. *)
Definition reserve (n : Z) (p : ObjectPool) : outcome (ObjectPool * Z) :=
  if n >? size_ p then Throws (required_size_exceeds n (size_ p))
  else
    let reserved := reserved_ p in
    let index := reserved_info.index_ reserved in
    let idx := Z.land index (mask_ p) in
    if wrap64 (idx + n) >? size_ p then
      (* not enough buffer left, wrap to beginning *)
      let index := wrap64 (index + wrap64 (size_ p - idx)) in
      let next := reserved_info.mk (wrap64 (index + n)) n in
      let '(cell, _) := compare_exchange (reserved_ p) reserved next in
      p ← store_control (Z.land (reserved_info.index_ reserved) (mask_ p))
            (slot.mk index n) (set_reserved cell p);
      Ok (p, index)
    else
      let next := reserved_info.mk (wrap64 (reserved_info.index_ reserved + n)) n in
      let '(cell, _) := compare_exchange (reserved_ p) reserved next in
      Ok (set_reserved cell p, index).

(** [publish(index, n)] *)
Definition publish (index n : Z) (p : ObjectPool) : outcome ObjectPool :=
  store_control (Z.land index (mask_ p)) (slot.mk index n) p.

(** ** Consumer side *)

(** One pass through the body of [while (true)] in [consume]: either the
    loop goes round again or the function returns [{object, slot_count}]. *)
Inductive iteration : Type :=
| Continue (p : ObjectPool)
| Return (p : ObjectPool) (r : Z * Z).

Definition consume_step (p : ObjectPool) : outcome iteration :=
  let current_index := consumed_ p in
  let current := Z.land current_index (mask_ p) in
  current_slot ← array_get (control_ p) current;
  let stored_index := slot.data_index current_slot in
  if negb (stored_index =? UINT64_MAX)
     && (reserved_info.index_ (reserved_ p) <? stored_index) then
    (* queue has been reset *)
    Ok (Continue (set_consumed 0 p))
  else if (stored_index =? UINT64_MAX) || (stored_index <? current_index) then
    (* no more data available *)
    Ok (Return p (0, 0))
  else if (stored_index >? current_index)
          && negb (Z.land stored_index (mask_ p) =? current) then
    (* queue wrapped, skip the unused slots *)
    let '(cell, _) := compare_exchange (consumed_ p) current_index stored_index in
    Ok (Continue (set_consumed cell p))
  else
    (* try to atomically claim this item *)
    let next_index := wrap64 (stored_index + slot.size current_slot) in
    let '(cell, claimed) := compare_exchange (consumed_ p) current_index next_index in
    if claimed then
      obj ← array_get (free_objects_ p) (Z.land current_index (mask_ p));
      Ok (Return (set_consumed cell p) (obj, slot.size current_slot))
    else Ok (Continue (set_consumed cell p)).

(** [consume()]: the loop, cut off after [fuel] passes. *)
Fixpoint consume (fuel : nat) (p : ObjectPool) : outcome (ObjectPool * (Z * Z)) :=
  match fuel with
  | O => OutOfFuel
  | S fuel =>
      it ← consume_step p;
      match it with
      | Continue p => consume fuel p
      | Return p r => Ok (p, r)
      end
  end.

(** ** The heap (overflow path) *)

(** The pool together with the overflow objects that are alive on the heap. *)
Record world : Type := mkWorld {
  pool : ObjectPool;
  heap : list Z
}.

Fixpoint remove_one (x : Z) (l : list Z) : list Z :=
  match l with
  | [] => []
  | y :: l => if decide (x = y) then l else y :: remove_one x l
  end.

(** [delete obj]: nothing for the null pointer, undefined for an address
    that is not a live heap object. *)
Definition operator_delete (obj : Z) (h : list Z) : outcome (list Z) :=
  if obj =? 0 then Ok h
  else if decide (obj ∈ h) then Ok (remove_one obj h)
  else Undefined.

(** ** Public operations *)

(** [allocate()].  [fresh] is the address that [new T()] returns when it is
    called (the allocator's choice). *)
Definition allocate (fuel : nat) (fresh : Z) (w : world) : outcome (world * Z) :=
  '(p, (obj, size)) ← consume fuel (pool w);
  if obj =? 0 then
    (* pool exhausted - allocate from heap *)
    Ok (mkWorld p (fresh :: heap w), fresh)
  else if size =? 1 then Ok (mkWorld p (heap w), obj)
  else AssertFailed.

(** [free(obj)] *)
Definition free (obj : Z) (w : world) : outcome world :=
  let p := pool w in
  let o := obj in
  if (o >=? lower_bound_ p) && (o <=? upper_bound_ p) then
    (* object belongs to pool - return it *)
    '(p, index) ← reserve 1 p;
    p ← store_free_object (Z.land index (mask_ p)) obj p;
    p ← publish index 1 p;
    Ok (mkWorld p (heap w))
  else
    (* object was heap-allocated - delete it *)
    h ← operator_delete obj (heap w);
    Ok (mkWorld p h).

(** ** Construction *)

(** [&buffer_[i]] *)
Definition element (sizeof_T buffer i : Z) : Z := buffer + i * sizeof_T.

(** The seeding loop [for (uint32_t i = 0; i < size_; ++i)], [count]
    iterations from [i] on. *)
Fixpoint seed (sizeof_T : Z) (count : nat) (i : Z) (p : ObjectPool) : outcome ObjectPool :=
  match count with
  | O => Ok p
  | S count =>
      '(p, index) ← reserve 1 p;
      p ← store_free_object (Z.land index (mask_ p)) (element sizeof_T (buffer_ p) i) p;
      p ← publish index 1 p;
      seed sizeof_T count (i + 1) p
  end.

(** [assert((size && !(size & (size - 1))) && "size must be power of 2")] *)
Definition size_is_power_of_2 (size : Z) : bool :=
  negb (size =? 0) && (Z.land size (wrap32 (size - 1)) =? 0).

(** [ObjectPool(uint32_t size)].  [buffer] is the address of the array that
    [new T[size_]] returns; the content of [new T*[size_]] is taken as null
    pointers (every entry is overwritten by the seeding loop). *)
Definition ObjectPool_new (sizeof_T buffer size : Z) : outcome ObjectPool :=
  let p := {| reserved_ := reserved_info.fresh;
              consumed_ := 0;
              size_ := size;
              mask_ := wrap32 (size - 1);
              buffer_ := buffer;
              lower_bound_ := 0;
              upper_bound_ := 0;
              free_objects_ := replicate (Z.to_nat size) 0;
              control_ := replicate (Z.to_nat size) slot.fresh |} in
  if size_is_power_of_2 size then
    p ← seed sizeof_T (Z.to_nat (size_ p)) 0 p;
    Ok (set_bounds (element sizeof_T (buffer_ p) 0)
                   (element sizeof_T (buffer_ p) (mask_ p)) p)
  else AssertFailed.

(** A freshly constructed pool with an empty overflow heap. *)
Definition world_new (sizeof_T buffer size : Z) : outcome world :=
  p ← ObjectPool_new sizeof_T buffer size; Ok (mkWorld p []).

(** ** Runs of the public interface *)

Inductive op : Type :=
| op_allocate (fresh : Z)   (* allocate(); [fresh] is what [new T()] would return *)
| op_free (obj : Z).        (* free(obj) *)

(** A sequence of calls, one after the other, from the world [w]. *)
Fixpoint run (fuel : nat) (ops : list op) (w : world) : outcome world :=
  match ops with
  | [] => Ok w
  | op_allocate fresh :: ops => '(w, _) ← allocate fuel fresh w; run fuel ops w
  | op_free obj :: ops => w ← free obj w; run fuel ops w
  end.

(** ** Vocabulary of the specification *)

(** The cursors and the record the consumer looks at. *)
Definition producer_index (p : ObjectPool) : Z := reserved_info.index_ (reserved_ p).

#[export] Instance slot_inhabited : Inhabited slot.t := populate slot.fresh.

Definition slot_at (p : ObjectPool) (i : Z) : slot.t :=
  control_ p !!! Z.to_nat (Z.land i (mask_ p)).

Definition free_ptr_at (p : ObjectPool) (i : Z) : Z :=
  free_objects_ p !!! Z.to_nat (Z.land i (mask_ p)).

Definition stored_index (p : ObjectPool) : Z :=
  slot.data_index (slot_at p (consumed_ p)).

(** The pool has the shape the constructor gives it: a power-of-two
    capacity that fits [uint32_t], [mask_ = size_ - 1], arrays of [size_]
    entries and cursors that are 64-bit values. *)
Record pool_shape (p : ObjectPool) : Prop := {
  shape_size : ∃ k, 0 ≤ k ≤ 31 ∧ size_ p = 2 ^ k;
  shape_mask : mask_ p = size_ p - 1;
  shape_free_objects : length (free_objects_ p) = Z.to_nat (size_ p);
  shape_control : length (control_ p) = Z.to_nat (size_ p);
  shape_reserved : 0 ≤ producer_index p < 2 ^ 64;
  shape_consumed : 0 ≤ consumed_ p < 2 ^ 64
}.

(** Step 2 of the consumption protocol: the record under the consumer is
    published and ahead of the producer cursor. *)
Definition reset_detected (p : ObjectPool) : Prop :=
  stored_index p ≠ UINT64_MAX ∧ producer_index p < stored_index p.

(** Invariant 4 of the data model: the slot under the consumer is readable. *)
Definition readable (p : ObjectPool) : Prop :=
  stored_index p ≠ UINT64_MAX
  ∧ consumed_ p ≤ stored_index p
  ∧ Z.land (stored_index p) (mask_ p) = Z.land (consumed_ p) (mask_ p).

(** [lo <= obj <= hi] *)
Definition pool_owned (p : ObjectPool) (obj : Z) : Prop :=
  lower_bound_ p ≤ obj ≤ upper_bound_ p.

(** The addresses [&buffer_[0]], ..., [&buffer_[size_ - 1]]. *)
Definition storage (sizeof_T : Z) (p : ObjectPool) : list Z :=
  element sizeof_T (buffer_ p) <$> seqZ 0 (size_ p).

(** The pointers waiting in the ring: the entries of the absolute indices
    from the consumer cursor up to the producer cursor. *)
Definition ring_entries (p : ObjectPool) : list Z :=
  free_ptr_at p <$> seqZ (consumed_ p) (producer_index p - consumed_ p).

(** [w] is the world after a pool of capacity [size] (a [uint32_t]) for
    objects of [sizeof_T] bytes was constructed on an array at the non-null
    address [buffer] and the calls [ops] were made, one after the other.
    The calls are too few for the 64-bit producer cursor to wrap around. *)
Definition runs_to (sizeof_T buffer size : Z) (fuel : nat) (ops : list op)
    (w : world) : Prop :=
  0 < sizeof_T ∧ 0 < buffer ∧ 0 ≤ size < 2 ^ 32
  ∧ size + Z.of_nat (length ops) < 2 ^ 64
  ∧ (w0 ← world_new sizeof_T buffer size; run fuel ops w0) = Ok w.

(** The allocator's contract for [new T()]: a non-null address of an object
    that overlaps neither the pool's array nor a live heap object. *)
Definition fresh_object (sizeof_T : Z) (w : world) (a : Z) : Prop :=
  a ≠ 0
  ∧ (a + sizeof_T ≤ buffer_ (pool w)
     ∨ buffer_ (pool w) + size_ (pool w) * sizeof_T ≤ a)
  ∧ a ∉ heap w.

(** States reached from a constructed pool of capacity [size] by [n] calls
    that respect the contract of the interface: [free] is given a pointer that [allocate]
    returned and that has not been freed since.  The list holds the
    outstanding results of [allocate]. *)
Inductive reachable (sizeof_T size : Z) : nat → world → list Z → Prop :=
| reach_new buffer w :
    0 < sizeof_T → 0 < buffer → 0 ≤ size < 2 ^ 32 →
    world_new sizeof_T buffer size = Ok w →
    reachable sizeof_T size 0 w []
| reach_allocate n w out fuel a w' obj :
    reachable sizeof_T size n w out →
    fresh_object sizeof_T w a →
    allocate fuel a w = Ok (w', obj) →
    reachable sizeof_T size (S n) w' (obj :: out)
| reach_free n w out obj w' :
    reachable sizeof_T size n w out →
    obj ∈ out →
    free obj w = Ok w' →
    reachable sizeof_T size (S n) w' (remove_one obj out).

(** Invariant of every pool that the public interface can produce. *)
Record pool_inv (sizeof_T : Z) (p : ObjectPool) : Prop := {
  inv_shape : pool_shape p;
  inv_sizeof : 0 < sizeof_T;
  inv_buffer : 0 < buffer_ p;
  inv_lower : lower_bound_ p = element sizeof_T (buffer_ p) 0;
  inv_upper : upper_bound_ p = element sizeof_T (buffer_ p) (mask_ p);
  inv_cursors : consumed_ p ≤ producer_index p;
  inv_seeded : size_ p ≤ producer_index p;
  inv_slots : ∀ i, 0 ≤ i < size_ p →
    slot.size (slot_at p i) = 1
    ∧ slot.data_index (slot_at p i) < producer_index p
    ∧ producer_index p ≤ slot.data_index (slot_at p i) + size_ p
    ∧ slot.data_index (slot_at p i) mod size_ p = i;
  inv_free_objects : ∀ i, 0 ≤ i < size_ p → pool_owned p (free_ptr_at p i)
}.

(** What the contract adds: the ring never holds more than [size_]
    pointers, and ring and outstanding results together are the pool's
    objects and the live heap objects. *)
Record contract_inv (sizeof_T : Z) (w : world) (out : list Z) : Prop := {
  cinv_pool : pool_inv sizeof_T (pool w);
  cinv_level : producer_index (pool w) - consumed_ (pool w) ≤ size_ (pool w);
  cinv_perm : ring_entries (pool w) ++ out ≡ₚ storage sizeof_T (pool w) ++ heap w;
  cinv_heap_nodup : NoDup (heap w);
  cinv_heap : ∀ a, a ∈ heap w → a ≠ 0 ∧ ¬ pool_owned (pool w) a
}.

(** The pool after the reservation-and-publish protocol has run for one
    pointer: [reserve()], [free_objects_[index & mask_] = obj],
    [publish(index)]. *)
Definition produced (obj : Z) (p : ObjectPool) : ObjectPool :=
  let index := producer_index p in
  let i := Z.to_nat (index mod size_ p) in
  set_control (<[i := slot.mk index 1]> (control_ p))
    (set_free_objects (<[i := obj]> (free_objects_ p))
       (set_reserved (reserved_info.mk (wrap64 (index + 1)) 1) p)).

(** The state of the constructor after [i] rounds of its seeding loop. *)
Record seeding (sizeof_T buffer size i : Z) (p : ObjectPool) : Prop := {
  seeding_size : size_ p = size;
  seeding_buffer : buffer_ p = buffer;
  seeding_consumed : consumed_ p = 0;
  seeding_lower : lower_bound_ p = 0;
  seeding_upper : upper_bound_ p = 0;
  seeding_index : producer_index p = i;
  seeding_reserved : 0 < i → reserved_ p = reserved_info.mk i 1;
  seeding_done : ∀ j, 0 ≤ j < i →
    control_ p !! Z.to_nat j = Some (slot.mk j 1)
    ∧ free_objects_ p !! Z.to_nat j = Some (element sizeof_T buffer j)
}.

(** The pool as the constructor leaves it: the ring is full, slot [i]
    holds [&buffer_[i]] and is published under the absolute index [i]. *)
Definition full_pool (sizeof_T buffer size : Z) : ObjectPool :=
  {| reserved_ := reserved_info.mk size 1;
     consumed_ := 0;
     size_ := size;
     mask_ := size - 1;
     buffer_ := buffer;
     lower_bound_ := element sizeof_T buffer 0;
     upper_bound_ := element sizeof_T buffer (size - 1);
     free_objects_ := element sizeof_T buffer <$> seqZ 0 size;
     control_ := (λ i, slot.mk i 1) <$> seqZ 0 size |}.

(** Every slot carries a publication (no sentinel) that is not ahead of the
    producer cursor: the state of the control array once the constructor has
    seeded the ring. *)
Definition slots_published (p : ObjectPool) : Prop :=
  ∀ i, 0 ≤ i < size_ p →
    0 ≤ slot.data_index (slot_at p i) < UINT64_MAX
    ∧ slot.data_index (slot_at p i) ≤ producer_index p.

(** ** Sample states *)

(** The pool that [ObjectPool<T>(4)] builds for an 8-byte [T] whose array
    is placed at address 1000. *)
Definition pool_of_4 : ObjectPool :=
  {| reserved_ := reserved_info.mk 4 1;
     consumed_ := 0;
     size_ := 4;
     mask_ := 3;
     buffer_ := 1000;
     lower_bound_ := 1000;
     upper_bound_ := 1024;
     free_objects_ := [1000; 1008; 1016; 1024];
     control_ := [slot.mk 0 1; slot.mk 1 1; slot.mk 2 1; slot.mk 3 1] |}.

(** The same pool after four allocations: the ring is empty. *)
Definition pool_of_4_drained : ObjectPool := set_consumed 4 pool_of_4.

(** A ring of four slots used with wider reservations: the indices 4 and 5
    were reserved and published as one record of width 2 and consumed, so
    both cursors stand at 6, two slots before the end of the ring. *)
Definition pool_of_4_batched : ObjectPool :=
  {| reserved_ := reserved_info.mk 6 2;
     consumed_ := 6;
     size_ := 4;
     mask_ := 3;
     buffer_ := 1000;
     lower_bound_ := 1000;
     upper_bound_ := 1024;
     free_objects_ := [1000; 1008; 1016; 1024];
     control_ := [slot.mk 4 2; slot.mk 1 1; slot.mk 2 1; slot.mk 3 1] |}.

(** ... and after [reserve(3)] has skipped to index 8 and left a wrap-skip
    record in slot 2. *)
Definition pool_of_4_skipped : ObjectPool :=
  {| reserved_ := reserved_info.mk 11 3;
     consumed_ := 6;
     size_ := 4;
     mask_ := 3;
     buffer_ := 1000;
     lower_bound_ := 1000;
     upper_bound_ := 1024;
     free_objects_ := [1000; 1008; 1016; 1024];
     control_ := [slot.mk 4 2; slot.mk 1 1; slot.mk 8 3; slot.mk 3 1] |}.

(** A pool of two objects after three allocations (the third one from the
    heap, at address 5000) and the release of the first and the third
    pointer: the ring holds [&buffer_[0]], [&buffer_[1]] is outstanding. *)
Definition sample_calls : list op :=
  [op_allocate 5000; op_allocate 5000; op_allocate 5000; op_free 1000; op_free 5000].

Definition sample_world : world :=
  {| pool := {| reserved_ := reserved_info.mk 3 1;
                consumed_ := 2;
                size_ := 2;
                mask_ := 1;
                buffer_ := 1000;
                lower_bound_ := 1000;
                upper_bound_ := 1008;
                free_objects_ := [1000; 1008];
                control_ := [slot.mk 2 1; slot.mk 1 1] |};
     heap := [] |}.

(** The same pool one allocation later: the ring is empty. *)
Definition sample_world_drained : world :=
  mkWorld (set_consumed 3 (pool sample_world)) [].

(** A pool of two objects after three allocations: both objects and one
    heap object (at address 5000) are outstanding, the ring is empty. *)
Definition exhausted_world : world :=
  {| pool := {| reserved_ := reserved_info.mk 2 1;
                consumed_ := 2;
                size_ := 2;
                mask_ := 1;
                buffer_ := 1000;
                lower_bound_ := 1000;
                upper_bound_ := 1008;
                free_objects_ := [1000; 1008];
                control_ := [slot.mk 0 1; slot.mk 1 1] |};
     heap := [5000] |}.

Definition exhausted_outstanding : list Z := [5000; 1008; 1000].

(** ** The rest of the interface *)

(** [size()] *)
Definition ObjectPool_size (p : ObjectPool) : Z := size_ p.

(** [get_read_index()] *)
Definition get_read_index (p : ObjectPool) : Z := consumed_ p.

(** [operator[](index)]: the position [&free_objects_[index & mask_]], as an
    index into [free_objects_]. *)
Definition subscript (p : ObjectPool) (index : Z) : Z := Z.land index (mask_ p).

(** An exception that reaches the boundary of a [noexcept] function calls
    [std::terminate]: the program aborts. *)
Definition noexcept {A} (m : outcome A) : outcome A :=
  match m with
  | Throws _ => AssertFailed
  | m => m
  end.

(** [reset()].  The array [free_objects_] is kept; [control_] is replaced by
    fresh slots and the ring is seeded again. *)
Definition reset (sizeof_T : Z) (p : ObjectPool) : outcome ObjectPool :=
  noexcept
    (let p := set_control (replicate (Z.to_nat (size_ p)) slot.fresh) p in
     let p := set_reserved reserved_info.fresh p in
     p ← seed sizeof_T (Z.to_nat (size_ p)) 0 p;
     Ok (set_consumed 0 p)).

(** ** The loops of the callers *)

(** [for (...) objects.push_back(pool.allocate());] with one candidate
    address of [new T()] per round; the results in the order of the calls. *)
Fixpoint allocate_all (fuel : nat) (fresh : list Z) (w : world)
    : outcome (world * list Z) :=
  match fresh with
  | [] => Ok (w, [])
  | a :: fresh =>
      '(w, obj) ← allocate fuel a w;
      '(w, objs) ← allocate_all fuel fresh w;
      Ok (w, obj :: objs)
  end.

(** [for (auto* obj : objects) pool.free(obj);] *)
Fixpoint free_all (objs : list Z) (w : world) : outcome world :=
  match objs with
  | [] => Ok w
  | obj :: objs => w ← free obj w; free_all objs w
  end.

(** The ring holds at most [size_] pointers: the producer is at most one lap
    ahead of the consumer. *)
Definition within_lap (p : ObjectPool) : Prop :=
  producer_index p - consumed_ p ≤ size_ p.

(** The state of [reset] after [i] rounds of its seeding loop on the pool
    [p0]: the fields that the loop does not write are those of [p0]. *)
Record reseeding (sizeof_T : Z) (p0 : ObjectPool) (i : Z) (p : ObjectPool) : Prop := {
  reseeding_size : size_ p = size_ p0;
  reseeding_mask : mask_ p = mask_ p0;
  reseeding_buffer : buffer_ p = buffer_ p0;
  reseeding_consumed : consumed_ p = consumed_ p0;
  reseeding_lower : lower_bound_ p = lower_bound_ p0;
  reseeding_upper : upper_bound_ p = upper_bound_ p0;
  reseeding_index : producer_index p = i;
  reseeding_reserved : 0 < i → reserved_ p = reserved_info.mk i 1;
  reseeding_done : ∀ j, 0 ≤ j < i →
    control_ p !! Z.to_nat j = Some (slot.mk j 1)
    ∧ free_objects_ p !! Z.to_nat j = Some (element sizeof_T (buffer_ p0) j)
}.

(** A fresh pool of two 8-byte objects on an array at address 1000. *)
Definition pool_of_2 : ObjectPool := full_pool 8 1000 (2 ^ 1).
Definition world_of_2 : world := mkWorld pool_of_2 [].

(** ** Calls that overlap *)

(** [allocate] and [free] are documented as safe to call from several
    threads at once.  To follow calls that overlap in time, the two
    functions are cut at their accesses to the shared pool: a thread inside
    a call stands at a point of the source, holds the locals that it has
    loaded so far and performs one access per step, and the steps of the
    threads interleave.  Every access, atomic or not, is one indivisible
    step that sees the latest stores (an interleaving execution). *)

(** [control_[i].size = n] and [control_[i].data_index.store(index)] *)
Definition store_slot_size (i n : Z) (p : ObjectPool) : outcome ObjectPool :=
  s ← array_get (control_ p) i;
  store_control i (slot.mk (slot.data_index s) n) p.

Definition store_slot_index (i index : Z) (p : ObjectPool) : outcome ObjectPool :=
  s ← array_get (control_ p) i;
  store_control i (slot.mk index (slot.size s)) p.

(** The points of [allocate()], which is [consume()] and the lines after
    it, each named after the access that the next step performs.  In
    [std::make_pair(free_objects_[...], current_slot->size)] the pointer is
    read first. *)
Inductive allocate_point : Type :=
| load_consumed                                   (* line 390 *)
| load_stored (current_index : Z)                 (* line 393 *)
| load_reserved (current_index stored_index : Z)  (* line 395, after && *)
| store_reset                                     (* line 397 *)
| exchange_skip (current_index stored_index : Z)  (* line 407 *)
| load_size (current_index stored_index : Z)      (* line 412 *)
| exchange_claim (current_index next_index : Z)   (* line 413 *)
| load_object (current_index : Z)                 (* line 415 *)
| load_size_again (current_index obj : Z)         (* line 415 *)
| consume_returned (obj size : Z).                (* lines 202-207 *)

(** The points of [free(obj)], with [reserve()] and [publish(index)]. *)
Inductive free_point : Type :=
| test_bounds                                             (* line 237 *)
| reserve_load                                            (* lines 304-307 *)
| reserve_exchange (reserved : reserved_info.t)           (* lines 312-327 *)
| skip_store_size (reserved : reserved_info.t) (index : Z)  (* line 333 *)
| skip_store_index (reserved : reserved_info.t) (index : Z) (* line 334 *)
| store_object (index : Z)                                (* line 240 *)
| publish_size (index : Z)                                (* line 371 *)
| publish_index (index : Z)                               (* line 372 *)
| delete_object.                                          (* line 244 *)

(** A thread: outside the pool, or inside a call.  [fresh] is the address
    that [new T()] returns if the call reaches it. *)
Inductive frame : Type :=
| idle
| in_allocate (fresh : Z) (at_ : allocate_point)
| in_free (obj : Z) (at_ : free_point).

(** What a step leaves: the call goes on, or it has returned. *)
Inductive progress : Type :=
| running (f : frame)
| allocate_returned (obj : Z)
| free_returned.

(** Lines 401-409 of [consume], on the values loaded before: return
    [{nullptr, 0}], skip, or go on to claim the item. *)
Definition after_reset_check (p : ObjectPool) (current_index stored_index : Z)
    : allocate_point :=
  if (stored_index =? UINT64_MAX) || (stored_index <? current_index) then
    consume_returned 0 0
  else if (stored_index >? current_index)
          && negb (Z.land stored_index (mask_ p) =? Z.land current_index (mask_ p)) then
    exchange_skip current_index stored_index
  else load_size current_index stored_index.

(** One step of a thread inside [allocate()]. *)
Definition allocate_step (fresh : Z) (at_ : allocate_point) (w : world)
    : outcome (world * progress) :=
  let p := pool w in
  let goes_on p at_ := Ok (mkWorld p (heap w), running (in_allocate fresh at_)) in
  match at_ with
  | load_consumed => goes_on p (load_stored (consumed_ p))
  | load_stored current_index =>
      current_slot ← array_get (control_ p) (Z.land current_index (mask_ p));
      let stored_index := slot.data_index current_slot in
      if negb (stored_index =? UINT64_MAX) then
        goes_on p (load_reserved current_index stored_index)
      else goes_on p (after_reset_check p current_index stored_index)
  | load_reserved current_index stored_index =>
      if reserved_info.index_ (reserved_ p) <? stored_index then
        (* queue has been reset *)
        goes_on p store_reset
      else goes_on p (after_reset_check p current_index stored_index)
  | store_reset => goes_on (set_consumed 0 p) load_consumed
  | exchange_skip current_index stored_index =>
      let '(cell, _) := compare_exchange (consumed_ p) current_index stored_index in
      goes_on (set_consumed cell p) load_consumed
  | load_size current_index stored_index =>
      current_slot ← array_get (control_ p) (Z.land current_index (mask_ p));
      goes_on p (exchange_claim current_index
                   (wrap64 (stored_index + slot.size current_slot)))
  | exchange_claim current_index next_index =>
      let '(cell, claimed) := compare_exchange (consumed_ p) current_index next_index in
      goes_on (set_consumed cell p)
        (if claimed then load_object current_index else load_consumed)
  | load_object current_index =>
      obj ← array_get (free_objects_ p) (Z.land current_index (mask_ p));
      goes_on p (load_size_again current_index obj)
  | load_size_again current_index obj =>
      current_slot ← array_get (control_ p) (Z.land current_index (mask_ p));
      goes_on p (consume_returned obj (slot.size current_slot))
  | consume_returned obj size =>
      if obj =? 0 then
        (* pool exhausted - allocate from heap *)
        Ok (mkWorld p (fresh :: heap w), allocate_returned fresh)
      else if size =? 1 then Ok (w, allocate_returned obj)
      else AssertFailed
  end.

(** One step of a thread inside [free(obj)]; [reserve] is called with its
    default [n = 1].  A compare-exchange that fails loads the content of
    [reserved_] into [reserved] and the do-while loop goes round. *)
Definition free_step (obj : Z) (at_ : free_point) (w : world)
    : outcome (world * progress) :=
  let p := pool w in
  let n := 1 in
  let goes_on p at_ := Ok (mkWorld p (heap w), running (in_free obj at_)) in
  match at_ with
  | test_bounds =>
      if (obj >=? lower_bound_ p) && (obj <=? upper_bound_ p) then goes_on p reserve_load
      else goes_on p delete_object
  | reserve_load =>
      if n >? size_ p then Throws (required_size_exceeds n (size_ p))
      else goes_on p (reserve_exchange (reserved_ p))
  | reserve_exchange reserved =>
      let index := reserved_info.index_ reserved in
      let idx := Z.land index (mask_ p) in
      if wrap64 (idx + n) >? size_ p then
        (* not enough buffer left, wrap to beginning *)
        let index := wrap64 (index + wrap64 (size_ p - idx)) in
        let next := reserved_info.mk (wrap64 (index + n)) n in
        let '(cell, exchanged) := compare_exchange (reserved_ p) reserved next in
        if exchanged then goes_on (set_reserved cell p) (skip_store_size reserved index)
        else goes_on p (reserve_exchange cell)
      else
        let next := reserved_info.mk (wrap64 (reserved_info.index_ reserved + n)) n in
        let '(cell, exchanged) := compare_exchange (reserved_ p) reserved next in
        if exchanged then goes_on (set_reserved cell p) (store_object index)
        else goes_on p (reserve_exchange cell)
  | skip_store_size reserved index =>
      p ← store_slot_size (Z.land (reserved_info.index_ reserved) (mask_ p)) n p;
      goes_on p (skip_store_index reserved index)
  | skip_store_index reserved index =>
      p ← store_slot_index (Z.land (reserved_info.index_ reserved) (mask_ p)) index p;
      goes_on p (store_object index)
  | store_object index =>
      p ← store_free_object (Z.land index (mask_ p)) obj p;
      goes_on p (publish_size index)
  | publish_size index =>
      p ← store_slot_size (Z.land index (mask_ p)) 1 p;
      goes_on p (publish_index index)
  | publish_index index =>
      p ← store_slot_index (Z.land index (mask_ p)) index p;
      Ok (mkWorld p (heap w), free_returned)
  | delete_object =>
      h ← operator_delete obj (heap w);
      Ok (mkWorld p h, free_returned)
  end.

Definition thread_step (f : frame) (w : world) : outcome (world * progress) :=
  match f with
  | idle => Ok (w, running idle)
  | in_allocate fresh at_ => allocate_step fresh at_ w
  | in_free obj at_ => free_step obj at_ w
  end.

(** The pool and the heap, the threads, and the pointers that [allocate]
    has returned and that have not been passed to [free] since. *)
Record config : Type := mkConfig {
  shared : world;
  frames : list frame;
  outstanding : list Z
}.

(** Thread [t] calls a function, or takes the next step of its call. *)
Inductive event : Type :=
| ev_call (t : nat) (o : op)
| ev_step (t : nat).

Definition retire (t : nat) (r : progress) (w : world) (c : config) : config :=
  match r with
  | running f => mkConfig w (<[t := f]> (frames c)) (outstanding c)
  | allocate_returned obj => mkConfig w (<[t := idle]> (frames c)) (obj :: outstanding c)
  | free_returned => mkConfig w (<[t := idle]> (frames c)) (outstanding c)
  end.

(** The allocator's contract, where a step is [new T()]. *)
Definition allocator_kept (sizeof_T : Z) (f : frame) (w : world) : Prop :=
  match f with
  | in_allocate fresh (consume_returned obj _) => obj = 0 → fresh_object sizeof_T w fresh
  | _ => True
  end.

#[export] Instance fresh_object_dec sizeof_T w a : Decision (fresh_object sizeof_T w a).
Proof. unfold fresh_object. apply _. Defined.

#[export] Instance allocator_kept_dec sizeof_T f w : Decision (allocator_kept sizeof_T f w).
Proof. destruct f as [|fresh []|]; cbn; apply _. Defined.

(** An event of a run that respects the contract of the interface: a
    thread outside the pool calls [allocate()], or [free] with a pointer
    that is outstanding; a thread inside a call takes its next step, where
    [new T()] keeps the allocator's contract.  [None]: the event is none of
    these, or the step does not return normally. *)
Definition fire (sizeof_T : Z) (e : event) (c : config) : option config :=
  match e with
  | ev_call t o =>
      match frames c !! t with
      | Some idle =>
          match o with
          | op_allocate fresh =>
              Some (mkConfig (shared c)
                      (<[t := in_allocate fresh load_consumed]> (frames c))
                      (outstanding c))
          | op_free obj =>
              if decide (obj ∈ outstanding c) then
                Some (mkConfig (shared c)
                        (<[t := in_free obj test_bounds]> (frames c))
                        (remove_one obj (outstanding c)))
              else None
          end
      | _ => None
      end
  | ev_step t =>
      match frames c !! t with
      | None | Some idle => None
      | Some f =>
          if decide (allocator_kept sizeof_T f (shared c)) then
            match thread_step f (shared c) with
            | Ok (w, r) => Some (retire t r w c)
            | _ => None
            end
          else None
      end
  end.

(** A schedule, event by event. *)
Fixpoint play (sizeof_T : Z) (es : list event) (c : config) : option config :=
  match es with
  | [] => Some c
  | e :: es => c ← fire sizeof_T e c; play sizeof_T es c
  end.

(** Two threads on a fresh pool of two objects.  Thread 0 calls
    [allocate()] and claims index 0 (line 413), but has not yet read
    [free_objects_[0]] (line 415) when thread 1 allocates [&buffer_[1]] and
    frees it again, which stores the pointer in slot 0; thread 0 then reads
    slot 0 and returns; thread 1 calls [allocate()] once more. *)
Definition overlapping_schedule : list event :=
  [ev_call 0 (op_allocate 5000)] ++ replicate 5 (ev_step 0)
  ++ [ev_call 1 (op_allocate 6000)] ++ replicate 8 (ev_step 1)
  ++ [ev_call 1 (op_free 1008)] ++ replicate 6 (ev_step 1)
  ++ replicate 3 (ev_step 0)
  ++ [ev_call 1 (op_allocate 6000)] ++ replicate 8 (ev_step 1).

(** * Properties *)

(** ** Arithmetic of masks and cursors *)

Lemma wrap64_small x : 0 ≤ x < 2 ^ 64 → wrap64 x = x.
Proof. intros. unfold wrap64. by apply Z.mod_small. Qed.

Lemma wrap32_small x : 0 ≤ x < 2 ^ 32 → wrap32 x = x.
Proof. intros. unfold wrap32. by apply Z.mod_small. Qed.

Lemma wrap64_range x : 0 ≤ wrap64 x < 2 ^ 64.
Proof. unfold wrap64. apply Z.mod_pos_bound. lia. Qed.

Lemma land_low_bits x k : 0 ≤ k → Z.land x (2 ^ k - 1) = x mod 2 ^ k.
Proof.
  intros Hk. rewrite <- Z.land_ones by done.
  by rewrite Z.ones_equiv, <- Z.sub_1_r.
Qed.

Lemma pow2_bounds k : 0 ≤ k ≤ 31 → 1 ≤ 2 ^ k ≤ 2 ^ 31.
Proof.
  intros Hk. split.
  - pose proof (Z.pow_pos_nonneg 2 k). lia.
  - apply Z.pow_le_mono_r; lia.
Qed.

Lemma pow2_divides_word k : 0 ≤ k ≤ 31 → 2 ^ 64 = 2 ^ k * 2 ^ (64 - k).
Proof. intros Hk. rewrite <- Z.pow_add_r by lia. f_equal. lia. Qed.

(** Reducing modulo [2^64] does not change the ring slot. *)
Lemma wrap64_mod_pow2 x k : 0 ≤ k ≤ 31 → wrap64 x mod 2 ^ k = x mod 2 ^ k.
Proof.
  intros Hk. unfold wrap64. pose proof (pow2_bounds k Hk).
  apply Z.mod_mod_divide.
  exists (2 ^ (64 - k)). rewrite (pow2_divides_word k Hk). lia.
Qed.

Section shape.
Context (p : ObjectPool) (Hp : pool_shape p).

Lemma shape_size_bounds : 1 ≤ size_ p ≤ 2 ^ 31.
Proof. destruct (shape_size p Hp) as (k & Hk & ->). by apply pow2_bounds. Qed.

Lemma shape_land x : Z.land x (mask_ p) = x mod size_ p.
Proof.
  rewrite (shape_mask p Hp). destruct (shape_size p Hp) as (k & Hk & ->).
  apply land_low_bits. lia.
Qed.

Lemma shape_slot_range x : 0 ≤ x mod size_ p < size_ p.
Proof. apply Z.mod_pos_bound. pose proof shape_size_bounds. lia. Qed.

Lemma shape_wrap64_mod x : wrap64 x mod size_ p = x mod size_ p.
Proof. destruct (shape_size p Hp) as (k & Hk & ->). by apply wrap64_mod_pow2. Qed.

Lemma shape_control_lookup x :
  control_ p !! Z.to_nat (x mod size_ p) = Some (slot_at p x).
Proof.
  unfold slot_at. rewrite shape_land. apply list_lookup_lookup_total_lt.
  rewrite (shape_control p Hp). pose proof (shape_slot_range x). lia.
Qed.

Lemma shape_free_lookup x :
  free_objects_ p !! Z.to_nat (x mod size_ p) = Some (free_ptr_at p x).
Proof.
  unfold free_ptr_at. rewrite shape_land. apply list_lookup_lookup_total_lt.
  rewrite (shape_free_objects p Hp). pose proof (shape_slot_range x). lia.
Qed.

Lemma shape_get_control x :
  array_get (control_ p) (Z.land x (mask_ p)) = Ok (slot_at p x).
Proof.
  unfold array_get. rewrite shape_land.
  pose proof (shape_slot_range x) as Hr.
  destruct (Z.ltb_spec (x mod size_ p) 0); [lia|].
  by rewrite shape_control_lookup.
Qed.

Lemma shape_get_free x :
  array_get (free_objects_ p) (Z.land x (mask_ p)) = Ok (free_ptr_at p x).
Proof.
  unfold array_get. rewrite shape_land.
  pose proof (shape_slot_range x) as Hr.
  destruct (Z.ltb_spec (x mod size_ p) 0); [lia|].
  by rewrite shape_free_lookup.
Qed.

Lemma shape_store_control x s :
  store_control (Z.land x (mask_ p)) s p
  = Ok (set_control (<[Z.to_nat (x mod size_ p) := s]> (control_ p)) p).
Proof.
  unfold store_control, array_set. rewrite shape_land.
  pose proof (shape_slot_range x) as Hr.
  destruct (Z.ltb_spec (x mod size_ p) 0); [lia|].
  by rewrite shape_control_lookup.
Qed.

Lemma shape_store_free x obj :
  store_free_object (Z.land x (mask_ p)) obj p
  = Ok (set_free_objects (<[Z.to_nat (x mod size_ p) := obj]> (free_objects_ p)) p).
Proof.
  unfold store_free_object, array_set. rewrite shape_land.
  pose proof (shape_slot_range x) as Hr.
  destruct (Z.ltb_spec (x mod size_ p) 0); [lia|].
  by rewrite shape_free_lookup.
Qed.
End shape.

(** ** Atomics and array stores *)

Lemma compare_exchange_loaded `{EqDecision A} (cell desired : A) :
  compare_exchange cell cell desired = (desired, true).
Proof. unfold compare_exchange. by rewrite decide_True. Qed.

Lemma array_set_ok {A} (l : list A) i x :
  0 ≤ i → (Z.to_nat i < length l)%nat →
  array_set l i x = Ok (<[Z.to_nat i := x]> l).
Proof.
  intros Hi Hlen. unfold array_set.
  destruct (Z.ltb_spec i 0); [lia|].
  by destruct (lookup_lt_is_Some_2 l _ Hlen) as [y ->].
Qed.

(** ** The reservation protocol *)

Section reserve.
Context (p : ObjectPool) (Hp : pool_shape p).
Context (n : Z) (Hn : 0 ≤ n ≤ size_ p).

Let index := producer_index p.
Let idx := index mod size_ p.

Lemma reserve_guard : (n >? size_ p) = false.
Proof. destruct (Z.gtb_spec n (size_ p)); [lia | done]. Qed.

Lemma reserve_sum : wrap64 (Z.land (producer_index p) (mask_ p) + n) = idx + n.
Proof.
  rewrite (shape_land p Hp). apply wrap64_small.
  pose proof (shape_slot_range p Hp index). pose proof (shape_size_bounds p Hp).
  subst idx index. lia.
Qed.

(** The reservation fits before the end of the ring. *)
Lemma reserve_straight :
  idx + n ≤ size_ p →
  reserve n p
  = Ok (set_reserved (reserved_info.mk (wrap64 (index + n)) n) p, index).
Proof.
  intros Hfit. unfold reserve. rewrite reserve_guard. cbv zeta.
  fold (producer_index p). rewrite reserve_sum.
  destruct (Z.gtb_spec (idx + n) (size_ p)); [lia|].
  by rewrite compare_exchange_loaded.
Qed.

(** The reservation would straddle the end of the ring. *)
Lemma reserve_wrapped :
  size_ p < idx + n →
  let returned := wrap64 (index + (size_ p - idx)) in
  reserve n p
  = Ok (set_control (<[Z.to_nat idx := slot.mk returned n]> (control_ p))
          (set_reserved (reserved_info.mk (wrap64 (returned + n)) n) p),
        returned).
Proof.
  intros Hwrap returned. unfold reserve. rewrite reserve_guard. cbv zeta.
  fold (producer_index p). rewrite reserve_sum.
  destruct (Z.gtb_spec (idx + n) (size_ p)); [|lia].
  rewrite compare_exchange_loaded.
  rewrite (shape_land p Hp). fold index idx.
  pose proof (shape_slot_range p Hp index) as Hr. fold idx in Hr.
  rewrite (wrap64_small (size_ p - idx)) by (pose proof (shape_size_bounds p Hp); lia).
  fold returned. unfold store_control. cbn [control_ set_reserved].
  rewrite array_set_ok; [done | lia |].
  rewrite (shape_control p Hp). lia.
Qed.

(** After the skip the returned index is the start of the ring. *)
Lemma reserve_wrapped_aligned :
  wrap64 (index + (size_ p - idx)) mod size_ p = 0.
Proof.
  rewrite (shape_wrap64_mod p Hp). subst idx.
  pose proof (shape_size_bounds p Hp).
  replace (index + (size_ p - index mod size_ p))
    with ((index `div` size_ p + 1) * size_ p).
  - apply Z.mod_mul. lia.
  - pose proof (Z.div_mod index (size_ p)). lia.
Qed.
End reserve.

(** ** The consumption protocol, case by case *)

Ltac Zbool :=
  repeat match goal with
  | |- context [Z.eqb ?a ?b] => destruct (Z.eqb_spec a b)
  | |- context [Z.ltb ?a ?b] => destruct (Z.ltb_spec a b)
  | |- context [Z.leb ?a ?b] => destruct (Z.leb_spec a b)
  | |- context [Z.gtb ?a ?b] => destruct (Z.gtb_spec a b)
  | |- context [Z.geb ?a ?b] => destruct (Z.geb_spec a b)
  end; cbn [negb andb orb].

Section consume_step.
Context (p : ObjectPool) (Hp : pool_shape p).

Let current := consumed_ p.
Let stored := stored_index p.

Lemma consume_step_unfold :
  consume_step p
  = if negb (stored =? UINT64_MAX) && (producer_index p <? stored) then
      Ok (Continue (set_consumed 0 p))
    else if (stored =? UINT64_MAX) || (stored <? current) then
      Ok (Return p (0, 0))
    else if (stored >? current)
            && negb (Z.land stored (mask_ p) =? Z.land current (mask_ p)) then
      Ok (Continue (set_consumed stored p))
    else
      Ok (Return (set_consumed (wrap64 (stored + slot.size (slot_at p current))) p)
                 (free_ptr_at p current, slot.size (slot_at p current))).
Proof.
  unfold consume_step. rewrite (shape_get_control p Hp). cbn [mbind outcome_bind].
  fold current. change (slot.data_index (slot_at p current)) with stored.
  fold (producer_index p).
  rewrite !compare_exchange_loaded, (shape_get_free p Hp).
  reflexivity.
Qed.

(** Step 2: reset detection. *)
Lemma consume_step_reset :
  reset_detected p → consume_step p = Ok (Continue (set_consumed 0 p)).
Proof.
  intros [Hs Hlt]. rewrite consume_step_unfold. fold stored in Hs, Hlt.
  Zbool; (done || lia).
Qed.

(** Step 3: empty. *)
Lemma consume_step_empty :
  ¬ reset_detected p → stored = UINT64_MAX ∨ stored < current →
  consume_step p = Ok (Return p (0, 0)).
Proof.
  intros Hreset Hempty. rewrite consume_step_unfold.
  unfold reset_detected in Hreset. fold stored in Hreset.
  Zbool; (done || lia).
Qed.

(** Step 4: wrap-skip. *)
Lemma consume_step_skip :
  ¬ reset_detected p → stored ≠ UINT64_MAX → current < stored →
  Z.land stored (mask_ p) ≠ Z.land current (mask_ p) →
  consume_step p = Ok (Continue (set_consumed stored p)).
Proof.
  intros Hreset Hs Hgt Hslot. rewrite consume_step_unfold.
  unfold reset_detected in Hreset. fold stored in Hreset.
  Zbool; (done || lia).
Qed.

(** Step 5: claim. *)
Lemma consume_step_claim :
  ¬ reset_detected p → readable p →
  consume_step p
  = Ok (Return (set_consumed (wrap64 (stored + slot.size (slot_at p current))) p)
               (free_ptr_at p current, slot.size (slot_at p current))).
Proof.
  intros Hreset (Hs & Hge & Hslot). rewrite consume_step_unfold.
  unfold reset_detected in Hreset. fold stored in Hreset, Hs, Hge, Hslot.
  fold current in Hge, Hslot.
  Zbool; (done || lia).
Qed.
End consume_step.

Lemma consume_returns fuel p p' r :
  consume_step p = Ok (Return p' r) → consume (S fuel) p = Ok (p', r).
Proof. intros H. cbn [consume]. by rewrite H. Qed.

Lemma consume_continues fuel p p' :
  consume_step p = Ok (Continue p') → consume (S fuel) p = consume fuel p'.
Proof. intros H. cbn [consume]. by rewrite H. Qed.

(** ** Sample states have the shape of a pool *)

Ltac shape_by_computation k :=
  split; [exists k; split; [lia | reflexivity] | reflexivity | reflexivity
         | reflexivity | cbn; lia | cbn; lia].

Lemma pool_of_4_shape : pool_shape pool_of_4.
Proof. shape_by_computation 2. Defined.

Lemma pool_of_4_drained_shape : pool_shape pool_of_4_drained.
Proof. shape_by_computation 2. Defined.

Lemma pool_of_4_batched_shape : pool_shape pool_of_4_batched.
Proof. shape_by_computation 2. Defined.

Lemma pool_of_4_skipped_shape : pool_shape pool_of_4_skipped.
Proof. shape_by_computation 2. Defined.

(** ** C9: oversized reservations *)

(** C9.  [reserve(n)] throws [std::runtime_error] exactly when [n] exceeds
    the capacity.  For every [n <= size_] it returns an absolute index [i]
    (a 64-bit value) with [(i & mask_) + n <= size_]: the reserved range
    does not straddle the end of the ring.  This [i] is the next such index:
    it is the producer index advanced by the least number of positions
    (fewer than [size_], counted modulo 2^64) for which the range does not
    straddle.  The range is reserved: [reserved_] becomes [{i + n, n}]
    (the index modulo 2^64), so that the next reservation starts behind it; when positions were
    skipped, the wrap-skip record [{i, n}] is left in the slot of the old
    producer index; nothing else in the pool changes. *)
Theorem reserve_domain_error (p : ObjectPool) (n : Z) :
  pool_shape p → 0 ≤ n < 2 ^ 32 →
  (size_ p < n ↔ ∃ e, reserve n p = Throws e)
  ∧ (size_ p < n → reserve n p = Throws (required_size_exceeds n (size_ p)))
  ∧ (n ≤ size_ p →
     ∃ p' i skipped,
       reserve n p = Ok (p', i)
       ∧ 0 ≤ i < 2 ^ 64
       ∧ Z.land i (mask_ p) + n ≤ size_ p
       ∧ 0 ≤ skipped < size_ p
       ∧ i = wrap64 (producer_index p + skipped)
       ∧ (∀ d, 0 ≤ d < skipped →
            size_ p < Z.land (wrap64 (producer_index p + d)) (mask_ p) + n)
       ∧ reserved_ p' = reserved_info.mk (wrap64 (i + n)) n
       ∧ p' = set_control
                (if decide (skipped = 0) then control_ p
                 else <[Z.to_nat (Z.land (producer_index p) (mask_ p)) := slot.mk i n]>
                        (control_ p))
                (set_reserved (reserved_info.mk (wrap64 (i + n)) n) p)).
Proof.
  intros Hp Hn.
  pose proof (shape_reserved p Hp) as Hrange.
  pose proof (shape_size_bounds p Hp) as Hsize.
  pose proof (shape_slot_range p Hp (producer_index p)) as Hidx.
  assert (Hthrow : size_ p < n → reserve n p = Throws (required_size_exceeds n (size_ p))).
  { intros Hgt. unfold reserve. by destruct (Z.gtb_spec n (size_ p)); [|lia]. }
  assert (Hok : n ≤ size_ p → ∃ p' i, reserve n p = Ok (p', i)).
  { intros Hle.
    destruct (Z_le_gt_dec (producer_index p mod size_ p + n) (size_ p)) as [Hfit|Hwrap].
    - eexists _, _. by apply reserve_straight; [|lia|].
    - eexists _, _. by apply reserve_wrapped; [|lia|lia]. }
  split; [|split; [done|]].
  { split; [by eauto|].
    intros [e He]. destruct (Z_le_gt_dec n (size_ p)) as [Hle|Hgt]; [|lia].
    destruct (Hok Hle) as (p' & i & Hr). congruence. }
  intros Hle.
  destruct (Z_le_gt_dec (producer_index p mod size_ p + n) (size_ p)) as [Hfit|Hwrap].
  - exists (set_reserved (reserved_info.mk (wrap64 (producer_index p + n)) n) p),
      (producer_index p), 0.
    split; [by apply reserve_straight; [|lia|]|].
    split; [done|]. split; [by rewrite (shape_land p Hp)|]. split; [lia|].
    split; [by rewrite Z.add_0_r, wrap64_small|]. split; [intros d Hd; lia|].
    split; [done|]. by rewrite decide_True.
  - set (skipped := size_ p - producer_index p mod size_ p).
    set (i := wrap64 (producer_index p + skipped)).
    exists (set_control
              (<[Z.to_nat (producer_index p mod size_ p) := slot.mk i n]> (control_ p))
              (set_reserved (reserved_info.mk (wrap64 (i + n)) n) p)), i, skipped.
    split; [by apply reserve_wrapped; [|lia|lia]|].
    split; [apply wrap64_range|].
    split.
    { rewrite (shape_land p Hp). unfold i, skipped.
      rewrite (reserve_wrapped_aligned p Hp). lia. }
    split; [unfold skipped; lia|]. split; [done|].
    split.
    { intros d Hd. rewrite (shape_land p Hp), (shape_wrap64_mod p Hp).
      rewrite Z.add_mod by lia.
      rewrite (Z.mod_small d) by (unfold skipped in Hd; lia).
      rewrite Z.mod_small by (unfold skipped in Hd; lia). lia. }
    split; [done|].
    rewrite decide_False by (unfold skipped; lia).
    by rewrite (shape_land p Hp).
Qed.

Lemma reserve_domain_error_witness :
  pool_shape pool_of_4_batched ∧ 0 ≤ 3 < 2 ^ 32
  ∧ reserve 5 pool_of_4_batched = Throws (required_size_exceeds 5 4)
  ∧ ∃ p' i skipped, reserve 3 pool_of_4_batched = Ok (p', i)
                    ∧ 0 ≤ i < 2 ^ 64 ∧ Z.land i 3 + 3 ≤ 4
                    ∧ i = wrap64 (6 + skipped)
                    ∧ reserved_ p' = reserved_info.mk (wrap64 (i + 3)) 3.
Proof.
  split; [exact pool_of_4_batched_shape|]. split; [lia|]. split.
  - apply (reserve_domain_error pool_of_4_batched 5 pool_of_4_batched_shape); cbn; lia.
  - destruct (reserve_domain_error pool_of_4_batched 3 pool_of_4_batched_shape
                ltac:(lia)) as (_ & _ & Hok).
    destruct (Hok ltac:(cbn; lia)) as (p' & i & skipped & Hr & Hi & Hs & _ & Hnext & _ & Hres & _).
    exists p', i, skipped. split; [exact Hr|]. split; [exact Hi|].
    split; [exact Hs|]. split; [exact Hnext | exact Hres].
Defined.

(** ** C1: the consumption protocol *)

(** C1.  [consume] follows the case analysis of the consumption protocol.
    With [current = consumed_], [i = current & mask_] and
    [stored = control_[i].data_index], when the reset check of step 2 does
    not fire: if [stored] is the sentinel or [stored < current] the call
    returns [{nullptr, 0}] and leaves the pool as it is; if the slot is
    readable the call moves the consumer cursor from [current] to
    [stored + control_[i].size] (64-bit addition) and returns
    [{free_objects_[current & mask_], control_[i].size}].  One pass through
    the loop is enough in both cases. *)
Theorem consume_case_analysis (p : ObjectPool) (fuel : nat) :
  pool_shape p → ¬ reset_detected p →
  let current := consumed_ p in
  let stored := stored_index p in
  let width := slot.size (slot_at p current) in
  (stored = UINT64_MAX ∨ stored < current →
   consume (S fuel) p = Ok (p, (0, 0)))
  ∧ (readable p →
     consume (S fuel) p
     = Ok (set_consumed (wrap64 (stored + width)) p, (free_ptr_at p current, width))).
Proof.
  intros Hp Hreset current stored width. split.
  - intros Hempty. by apply consume_returns, consume_step_empty.
  - intros Hread. by apply consume_returns, consume_step_claim.
Qed.

Lemma pool_of_4_no_reset : ¬ reset_detected pool_of_4.
Proof. intros [_ H]. vm_compute in H. discriminate. Defined.

Lemma pool_of_4_drained_no_reset : ¬ reset_detected pool_of_4_drained.
Proof. intros [_ H]. vm_compute in H. discriminate. Defined.

Lemma pool_of_4_skipped_no_reset : ¬ reset_detected pool_of_4_skipped.
Proof. intros [_ H]. vm_compute in H. discriminate. Defined.

Lemma consume_case_analysis_witness :
  pool_shape pool_of_4 ∧ ¬ reset_detected pool_of_4
  ∧ pool_shape pool_of_4_drained ∧ ¬ reset_detected pool_of_4_drained
  ∧ consume 1 pool_of_4_drained = Ok (pool_of_4_drained, (0, 0))
  ∧ consume 1 pool_of_4 = Ok (set_consumed 1 pool_of_4, (1000, 1)).
Proof.
  split; [exact pool_of_4_shape|]. split; [exact pool_of_4_no_reset|].
  split; [exact pool_of_4_drained_shape|]. split; [exact pool_of_4_drained_no_reset|].
  split.
  - apply (consume_case_analysis pool_of_4_drained 0
             pool_of_4_drained_shape pool_of_4_drained_no_reset).
    right. vm_compute. reflexivity.
  - apply (consume_case_analysis pool_of_4 0 pool_of_4_shape pool_of_4_no_reset).
    split; [vm_compute; discriminate|]. split; [vm_compute; discriminate | reflexivity].
Defined.

(** ** C2: the wrap-skip handshake *)

(** C2.  Producer side, for a pool [p]: a reservation of width [n] from the
    producer index [index], with [idx = index & mask_] and
    [idx + n > size_], skips [size_ - idx] positions: it returns
    [index + (size_ - idx)] (64-bit addition, the plain sum unless the
    cursor is within [size_] of [2^64]), which is the start of the ring, so
    that [(returned & mask_) + n <= size_]; it leaves a wrap-skip record
    [{data_index = returned, size = n}] in slot [index & mask_] and moves the
    producer word to [{returned + n, n}], touching nothing else (the pool
    [p'] after the call).
    Consumer side, for a pool [q]: a consumer that finds a published record
    that is not ahead of the producer (steps 2 and 3 of the protocol do not
    apply), with [stored > current] and [(stored & mask_) != (current & mask_)],
    moves the consumer cursor from [current] to [stored] and goes round the
    loop again. *)
Theorem wrap_skip_handshake (p q : ObjectPool) (n : Z) :
  pool_shape p → pool_shape q → 0 ≤ n ≤ size_ p →
  (let index := producer_index p in
   let idx := Z.land index (mask_ p) in
   let returned := wrap64 (index + (size_ p - idx)) in
   let p' := set_control (<[Z.to_nat idx := slot.mk returned n]> (control_ p))
               (set_reserved (reserved_info.mk (wrap64 (returned + n)) n) p) in
   size_ p < idx + n →
   reserve n p = Ok (p', returned)
   ∧ (index + size_ p < 2 ^ 64 → returned = index + (size_ p - idx))
   ∧ Z.land returned (mask_ p) = 0
   ∧ Z.land returned (mask_ p) + n ≤ size_ p
   ∧ slot_at p' index = slot.mk returned n)
  ∧ (let current := consumed_ q in
     let stored := stored_index q in
     ¬ reset_detected q → stored ≠ UINT64_MAX →
     current < stored → Z.land stored (mask_ q) ≠ Z.land current (mask_ q) →
     consume_step q = Ok (Continue (set_consumed stored q))
     ∧ ∀ fuel, consume (S fuel) q = consume fuel (set_consumed stored q)).
Proof.
  intros Hp Hq Hn. split.
  - intros index idx returned p' Hwrap. subst p' returned idx index.
    rewrite !(shape_land p Hp) in *.
    split; [by apply reserve_wrapped|].
    split.
    { intros Hword. apply wrap64_small.
      pose proof (shape_reserved p Hp).
      pose proof (shape_slot_range p Hp (producer_index p)). lia. }
    rewrite (reserve_wrapped_aligned p Hp).
    split; [done|]. split; [lia|].
    unfold slot_at. cbn [control_ mask_ set_control set_reserved].
    rewrite (shape_land p Hp). apply list_lookup_total_insert_eq.
    rewrite (shape_control p Hp).
    pose proof (shape_slot_range p Hp (producer_index p)). lia.
  - intros current stored Hreset Hs Hgt Hslot.
    assert (Hstep : consume_step q = Ok (Continue (set_consumed stored q)))
      by by apply consume_step_skip.
    split; [done|]. intros fuel. by apply consume_continues.
Qed.

Lemma wrap_skip_handshake_witness :
  pool_shape pool_of_4_batched ∧ pool_shape pool_of_4_skipped ∧ 0 ≤ 3 ≤ 4
  ∧ reserve 3 pool_of_4_batched = Ok (pool_of_4_skipped, 8)
  ∧ consume_step pool_of_4_skipped = Ok (Continue (set_consumed 8 pool_of_4_skipped)).
Proof.
  split; [exact pool_of_4_batched_shape|]. split; [exact pool_of_4_skipped_shape|].
  split; [lia|].
  pose proof (wrap_skip_handshake pool_of_4_batched pool_of_4_skipped 3
                pool_of_4_batched_shape pool_of_4_skipped_shape) as H.
  destruct H as [Hproducer Hconsumer]; [cbn; lia|]. split.
  - destruct Hproducer as (Hr & _); [vm_compute; reflexivity|]. exact Hr.
  - apply Hconsumer.
    + exact pool_of_4_skipped_no_reset.
    + vm_compute. discriminate.
    + vm_compute. reflexivity.
    + vm_compute. discriminate.
Defined.

(** ** The reservation-and-publish protocol for one pointer *)

Lemma pool_shape_set_reserved r p :
  pool_shape p → 0 ≤ reserved_info.index_ r < 2 ^ 64 → pool_shape (set_reserved r p).
Proof. intros [] ?. by split. Qed.

Lemma pool_shape_set_consumed c p :
  pool_shape p → 0 ≤ c < 2 ^ 64 → pool_shape (set_consumed c p).
Proof. intros [] ?. by split. Qed.

Lemma pool_shape_set_free_objects l p :
  pool_shape p → length l = length (free_objects_ p) → pool_shape (set_free_objects l p).
Proof. intros [] Hl. split; try done. cbn. by rewrite Hl. Qed.

Lemma pool_shape_set_control l p :
  pool_shape p → length l = length (control_ p) → pool_shape (set_control l p).
Proof. intros [] Hl. split; try done. cbn. by rewrite Hl. Qed.

Lemma pool_shape_produced obj p : pool_shape p → pool_shape (produced obj p).
Proof.
  intros Hp. unfold produced.
  apply pool_shape_set_control; [|by rewrite length_insert].
  apply pool_shape_set_free_objects; [|by rewrite length_insert].
  apply pool_shape_set_reserved; [done|]. apply wrap64_range.
Qed.

Section produce.
Context (p : ObjectPool) (Hp : pool_shape p) (obj : Z).

Let index := producer_index p.
Let next := reserved_info.mk (wrap64 (index + 1)) 1.

Lemma reserve_one : reserve 1 p = Ok (set_reserved next p, index).
Proof.
  pose proof (shape_size_bounds p Hp). pose proof (shape_slot_range p Hp index).
  apply reserve_straight; [done | lia | fold index; lia].
Qed.

Lemma publish_one :
  (p ← store_free_object (Z.land index (mask_ p)) obj (set_reserved next p);
   publish index 1 p)
  = Ok (produced obj p).
Proof.
  assert (Hp1 : pool_shape (set_reserved next p))
    by (apply pool_shape_set_reserved; [done | apply wrap64_range]).
  change (mask_ p) with (mask_ (set_reserved next p)).
  rewrite (shape_store_free _ Hp1). cbn [mbind outcome_bind].
  unfold publish. rewrite shape_store_control; [done|].
  apply pool_shape_set_free_objects; [done | by rewrite length_insert].
Qed.

Lemma produce_one :
  ('(p, index) ← reserve 1 p;
   p ← store_free_object (Z.land index (mask_ p)) obj p;
   publish index 1 p)
  = Ok (produced obj p).
Proof. rewrite reserve_one. cbn [mbind outcome_bind mask_ set_reserved]. apply publish_one. Qed.
End produce.

(** ** Construction *)

Lemma size_is_power_of_2_spec size :
  0 ≤ size < 2 ^ 32 →
  size_is_power_of_2 size = true ↔ ∃ k, 0 ≤ k ≤ 31 ∧ size = 2 ^ k.
Proof.
  intros Hrange. unfold size_is_power_of_2. split.
  - intros [Hnz Hland]%andb_prop.
    apply negb_true_iff, Z.eqb_neq in Hnz. apply Z.eqb_eq in Hland.
    rewrite wrap32_small in Hland by lia.
    pose proof (Z.log2_spec size ltac:(lia)) as Hlog.
    pose proof (Z.log2_nonneg size) as Hk.
    exists (Z.log2 size). split.
    + assert (Z.log2 size < 32) by (apply Z.log2_lt_pow2; lia). lia.
    + destruct (decide (size = 2 ^ Z.log2 size)) as [|Hne]; [done|exfalso].
      assert (Hpred : Z.log2 (size - 1) = Z.log2 size)
        by (apply Z.log2_unique; lia).
      assert (Hbit : Z.testbit (Z.land size (size - 1)) (Z.log2 size) = true).
      { rewrite Z.land_spec. rewrite <- Hpred at 2.
        rewrite !Z.bit_log2; [done | | lia].
        pose proof (Z.pow_pos_nonneg 2 (Z.log2 size)). lia. }
      rewrite Hland, Z.bits_0 in Hbit. done.
  - intros (k & Hk & ->). pose proof (pow2_bounds k Hk).
    apply andb_true_intro. split.
    + apply negb_true_iff, Z.eqb_neq. lia.
    + apply Z.eqb_eq. rewrite wrap32_small by lia.
      rewrite land_low_bits by lia. apply Z.mod_same. lia.
Qed.

Section seeding.
Context (sizeof_T buffer size : Z).
Context (Hsize : ∃ k, 0 ≤ k ≤ 31 ∧ size = 2 ^ k).

Lemma seeding_shape i p :
  seeding sizeof_T buffer size i p → 0 ≤ i ≤ size →
  mask_ p = size - 1 →
  length (free_objects_ p) = Z.to_nat size →
  length (control_ p) = Z.to_nat size →
  pool_shape p.
Proof.
  intros Hs Hi Hmask Hfree Hcontrol.
  destruct Hsize as (k & Hk & Hpow). pose proof (pow2_bounds k Hk).
  split; rewrite ?(seeding_size _ _ _ _ _ Hs), ?(seeding_index _ _ _ _ _ Hs),
    ?(seeding_consumed _ _ _ _ _ Hs); eauto; lia.
Qed.

(** One round of the loop. *)
Lemma seeding_round i p :
  pool_shape p → seeding sizeof_T buffer size i p → 0 ≤ i < size →
  seeding sizeof_T buffer size (i + 1) (produced (element sizeof_T buffer i) p).
Proof.
  intros Hp Hs Hi.
  pose proof (seeding_size _ _ _ _ _ Hs) as Hsz.
  pose proof (seeding_index _ _ _ _ _ Hs) as Hidx.
  assert (Hslot : producer_index p mod size_ p = i)
    by (rewrite Hidx, Hsz; apply Z.mod_small; lia).
  assert (Hpow : size ≤ 2 ^ 31).
  { destruct Hsize as (k & Hk & ->). by apply pow2_bounds. }
  split; try (by destruct Hs).
  - unfold produced, producer_index. cbn. fold (producer_index p).
    rewrite Hidx. apply wrap64_small. lia.
  - intros _. unfold produced. cbn. fold (producer_index p).
    rewrite Hidx, wrap64_small by lia. done.
  - intros j Hj. unfold produced. cbn [control_ free_objects_ set_control
      set_free_objects set_reserved]. rewrite Hslot, Hidx.
    destruct (decide (j = i)) as [->|Hne].
    + rewrite !list_lookup_insert_eq; [done | |].
      * rewrite (shape_free_objects p Hp), Hsz. lia.
      * rewrite (shape_control p Hp), Hsz. lia.
    + rewrite !list_lookup_insert_ne by lia.
      apply (seeding_done _ _ _ _ _ Hs). lia.
Qed.

Lemma seed_spec count : ∀ i p,
  pool_shape p → seeding sizeof_T buffer size i p →
  0 ≤ i → i + Z.of_nat count ≤ size →
  ∃ p', seed sizeof_T count i p = Ok p'
        ∧ pool_shape p'
        ∧ seeding sizeof_T buffer size (i + Z.of_nat count) p'.
Proof.
  induction count as [|count IH]; intros i p Hp Hs Hi Hle.
  - exists p. cbn [seed]. by rewrite Z.add_0_r.
  - cbn [seed]. rewrite (reserve_one p Hp).
    cbn [mbind outcome_bind mask_ buffer_ set_reserved].
    rewrite (seeding_buffer _ _ _ _ _ Hs).
    pose proof (publish_one p Hp (element sizeof_T buffer i)) as Hpub.
    revert Hpub. destruct (store_free_object _ _ _) as [p1| | | |];
      cbn [mbind outcome_bind]; intros Hpub; try done.
    rewrite Hpub. cbn [mbind outcome_bind]. clear Hpub p1.
    destruct (IH (i + 1) (produced (element sizeof_T buffer i) p))
      as (p' & Hseed & Hp' & Hs'); [by apply pool_shape_produced | | lia | lia |].
    { apply seeding_round; [done | done | lia]. }
    exists p'. split; [done|]. split; [done|].
    by replace (i + Z.of_nat (S count)) with (i + 1 + Z.of_nat count) by lia.
Qed.
End seeding.

Lemma fmap_seqZ_lookup {A} (f : Z → A) (size i : Z) :
  0 ≤ i < size → (f <$> seqZ 0 size) !! Z.to_nat i = Some (f i).
Proof.
  intros Hi. rewrite list_lookup_fmap, lookup_seqZ_lt by lia.
  cbn. f_equal. f_equal. lia.
Qed.

(** A list is determined by its length and its entries. *)
Lemma fmap_seqZ_intro {A} (f : Z → A) (size : Z) (l : list A) :
  length l = Z.to_nat size →
  (∀ j, 0 ≤ j < size → l !! Z.to_nat j = Some (f j)) →
  l = f <$> seqZ 0 size.
Proof.
  intros Hlen Hl. apply list_eq. intros i.
  destruct (decide (i < length l)%nat) as [Hlt|Hge].
  - replace i with (Z.to_nat (Z.of_nat i)) by lia.
    rewrite Hl, fmap_seqZ_lookup by lia. done.
  - rewrite !lookup_ge_None_2; [done | | lia].
    rewrite length_fmap, length_seqZ. lia.
Qed.

Lemma ObjectPool_new_power_of_2 sizeof_T buffer k :
  0 ≤ k ≤ 31 →
  ObjectPool_new sizeof_T buffer (2 ^ k) = Ok (full_pool sizeof_T buffer (2 ^ k)).
Proof.
  intros Hk. pose proof (pow2_bounds k Hk) as Hpow.
  set (size := 2 ^ k) in *.
  assert (Hsize : ∃ k, 0 ≤ k ≤ 31 ∧ size = 2 ^ k) by eauto.
  unfold ObjectPool_new.
  rewrite (proj2 (size_is_power_of_2_spec size ltac:(lia)) Hsize).
  rewrite wrap32_small by lia. cbn [size_].
  set (p0 := mkObjectPool _ _ _ _ _ _ _ _ _).
  assert (Hs0 : seeding sizeof_T buffer size 0 p0) by (split; (done || lia)).
  assert (Hp0 : pool_shape p0).
  { apply (seeding_shape sizeof_T buffer size Hsize 0); try done; try lia.
    all: apply length_replicate. }
  destruct (seed_spec sizeof_T buffer size Hsize (Z.to_nat size) 0 p0)
    as (p & Hseed & Hp & Hs); [done | done | lia | lia |].
  rewrite Hseed. cbn [mbind outcome_bind]. f_equal.
  rewrite Z.add_0_l, Z2Nat.id in Hs by lia.
  pose proof (shape_mask p Hp) as Hmask.
  pose proof (shape_free_objects p Hp) as Hfree.
  pose proof (shape_control p Hp) as Hcontrol.
  destruct Hs as [Hsz Hbuf Hcons Hlo Hhi Hidx Hres Hdone].
  specialize (Hres ltac:(lia)).
  destruct p as [r c sz m b lo hi fo co]. cbn in *. subst.
  unfold full_pool, set_bounds. cbn. f_equal.
  - apply fmap_seqZ_intro; [done|]. intros j Hj. by apply Hdone.
  - apply fmap_seqZ_intro; [done|]. intros j Hj. by apply Hdone.
Qed.

Lemma full_pool_shape sizeof_T buffer k :
  0 ≤ k ≤ 31 → pool_shape (full_pool sizeof_T buffer (2 ^ k)).
Proof.
  intros Hk. pose proof (pow2_bounds k Hk).
  split; cbn; rewrite ?length_fmap, ?length_seqZ; eauto; lia.
Qed.

Lemma construction_slots sizeof_T buffer k i :
  0 ≤ k ≤ 31 → 0 ≤ i < 2 ^ k →
  slot_at (full_pool sizeof_T buffer (2 ^ k)) i = slot.mk i 1
  ∧ free_ptr_at (full_pool sizeof_T buffer (2 ^ k)) i = element sizeof_T buffer i.
Proof.
  intros Hk Hi. pose proof (full_pool_shape sizeof_T buffer k Hk) as Hp.
  pose proof (shape_control_lookup _ Hp i) as Hc.
  pose proof (shape_free_lookup _ Hp i) as Hf.
  cbn [size_ control_ free_objects_ full_pool] in Hc, Hf.
  rewrite Z.mod_small in Hc, Hf by lia.
  rewrite (fmap_seqZ_lookup (λ i, slot.mk i 1)) in Hc by done.
  rewrite fmap_seqZ_lookup in Hf by done.
  injection Hc as <-. by injection Hf as <-.
Qed.

(** ** C5: the state after construction *)

(** C5.  Constructing a pool with a power-of-two capacity [N = 2^k]
    (a [uint32_t], so [k <= 31]) returns a pool with [reserved_.index_ = N],
    [consumed_ = 0], and for every [i] in [[0, N)]
    [control_[i].data_index = i] (with [size = 1]) and
    [free_objects_[i] = &buffer_[i]]. *)
Theorem construction_postcondition (sizeof_T buffer k : Z) :
  0 ≤ k ≤ 31 →
  ∃ p, ObjectPool_new sizeof_T buffer (2 ^ k) = Ok p
       ∧ size_ p = 2 ^ k
       ∧ producer_index p = 2 ^ k
       ∧ consumed_ p = 0
       ∧ ∀ i, 0 ≤ i < 2 ^ k →
           control_ p !! Z.to_nat i = Some (slot.mk i 1)
           ∧ slot.data_index (slot_at p i) = i
           ∧ free_objects_ p !! Z.to_nat i = Some (element sizeof_T buffer i).
Proof.
  intros Hk. exists (full_pool sizeof_T buffer (2 ^ k)).
  split; [by apply ObjectPool_new_power_of_2|].
  do 3 (split; [done|]). intros i Hi.
  assert (Hc : control_ (full_pool sizeof_T buffer (2 ^ k)) !! Z.to_nat i
               = Some (slot.mk i 1)) by by apply (fmap_seqZ_lookup (λ i, slot.mk i 1)).
  split; [done|]. split; [|by apply fmap_seqZ_lookup].
  pose proof (full_pool_shape sizeof_T buffer k Hk) as Hp.
  pose proof (shape_control_lookup _ Hp i) as Hslot.
  rewrite Z.mod_small in Hslot by (cbn; lia).
  rewrite Hc in Hslot. by injection Hslot as <-.
Qed.

Lemma construction_postcondition_witness :
  0 ≤ 2 ≤ 31
  ∧ ∃ p, ObjectPool_new 8 1000 (2 ^ 2) = Ok p
         ∧ size_ p = 2 ^ 2
         ∧ producer_index p = 2 ^ 2
         ∧ consumed_ p = 0
         ∧ ∀ i, 0 ≤ i < 2 ^ 2 →
             control_ p !! Z.to_nat i = Some (slot.mk i 1)
             ∧ slot.data_index (slot_at p i) = i
             ∧ free_objects_ p !! Z.to_nat i = Some (element 8 1000 i).
Proof. split; [lia|]. apply (construction_postcondition 8 1000 2). lia. Defined.

(** ** C8: the capacity check *)

(** C8.  For a capacity (a [uint32_t]) that is zero or not a power of two
    the constructor stops at its assertion; for every positive power of two
    it returns a pool. *)
Theorem construction_precondition (sizeof_T buffer size : Z) :
  0 ≤ size < 2 ^ 32 →
  ((∃ k, 0 ≤ k ∧ size = 2 ^ k) → ∃ p, ObjectPool_new sizeof_T buffer size = Ok p)
  ∧ (¬ (∃ k, 0 ≤ k ∧ size = 2 ^ k) → ObjectPool_new sizeof_T buffer size = AssertFailed).
Proof.
  intros Hrange. split.
  - intros (k & Hk & ->).
    assert (k < 32) by (apply (Z.pow_lt_mono_r_iff 2); lia).
    eexists. apply ObjectPool_new_power_of_2. lia.
  - intros Hnot. unfold ObjectPool_new.
    destruct (size_is_power_of_2 size) eqn:Hcheck; [|done].
    apply size_is_power_of_2_spec in Hcheck as (k & Hk & ->); [|done].
    exfalso. apply Hnot. exists k. split; [lia | done].
Qed.

Lemma construction_precondition_witness :
  0 ≤ 4 < 2 ^ 32 ∧ 0 ≤ 6 < 2 ^ 32 ∧ 0 ≤ 0 < 2 ^ 32
  ∧ (∃ p, ObjectPool_new 8 1000 4 = Ok p)
  ∧ ObjectPool_new 8 1000 6 = AssertFailed
  ∧ ObjectPool_new 8 1000 0 = AssertFailed.
Proof.
  split; [lia|]. split; [lia|]. split; [lia|]. split; [|split].
  - apply (construction_precondition 8 1000 4); [lia|]. exists 2. split; [lia | reflexivity].
  - apply (construction_precondition 8 1000 6); [lia|].
    intros (k & Hk & H).
    assert (k < 3) by (apply (Z.pow_lt_mono_r_iff 2); lia).
    assert (k = 0 ∨ k = 1 ∨ k = 2) as [->| [->| ->]] by lia; discriminate.
  - apply (construction_precondition 8 1000 0); [lia|].
    intros (k & Hk & H). pose proof (Z.pow_pos_nonneg 2 k). lia.
Defined.

(** ** The invariant of the pool *)

Lemma slot_at_produced obj p x :
  pool_shape p →
  slot_at (produced obj p) x
  = if decide (x mod size_ p = producer_index p mod size_ p)
    then slot.mk (producer_index p) 1 else slot_at p x.
Proof.
  intros Hp. unfold slot_at, produced. cbn [control_ mask_ set_control
    set_free_objects set_reserved]. rewrite (shape_land p Hp).
  pose proof (shape_slot_range p Hp x). pose proof (shape_slot_range p Hp (producer_index p)).
  case_decide as Heq.
  - rewrite Heq. apply list_lookup_total_insert_eq. rewrite (shape_control p Hp). lia.
  - apply list_lookup_total_insert_ne. lia.
Qed.

Lemma free_ptr_at_produced obj p x :
  pool_shape p →
  free_ptr_at (produced obj p) x
  = if decide (x mod size_ p = producer_index p mod size_ p)
    then obj else free_ptr_at p x.
Proof.
  intros Hp. unfold free_ptr_at, produced. cbn [free_objects_ mask_ set_control
    set_free_objects set_reserved]. rewrite (shape_land p Hp).
  pose proof (shape_slot_range p Hp x). pose proof (shape_slot_range p Hp (producer_index p)).
  case_decide as Heq.
  - rewrite Heq. apply list_lookup_total_insert_eq. rewrite (shape_free_objects p Hp). lia.
  - apply list_lookup_total_insert_ne. lia.
Qed.

Lemma full_pool_inv sizeof_T buffer k :
  0 < sizeof_T → 0 < buffer → 0 ≤ k ≤ 31 →
  pool_inv sizeof_T (full_pool sizeof_T buffer (2 ^ k)).
Proof.
  intros Hsz Hbuf Hk. pose proof (pow2_bounds k Hk) as Hpow.
  pose proof (full_pool_shape sizeof_T buffer k Hk) as Hp.
  split; try done; try (unfold producer_index; cbn; lia).
  - intros i Hi. cbn [size_ full_pool] in Hi.
    destruct (construction_slots sizeof_T buffer k i Hk Hi) as [-> _].
    unfold producer_index.
    cbn [slot.size slot.data_index size_ full_pool reserved_ reserved_info.index_].
    rewrite Z.mod_small by lia. lia.
  - intros i Hi. cbn [size_ full_pool] in Hi.
    destruct (construction_slots sizeof_T buffer k i Hk Hi) as [_ ->].
    unfold pool_owned, element.
    cbn [lower_bound_ upper_bound_ full_pool]. unfold element. nia.
Qed.

Section pool_inv.
Context (sizeof_T : Z) (p : ObjectPool) (Hinv : pool_inv sizeof_T p).

Let Hp : pool_shape p := inv_shape sizeof_T p Hinv.
Let current := consumed_ p.
Let stored := stored_index p.

Lemma inv_current_slot :
  slot.size (slot_at p current) = 1
  ∧ stored < producer_index p
  ∧ producer_index p ≤ stored + size_ p
  ∧ stored mod size_ p = current mod size_ p.
Proof.
  pose proof (shape_slot_range p Hp current) as Hr.
  destruct (inv_slots sizeof_T p Hinv (current mod size_ p) Hr) as (H1 & H2 & H3 & H4).
  assert (Heq : slot_at p (current mod size_ p) = slot_at p current).
  { unfold slot_at. rewrite !(shape_land p Hp). by rewrite Z.mod_mod by lia. }
  rewrite Heq in *. done.
Qed.

Lemma inv_no_reset : ¬ reset_detected p.
Proof. intros [_ Hlt]. pose proof inv_current_slot. fold stored in Hlt. lia. Qed.

Lemma inv_published : stored ≠ UINT64_MAX.
Proof.
  pose proof inv_current_slot. pose proof (shape_reserved p Hp).
  unfold UINT64_MAX. lia.
Qed.

Lemma inv_null_not_owned : ¬ pool_owned p 0.
Proof.
  unfold pool_owned. rewrite (inv_lower sizeof_T p Hinv). unfold element.
  pose proof (inv_buffer sizeof_T p Hinv). lia.
Qed.

(** The ring has nothing for the consumer. *)
Lemma inv_consume_empty fuel :
  stored < current → consume (S fuel) p = Ok (p, (0, 0)).
Proof.
  intros Hlt. apply consume_returns, consume_step_empty; [done | apply inv_no_reset |].
  by right.
Qed.

(** The ring hands out the pointer under the consumer. *)
Lemma inv_consume_claim fuel :
  current ≤ stored →
  consume (S fuel) p
  = Ok (set_consumed (stored + 1) p, (free_ptr_at p current, 1)).
Proof.
  intros Hge. destruct inv_current_slot as (Hw & Hlt & _ & Hslot).
  pose proof (shape_reserved p Hp). pose proof (shape_consumed p Hp).
  assert (Hread : readable p).
  { split; [apply inv_published|]. split; [done|]. by rewrite !(shape_land p Hp). }
  rewrite (consume_returns fuel p _ _ (consume_step_claim p Hp inv_no_reset Hread)).
  fold current stored. rewrite Hw, wrap64_small by (subst current; lia). done.
Qed.

Lemma inv_set_consumed :
  current ≤ stored → pool_inv sizeof_T (set_consumed (stored + 1) p).
Proof.
  intros Hge. destruct inv_current_slot as (Hw & Hlt & _ & Hslot).
  pose proof (shape_reserved p Hp). pose proof (shape_consumed p Hp).
  destruct Hinv. split; try done.
  - apply pool_shape_set_consumed; [done | subst current; lia].
  - cbn. unfold producer_index in *. cbn. lia.
Qed.

Lemma inv_produced obj :
  pool_owned p obj → producer_index p + 1 < 2 ^ 64 →
  pool_inv sizeof_T (produced obj p).
Proof.
  intros Hobj Hroom.
  pose proof (shape_reserved p Hp) as Hrange.
  pose proof (shape_size_bounds p Hp) as Hsize.
  assert (Hidx : producer_index (produced obj p) = producer_index p + 1).
  { unfold produced, producer_index. cbn. fold (producer_index p).
    apply wrap64_small. lia. }
  split; try (by destruct Hinv).
  - by apply pool_shape_produced.
  - rewrite Hidx. pose proof (inv_cursors sizeof_T p Hinv).
    change (consumed_ (produced obj p)) with (consumed_ p). lia.
  - rewrite Hidx. pose proof (inv_seeded sizeof_T p Hinv).
    change (size_ (produced obj p)) with (size_ p). lia.
  - intros i Hi. change (size_ (produced obj p)) with (size_ p) in *.
    rewrite Hidx, (slot_at_produced obj p i Hp).
    rewrite (Z.mod_small i) by lia.
    case_decide as Heq; cbn [slot.size slot.data_index].
    + lia.
    + destruct (inv_slots sizeof_T p Hinv i Hi) as (H1 & H2 & H3 & H4).
      split; [done|]. split; [lia|]. split; [|done].
      assert (producer_index p ≠ slot.data_index (slot_at p i) + size_ p); [|lia].
      intros Hfull. apply Heq. rewrite Hfull.
      replace (slot.data_index (slot_at p i) + size_ p)
        with (slot.data_index (slot_at p i) + 1 * size_ p) by lia.
      by rewrite Z_mod_plus_full.
  - intros i Hi. change (size_ (produced obj p)) with (size_ p) in *.
    unfold pool_owned.
    change (lower_bound_ (produced obj p)) with (lower_bound_ p).
    change (upper_bound_ (produced obj p)) with (upper_bound_ p).
    rewrite (free_ptr_at_produced obj p i Hp).
    case_decide; [done|]. by apply (inv_free_objects sizeof_T p Hinv).
Qed.
End pool_inv.

(** ** One call on a pool that satisfies the invariant *)

Lemma ObjectPool_new_inv sizeof_T buffer size p :
  0 < sizeof_T → 0 < buffer → 0 ≤ size < 2 ^ 32 →
  ObjectPool_new sizeof_T buffer size = Ok p →
  p = full_pool sizeof_T buffer size ∧ pool_inv sizeof_T p.
Proof.
  intros Hsz Hbuf Hrange Hnew.
  assert (Hpow : ∃ k, 0 ≤ k ≤ 31 ∧ size = 2 ^ k).
  { apply size_is_power_of_2_spec; [done|]. unfold ObjectPool_new in Hnew.
    by destruct (size_is_power_of_2 size). }
  destruct Hpow as (k & Hk & ->).
  rewrite ObjectPool_new_power_of_2 in Hnew by done. injection Hnew as <-.
  split; [done | by apply full_pool_inv].
Qed.

Section calls.
Context (sizeof_T : Z) (w : world) (Hinv : pool_inv sizeof_T (pool w)).

Let p := pool w.
Let current := consumed_ p.
Let stored := stored_index p.

Lemma allocate_from_heap fuel a :
  stored < current →
  allocate (S fuel) a w = Ok (mkWorld p (a :: heap w), a).
Proof.
  intros Hlt. unfold allocate. fold p.
  by rewrite (inv_consume_empty sizeof_T p Hinv fuel Hlt).
Qed.

Lemma allocate_from_ring fuel a :
  current ≤ stored →
  allocate (S fuel) a w
  = Ok (mkWorld (set_consumed (stored + 1) p) (heap w), free_ptr_at p current)
  ∧ pool_owned p (free_ptr_at p current)
  ∧ free_ptr_at p current ≠ 0.
Proof.
  intros Hge.
  pose proof (inv_shape sizeof_T p Hinv) as Hp.
  assert (Hown : pool_owned p (free_ptr_at p current)).
  { pose proof (shape_slot_range p Hp current) as Hr.
    pose proof (inv_free_objects sizeof_T p Hinv _ Hr) as Hown.
    unfold free_ptr_at in *. rewrite !(shape_land p Hp) in *.
    by rewrite Z.mod_mod in Hown by lia. }
  assert (Hnz : free_ptr_at p current ≠ 0).
  { intros Hz. apply (inv_null_not_owned sizeof_T p Hinv). by rewrite <- Hz. }
  split; [|done]. unfold allocate. fold p.
  rewrite (inv_consume_claim sizeof_T p Hinv fuel Hge). cbn [mbind outcome_bind].
  fold current stored. destruct (Z.eqb_spec (free_ptr_at p current) 0); done.
Qed.

Lemma free_to_ring obj :
  pool_owned p obj → free obj w = Ok (mkWorld (produced obj p) (heap w)).
Proof.
  intros [Hlo Hhi]. unfold free. fold p.
  destruct (Z.geb_spec obj (lower_bound_ p)); [|lia].
  destruct (Z.leb_spec obj (upper_bound_ p)); [|lia].
  cbn [andb]. pose proof (produce_one p (inv_shape sizeof_T p Hinv) obj) as Hprod.
  revert Hprod. destruct (reserve 1 p) as [[p1 index]| | | |];
    cbn [mbind outcome_bind]; try done.
  destruct (store_free_object _ _ _) as [p2| | | |]; cbn [mbind outcome_bind]; try done.
  by intros ->.
Qed.

Lemma free_to_heap obj :
  ¬ pool_owned p obj →
  free obj w = (h ← operator_delete obj (heap w); Ok (mkWorld p h)).
Proof.
  intros Hout. unfold free. fold p. unfold pool_owned in Hout.
  destruct (Z.geb_spec obj (lower_bound_ p)), (Z.leb_spec obj (upper_bound_ p));
    cbn [andb]; (done || lia).
Qed.

(** A call returns, or it deletes an address that is not a live heap
    object; when it returns, the invariant holds again and the producer
    cursor has advanced by one position at most. *)
Lemma call_inv fuel o :
  producer_index p + 1 < 2 ^ 64 →
  match run fuel [o] w with
  | Ok w' => pool_inv sizeof_T (pool w')
             ∧ size_ (pool w') = size_ p
             ∧ producer_index p ≤ producer_index (pool w') ≤ producer_index p + 1
  | Undefined => True
  | OutOfFuel => fuel = 0%nat
  | _ => False
  end.
Proof.
  intros Hroom. destruct o as [a|obj]; cbn [run].
  - destruct fuel as [|fuel]; [done|].
    destruct (Z_lt_le_dec stored current) as [Hlt|Hge].
    + rewrite (allocate_from_heap fuel a Hlt). cbn. fold p. split; [done|lia].
    + destruct (allocate_from_ring fuel a Hge) as (-> & _). cbn.
      split; [by apply inv_set_consumed|]. unfold producer_index. cbn. lia.
  - destruct (decide (pool_owned p obj)) as [Hown|Hout].
    + rewrite (free_to_ring obj Hown). cbn [mbind outcome_bind pool].
      split; [by apply inv_produced|]. split; [done|].
      unfold produced, producer_index. cbn. fold (producer_index p).
      pose proof (shape_reserved p (inv_shape sizeof_T p Hinv)).
      rewrite wrap64_small by lia. lia.
    + rewrite (free_to_heap obj Hout). unfold operator_delete.
      destruct (obj =? 0); [|case_decide]; cbn; try done.
      all: fold p; split; [done|lia].
Qed.
End calls.

Lemma run_inv sizeof_T fuel ops : ∀ w,
  pool_inv sizeof_T (pool w) →
  producer_index (pool w) + Z.of_nat (length ops) < 2 ^ 64 →
  match run fuel ops w with
  | Ok w' => pool_inv sizeof_T (pool w')
             ∧ size_ (pool w') = size_ (pool w)
             ∧ producer_index (pool w') ≤ producer_index (pool w) + Z.of_nat (length ops)
  | Undefined => True
  | OutOfFuel => fuel = 0%nat
  | _ => False
  end.
Proof.
  induction ops as [|o ops IH]; intros w Hinv Hroom.
  - cbn. split; [done|lia].
  - cbn [length] in Hroom.
    pose proof (call_inv sizeof_T w Hinv fuel o ltac:(lia)) as Hcall.
    assert (Hstep : run fuel (o :: ops) w = (w' ← run fuel [o] w; run fuel ops w')).
    { destruct o; cbn [run]; [destruct (allocate _ _ _) as [[]| | | |] | destruct (free _ _)];
        done. }
    rewrite Hstep. destruct (run fuel [o] w) as [w1| | | |];
      cbn [mbind outcome_bind]; try done.
    destruct Hcall as (Hinv1 & Hsz1 & Hidx1).
    specialize (IH w1 Hinv1 ltac:(lia)).
    destruct (run fuel ops w1) as [w2| | | |]; try done.
    destruct IH as (Hinv2 & Hsz2 & Hidx2). split; [done|]. split; [congruence|].
    cbn [length]. lia.
Qed.

(** Every state that a run reaches satisfies the invariant. *)
Lemma runs_to_inv sizeof_T buffer size fuel ops w :
  runs_to sizeof_T buffer size fuel ops w →
  pool_inv sizeof_T (pool w) ∧ size_ (pool w) = size.
Proof.
  intros (Hsz & Hbuf & Hrange & Hroom & Hrun).
  unfold world_new in Hrun.
  destruct (ObjectPool_new sizeof_T buffer size) as [p| | | |] eqn:Hnew; try done.
  cbn [mbind outcome_bind] in Hrun.
  destruct (ObjectPool_new_inv _ _ _ _ Hsz Hbuf Hrange Hnew) as [-> Hinv].
  pose proof (run_inv sizeof_T fuel ops (mkWorld (full_pool sizeof_T buffer size) []) Hinv) as H.
  rewrite Hrun in H. destruct H as (H1 & H2 & _); [cbn; lia | done].
Qed.

Lemma sample_world_run : runs_to 8 1000 2 1 sample_calls sample_world.
Proof. repeat split; try (cbn; lia). Defined.

Lemma sample_world_drained_run :
  runs_to 8 1000 2 1 (sample_calls ++ [op_allocate 6000]) sample_world_drained.
Proof. repeat split; try (cbn; lia). Defined.

(** ** C6: the consumer never overtakes the producer *)

(** C6.  After the construction of a pool and any sequence of [allocate]
    and [free] calls (whatever their arguments, as long as the calls return
    and are too few to wrap the 64-bit producer cursor), the consumer cursor
    is at most the producer's reservation cursor. *)
Theorem consumer_never_overtakes_producer
    (sizeof_T buffer size : Z) (fuel : nat) (ops : list op) (w : world) :
  runs_to sizeof_T buffer size fuel ops w →
  0 ≤ consumed_ (pool w) ≤ producer_index (pool w)
  ∧ producer_index (pool w) < 2 ^ 64.
Proof.
  intros Hrun. destruct (runs_to_inv _ _ _ _ _ _ Hrun) as [Hinv _].
  pose proof (inv_cursors _ _ Hinv).
  pose proof (shape_consumed _ (inv_shape _ _ Hinv)).
  pose proof (shape_reserved _ (inv_shape _ _ Hinv)). lia.
Qed.

Lemma consumer_never_overtakes_producer_witness :
  runs_to 8 1000 2 1 sample_calls sample_world
  ∧ 0 ≤ consumed_ (pool sample_world) ≤ producer_index (pool sample_world)
  ∧ producer_index (pool sample_world) < 2 ^ 64.
Proof.
  split; [exact sample_world_run|].
  exact (consumer_never_overtakes_producer 8 1000 2 1 sample_calls sample_world
           sample_world_run).
Defined.

(** ** C3: allocation never fails *)

Lemma fresh_object_not_owned sizeof_T w a :
  pool_inv sizeof_T (pool w) → fresh_object sizeof_T w a → ¬ pool_owned (pool w) a.
Proof.
  intros Hinv (_ & Hblock & _) [Hlo Hhi].
  rewrite (inv_lower _ _ Hinv) in Hlo. rewrite (inv_upper _ _ Hinv) in Hhi.
  rewrite (shape_mask _ (inv_shape _ _ Hinv)) in Hhi. unfold element in *.
  pose proof (inv_sizeof _ _ Hinv). nia.
Qed.

(** C3.  In every state of the pool (after construction and any calls),
    [allocate()] returns, and returns a non-null pointer.  Either [consume]
    yields a pointer, which is returned and lies in
    [[lower_bound_, upper_bound_]], or [consume] yields [{nullptr, 0}] and
    the object that [new T()] creates is returned, which lies outside these
    bounds and is now alive on the heap.  No outcome other than a normal
    return is possible. *)
Theorem allocate_never_fails
    (sizeof_T buffer size : Z) (fuel : nat) (ops : list op) (w : world)
    (fuel' : nat) (a : Z) :
  runs_to sizeof_T buffer size fuel ops w →
  fresh_object sizeof_T w a →
  ∃ w' obj,
    allocate (S fuel') a w = Ok (w', obj)
    ∧ obj ≠ 0
    ∧ ((consume (S fuel') (pool w) = Ok (pool w', (obj, 1))
        ∧ pool_owned (pool w) obj
        ∧ heap w' = heap w)
       ∨ (consume (S fuel') (pool w) = Ok (pool w, (0, 0))
          ∧ obj = a
          ∧ ¬ pool_owned (pool w) obj
          ∧ w' = mkWorld (pool w) (a :: heap w))).
Proof.
  intros Hrun Hfresh. destruct (runs_to_inv _ _ _ _ _ _ Hrun) as [Hinv _].
  destruct (Z_lt_le_dec (stored_index (pool w)) (consumed_ (pool w))) as [Hlt|Hge].
  - eexists _, _. split; [by apply (allocate_from_heap sizeof_T)|].
    split; [apply Hfresh|]. right.
    split; [by apply (inv_consume_empty sizeof_T)|]. split; [done|].
    split; [|done]. by apply (fresh_object_not_owned sizeof_T).
  - destruct (allocate_from_ring sizeof_T w Hinv fuel' a Hge) as (Halloc & Hown & Hnz).
    eexists _, _. split; [exact Halloc|]. split; [done|]. left.
    split; [by apply (inv_consume_claim sizeof_T)|]. done.
Qed.

Lemma sample_world_fresh : fresh_object 8 sample_world 6000.
Proof.
  split; [discriminate|]. split; [right; cbn; lia|].
  intros H. by apply elem_of_nil in H.
Defined.

Lemma sample_world_drained_fresh : fresh_object 8 sample_world_drained 6000.
Proof.
  split; [discriminate|]. split; [right; cbn; lia|].
  intros H. by apply elem_of_nil in H.
Defined.

Lemma allocate_never_fails_witness :
  runs_to 8 1000 2 1 sample_calls sample_world
  ∧ fresh_object 8 sample_world 6000
  ∧ runs_to 8 1000 2 1 (sample_calls ++ [op_allocate 6000]) sample_world_drained
  ∧ fresh_object 8 sample_world_drained 6000
  ∧ (∃ w' obj, allocate 1 6000 sample_world = Ok (w', obj) ∧ obj ≠ 0)
  ∧ (∃ w' obj, allocate 1 6000 sample_world_drained = Ok (w', obj) ∧ obj ≠ 0).
Proof.
  split; [exact sample_world_run|]. split; [exact sample_world_fresh|].
  split; [exact sample_world_drained_run|]. split; [exact sample_world_drained_fresh|].
  split.
  - destruct (allocate_never_fails 8 1000 2 1 sample_calls sample_world 0 6000
                sample_world_run sample_world_fresh) as (w' & obj & H & Hnz & _).
    by exists w', obj.
  - destruct (allocate_never_fails 8 1000 2 1 _ sample_world_drained 0 6000
                sample_world_drained_run sample_world_drained_fresh)
      as (w' & obj & H & Hnz & _).
    by exists w', obj.
Defined.

(** ** C10: releasing the null pointer *)

(** C10.  In every state of the pool, [free(nullptr)] takes the branch of
    the heap objects, because the null address is below [lower_bound_], and
    [delete] of the null pointer does nothing: the call returns and leaves
    the pool and the heap as they were. *)
Theorem free_null_is_noop
    (sizeof_T buffer size : Z) (fuel : nat) (ops : list op) (w : world) :
  runs_to sizeof_T buffer size fuel ops w →
  ¬ pool_owned (pool w) 0 ∧ free 0 w = Ok w.
Proof.
  intros Hrun. destruct (runs_to_inv _ _ _ _ _ _ Hrun) as [Hinv _].
  pose proof (inv_null_not_owned _ _ Hinv) as Hnull. split; [done|].
  rewrite (free_to_heap w 0 Hnull). by destruct w.
Qed.

Lemma free_null_is_noop_witness :
  runs_to 8 1000 2 1 sample_calls sample_world
  ∧ ¬ pool_owned (pool sample_world) 0
  ∧ free 0 sample_world = Ok sample_world.
Proof.
  split; [exact sample_world_run|].
  exact (free_null_is_noop 8 1000 2 1 sample_calls sample_world sample_world_run).
Defined.

(** ** Lists of pointers *)

Lemma remove_one_absent x l : x ∉ l → remove_one x l = l.
Proof.
  induction l as [|y l IH]; [done|]. intros Hx. cbn.
  case_decide as Heq; [subst; by destruct Hx; left|].
  f_equal. apply IH. intros Hin. apply Hx. by right.
Qed.

Lemma remove_one_perm x l : x ∈ l → l ≡ₚ x :: remove_one x l.
Proof.
  induction l as [|y l IH]; intros Hx; [by apply elem_of_nil in Hx|].
  cbn. case_decide as Heq; [by subst|].
  apply elem_of_cons in Hx as [->|Hx]; [done|].
  rewrite (IH Hx) at 1. apply Permutation_swap.
Qed.

Lemma remove_one_elem a x l : a ∈ remove_one x l → a ∈ l.
Proof.
  induction l as [|y l IH]; [done|]. cbn. case_decide.
  - by right.
  - intros [->|Hin]%elem_of_cons; [by left | right; auto].
Qed.

Lemma remove_one_NoDup x l : NoDup l → NoDup (remove_one x l).
Proof.
  induction 1 as [|y l Hy Hl IH]; [constructor|]. cbn. case_decide; [done|].
  constructor; [|done]. intros Hin. by apply Hy, (remove_one_elem _ x).
Qed.

Lemma count_occ_NoDup (l : list Z) x :
  NoDup l → x ∈ l → count_occ Z.eq_dec l x = 1%nat.
Proof.
  induction 1 as [|y l Hy Hl IH]; intros Hx; [by apply elem_of_nil in Hx|].
  cbn. destruct (Z.eq_dec y x) as [->|Hne].
  - f_equal. apply count_occ_not_In. by rewrite <- list_elem_of_In.
  - apply elem_of_cons in Hx as [->|Hx]; [done | by apply IH].
Qed.

Lemma mod_same_close size a b :
  0 < size → a mod size = b mod size → - size < a - b < size → a = b.
Proof.
  intros Hsize Hmod Hclose.
  pose proof (Z.div_mod a size ltac:(lia)). pose proof (Z.div_mod b size ltac:(lia)).
  assert (a `div` size = b `div` size) by nia. lia.
Qed.

(** ** The ring and the pool's objects *)

Section ring.
Context (sizeof_T : Z) (p : ObjectPool) (Hinv : pool_inv sizeof_T p).

Let Hp : pool_shape p := inv_shape sizeof_T p Hinv.

Lemma free_ptr_at_mod x : free_ptr_at p (x mod size_ p) = free_ptr_at p x.
Proof.
  unfold free_ptr_at. rewrite !(shape_land p Hp).
  pose proof (shape_size_bounds p Hp). by rewrite Z.mod_mod by lia.
Qed.

Lemma slot_at_mod x : slot_at p (x mod size_ p) = slot_at p x.
Proof.
  unfold slot_at. rewrite !(shape_land p Hp).
  pose proof (shape_size_bounds p Hp). by rewrite Z.mod_mod by lia.
Qed.

Lemma free_ptr_at_owned x : pool_owned p (free_ptr_at p x).
Proof.
  rewrite <- free_ptr_at_mod.
  apply (inv_free_objects sizeof_T p Hinv), (shape_slot_range p Hp).
Qed.

Lemma ring_entries_owned x : x ∈ ring_entries p → pool_owned p x.
Proof.
  unfold ring_entries. intros (j & -> & _)%list_elem_of_fmap. apply free_ptr_at_owned.
Qed.

Lemma ring_entries_length :
  length (ring_entries p) = Z.to_nat (producer_index p - consumed_ p).
Proof. unfold ring_entries. by rewrite length_fmap, length_seqZ. Qed.

Lemma storage_owned x : x ∈ storage sizeof_T p → pool_owned p x.
Proof.
  unfold storage. intros (j & -> & Hj)%list_elem_of_fmap.
  apply elem_of_seqZ in Hj. unfold pool_owned.
  rewrite (inv_lower _ _ Hinv), (inv_upper _ _ Hinv), (shape_mask p Hp).
  unfold element. pose proof (inv_sizeof _ _ Hinv). nia.
Qed.

Lemma storage_NoDup : NoDup (storage sizeof_T p).
Proof.
  unfold storage. apply NoDup_fmap_2_strong; [|apply NoDup_seqZ].
  intros x y _ _. unfold element. pose proof (inv_sizeof _ _ Hinv). nia.
Qed.

Lemma storage_length : length (storage sizeof_T p) = Z.to_nat (size_ p).
Proof. unfold storage. by rewrite length_fmap, length_seqZ. Qed.

Lemma storage_element k :
  0 ≤ k < size_ p → element sizeof_T (buffer_ p) k ∈ storage sizeof_T p.
Proof. intros Hk. apply list_elem_of_fmap_2, elem_of_seqZ. lia. Qed.

(** The record under a consumer that is at most a lap behind the
    producer carries the consumer's own index. *)
Lemma stored_index_in_lap :
  consumed_ p < producer_index p →
  producer_index p - consumed_ p ≤ size_ p →
  stored_index p = consumed_ p.
Proof.
  intros Hlt Hlap. destruct (inv_current_slot sizeof_T p Hinv) as (_ & H1 & H2 & H3).
  pose proof (shape_size_bounds p Hp).
  apply (mod_same_close (size_ p)); [lia | done | lia].
Qed.

Lemma published_in_lap j :
  consumed_ p ≤ j < producer_index p →
  producer_index p - consumed_ p ≤ size_ p →
  slot_at p j = slot.mk j 1.
Proof.
  intros Hj Hlap. pose proof (shape_size_bounds p Hp).
  destruct (inv_slots sizeof_T p Hinv (j mod size_ p) (shape_slot_range p Hp j))
    as (H1 & H2 & H3 & H4).
  rewrite slot_at_mod in *.
  assert (slot.data_index (slot_at p j) = j)
    by (apply (mod_same_close (size_ p)); [lia | done | lia]).
  destruct (slot_at p j) as [d s]. cbn in *. by subst.
Qed.

Lemma ring_entries_claim :
  consumed_ p < producer_index p →
  ring_entries p
  = free_ptr_at p (consumed_ p) :: ring_entries (set_consumed (consumed_ p + 1) p).
Proof.
  intros Hlt. unfold ring_entries. rewrite seqZ_cons by lia.
  cbn [fmap list_fmap consumed_ set_consumed].
  change (producer_index (set_consumed _ p)) with (producer_index p).
  f_equal. f_equal. f_equal; lia.
Qed.

Lemma ring_entries_produced obj :
  consumed_ p ≤ producer_index p →
  producer_index p - consumed_ p < size_ p →
  producer_index p + 1 < 2 ^ 64 →
  ring_entries (produced obj p) = ring_entries p ++ [obj].
Proof.
  intros Hle Hroom Hword. unfold ring_entries.
  pose proof (shape_reserved p Hp). pose proof (shape_size_bounds p Hp).
  assert (Hidx : producer_index (produced obj p) = producer_index p + 1).
  { unfold produced, producer_index. cbn. fold (producer_index p).
    apply wrap64_small. lia. }
  rewrite Hidx. change (consumed_ (produced obj p)) with (consumed_ p).
  replace (producer_index p + 1 - consumed_ p)
    with ((producer_index p - consumed_ p) + 1) by lia.
  rewrite seqZ_app, fmap_app by lia. f_equal.
  - apply list_fmap_ext. intros i j Hj%lookup_seqZ.
    rewrite (free_ptr_at_produced obj p j Hp). case_decide as Heq; [|done].
    assert (j = producer_index p)
      by (apply (mod_same_close (size_ p)); [lia | done | lia]). lia.
  - replace (consumed_ p + (producer_index p - consumed_ p)) with (producer_index p) by lia.
    rewrite seqZ_cons, seqZ_nil by lia. cbn [fmap list_fmap]. f_equal.
    rewrite (free_ptr_at_produced obj p _ Hp). by case_decide.
Qed.
End ring.

(** ** The invariant of contract-respecting runs *)

Lemma world_new_contract sizeof_T buffer size w :
  0 < sizeof_T → 0 < buffer → 0 ≤ size < 2 ^ 32 →
  world_new sizeof_T buffer size = Ok w →
  contract_inv sizeof_T w [] ∧ producer_index (pool w) = size_ (pool w).
Proof.
  intros Hsz Hbuf Hrange Hnew. unfold world_new in Hnew.
  destruct (ObjectPool_new sizeof_T buffer size) as [p| | | |] eqn:Hp; try done.
  injection Hnew as <-.
  destruct (ObjectPool_new_inv _ _ _ _ Hsz Hbuf Hrange Hp) as [-> Hinv].
  split; [|done]. split; cbn [pool heap]; try done.
  - unfold producer_index. cbn. lia.
  - rewrite !app_nil_r. unfold ring_entries, storage, producer_index. cbn.
    rewrite Z.sub_0_r.
    assert (Heq : free_ptr_at (full_pool sizeof_T buffer size) <$> seqZ 0 size
                  = element sizeof_T buffer <$> seqZ 0 size); [|by rewrite Heq].
    apply list_fmap_ext. intros i j [-> Hj]%lookup_seqZ.
    pose proof (shape_free_lookup _ (inv_shape _ _ Hinv) (0 + Z.of_nat i)) as Hl.
    cbn [size_ full_pool free_objects_] in Hl.
    rewrite Z.mod_small, fmap_seqZ_lookup in Hl by lia. by injection Hl as <-.
  - constructor.
  - intros a Ha. by apply elem_of_nil in Ha.
Qed.

Section contract.
Context (sizeof_T : Z) (w : world) (out : list Z).
Context (Hc : contract_inv sizeof_T w out).

Local Abbreviation p := (pool w).
Let Hinv : pool_inv sizeof_T p := cinv_pool sizeof_T w out Hc.

Lemma contract_all_NoDup : NoDup (ring_entries p ++ out).
Proof.
  rewrite (cinv_perm _ _ _ Hc). apply NoDup_app.
  split; [by apply storage_NoDup|]. split; [|apply (cinv_heap_nodup _ _ _ Hc)].
  intros x Hx Hh. apply (cinv_heap _ _ _ Hc) in Hh as [_ Hh].
  by apply Hh, (storage_owned sizeof_T).
Qed.

(** An outstanding pointer is an object of the pool or a live heap
    object, according to the address test of [free]. *)
Lemma contract_outstanding obj :
  obj ∈ out →
  obj ≠ 0
  ∧ (pool_owned p obj → obj ∈ storage sizeof_T p ∧ obj ∉ ring_entries p)
  ∧ (¬ pool_owned p obj → obj ∈ heap w).
Proof.
  intros Hobj.
  assert (Hin : obj ∈ storage sizeof_T p ++ heap w).
  { rewrite <- (cinv_perm _ _ _ Hc). apply elem_of_app. by right. }
  apply elem_of_app in Hin. split; [|split].
  - destruct Hin as [Hs|Hh].
    + apply (storage_owned sizeof_T p Hinv) in Hs. intros ->.
      by apply (inv_null_not_owned sizeof_T p Hinv).
    + by apply (cinv_heap _ _ _ Hc).
  - intros Hown. split.
    + destruct Hin as [Hs|Hh]; [done|]. by apply (cinv_heap _ _ _ Hc) in Hh as [_ Hh].
    + pose proof contract_all_NoDup as Hnd. apply NoDup_app in Hnd as (_ & Hdisj & _).
      intros Hring. by apply (Hdisj obj).
  - intros Hout. destruct Hin as [Hs|Hh]; [|done].
    by apply (storage_owned sizeof_T p Hinv) in Hs.
Qed.

(** While a pool object is outstanding the ring is not full. *)
Lemma contract_room obj :
  obj ∈ out → pool_owned p obj →
  producer_index p - consumed_ p < size_ p.
Proof.
  intros Hobj Hown.
  destruct (contract_outstanding obj Hobj) as (_ & Hs & _).
  destruct (Hs Hown) as [Hstorage Hring].
  assert (Hsub : obj :: ring_entries p ⊆+ storage sizeof_T p).
  { apply NoDup_submseteq.
    - constructor; [done|]. pose proof contract_all_NoDup as Hnd.
      by apply NoDup_app in Hnd as (? & _).
    - intros x [->|Hx]%elem_of_cons; [done|].
      assert (Hin : x ∈ storage sizeof_T p ++ heap w).
      { rewrite <- (cinv_perm _ _ _ Hc). apply elem_of_app. by left. }
      apply elem_of_app in Hin as [|Hh]; [done|].
      apply (cinv_heap _ _ _ Hc) in Hh as [_ Hh].
      destruct Hh. by apply (ring_entries_owned sizeof_T). }
  apply submseteq_length in Hsub. cbn [length] in Hsub.
  rewrite ring_entries_length, storage_length in Hsub.
  pose proof (inv_cursors _ _ Hinv). lia.
Qed.

Lemma contract_allocate fuel a w' obj :
  fresh_object sizeof_T w a →
  allocate fuel a w = Ok (w', obj) →
  contract_inv sizeof_T w' (obj :: out)
  ∧ size_ (pool w') = size_ p
  ∧ producer_index (pool w') = producer_index p.
Proof.
  intros Hfresh Halloc. destruct fuel as [|fuel]; [done|].
  destruct (Z_lt_le_dec (stored_index p) (consumed_ p)) as [Hlt|Hge].
  - rewrite (allocate_from_heap sizeof_T w Hinv fuel a Hlt) in Halloc.
    injection Halloc as <- <-. split; [|done].
    destruct Hc as [H1 H2 H3 H4 H5]. split; cbn [pool heap]; try done.
    + fold p. rewrite <- Permutation_middle, H3. apply Permutation_middle.
    + constructor; [apply Hfresh | done].
    + intros x [->|Hx]%elem_of_cons; [|by apply H5].
      split; [apply Hfresh | by apply (fresh_object_not_owned sizeof_T)].
  - destruct (allocate_from_ring sizeof_T w Hinv fuel a Hge) as (Heq & Hown & Hnz).
    rewrite Heq in Halloc. injection Halloc as <- <-. split; [|done].
    destruct (inv_current_slot sizeof_T p Hinv) as (_ & Hlt & _).
    assert (Hstored : stored_index p = consumed_ p)
      by (apply (stored_index_in_lap sizeof_T p Hinv); [lia | apply (cinv_level _ _ _ Hc)]).
    fold p. rewrite Hstored.
    pose proof (inv_set_consumed sizeof_T p Hinv Hge) as Hinv'. rewrite Hstored in Hinv'.
    split; cbn [pool heap]; try done.
    + pose proof (cinv_level _ _ _ Hc). fold p in H.
      unfold producer_index in *. cbn. lia.
    + rewrite <- Permutation_middle.
      rewrite <- (cinv_perm _ _ _ Hc). fold p.
      by rewrite (ring_entries_claim p) by lia.
    + apply (cinv_heap_nodup _ _ _ Hc).
    + apply (cinv_heap _ _ _ Hc).
Qed.

Lemma contract_free obj w' :
  obj ∈ out →
  producer_index p + 1 < 2 ^ 64 →
  free obj w = Ok w' →
  contract_inv sizeof_T w' (remove_one obj out)
  ∧ size_ (pool w') = size_ p
  ∧ producer_index (pool w') ≤ producer_index p + 1.
Proof.
  intros Hobj Hword Hfree.
  destruct (contract_outstanding obj Hobj) as (Hnz & Hpool & Hheap).
  destruct (decide (pool_owned p obj)) as [Hown|Hnot].
  - rewrite (free_to_ring sizeof_T w Hinv obj Hown) in Hfree. injection Hfree as <-.
    pose proof (contract_room obj Hobj Hown) as Hroom.
    pose proof (inv_cursors _ _ Hinv) as Hle.
    pose proof (shape_reserved p (inv_shape _ _ Hinv)) as Hrange.
    assert (Hidx : producer_index (produced obj p) = producer_index p + 1).
    { unfold produced, producer_index. cbn. fold (producer_index p).
      apply wrap64_small. lia. }
    cbn [pool]. fold p. split; [|split; [done | lia]].
    split; cbn [pool heap].
    + by apply inv_produced.
    + rewrite Hidx. change (consumed_ (produced obj p)) with (consumed_ p).
      change (size_ (produced obj p)) with (size_ p). lia.
    + rewrite (ring_entries_produced sizeof_T p Hinv) by (done || lia).
      change (storage sizeof_T (produced obj p)) with (storage sizeof_T p).
      rewrite <- (cinv_perm _ _ _ Hc). fold p.
      rewrite <- app_assoc. cbn [app]. by rewrite <- (remove_one_perm obj out).
    + apply (cinv_heap_nodup _ _ _ Hc).
    + apply (cinv_heap _ _ _ Hc).
  - rewrite (free_to_heap w obj Hnot) in Hfree. unfold operator_delete in Hfree.
    destruct (Z.eqb_spec obj 0); [done|].
    rewrite decide_True in Hfree by auto. injection Hfree as <-.
    cbn [pool]. fold p. split; [|split; [done | lia]].
    split; cbn [pool heap]; try apply Hc.
    + apply (Permutation_cons_inv (a := obj)).
      rewrite Permutation_middle, <- (remove_one_perm obj out) by done.
      rewrite (Permutation_middle (storage sizeof_T p)).
      rewrite <- (remove_one_perm obj (heap w)) by auto. apply Hc.
    + apply remove_one_NoDup, Hc.
    + intros a Ha%remove_one_elem. by apply (cinv_heap _ _ _ Hc).
Qed.
End contract.

Lemma reachable_inv sizeof_T size n w out :
  reachable sizeof_T size n w out →
  size + Z.of_nat n < 2 ^ 64 →
  contract_inv sizeof_T w out
  ∧ size_ (pool w) = size
  ∧ producer_index (pool w) ≤ size + Z.of_nat n.
Proof.
  induction 1 as [buffer w Hsz Hbuf Hrange Hnew
                 |n w out fuel a w' obj Hreach IH Hfresh Halloc
                 |n w out obj w' Hreach IH Hobj Hfree]; intros Hword.
  - destruct (world_new_contract _ _ _ _ Hsz Hbuf Hrange Hnew) as [Hc Hidx].
    assert (size_ (pool w) = size).
    { unfold world_new in Hnew.
      destruct (ObjectPool_new sizeof_T buffer size) as [p| | | |] eqn:Hp; try done.
      injection Hnew as <-.
      by destruct (ObjectPool_new_inv _ _ _ _ Hsz Hbuf Hrange Hp) as [-> _]. }
    split; [done|]. split; [done|lia].
  - destruct IH as (Hc & Hsize & Hidx); [lia|].
    destruct (contract_allocate _ _ _ Hc _ _ _ _ Hfresh Halloc) as (Hc' & Hsize' & Hidx').
    split; [done|]. split; [congruence|lia].
  - destruct IH as (Hc & Hsize & Hidx); [lia|].
    destruct (contract_free _ _ _ Hc _ _ Hobj ltac:(lia) Hfree) as (Hc' & Hsize' & Hidx').
    split; [done|]. split; [congruence|lia].
Qed.

Lemma exhausted_world_reachable :
  reachable 8 2 3 exhausted_world exhausted_outstanding.
Proof.
  eapply reach_allocate with (fuel := 1%nat) (a := 5000).
  - eapply reach_allocate with (fuel := 1%nat) (a := 5000).
    + eapply reach_allocate with (fuel := 1%nat) (a := 5000).
      * apply (reach_new 8 2 1000); [lia | lia | lia | vm_compute; reflexivity].
      * split; [discriminate|]. split; [right; cbn; lia|].
        intros H. by apply elem_of_nil in H.
      * vm_compute. reflexivity.
    + split; [discriminate|]. split; [right; cbn; lia|].
      intros H. by apply elem_of_nil in H.
    + vm_compute. reflexivity.
  - split; [discriminate|]. split; [right; cbn; lia|].
    intros H. by apply elem_of_nil in H.
  - vm_compute. reflexivity.
Defined.

(** ** C4: release dispatches on the address *)

(** C4.  Let [obj] be a pointer that [allocate] returned and that has not
    been freed since; it is not null.  If
    [lower_bound_ <= obj <= upper_bound_], [free(obj)] runs the
    reservation-and-publish protocol: [reserve()] returns the producer index
    [index], [obj] is written to [free_objects_[index & mask_]],
    [publish(index)] publishes the slot, the ring holds [obj] as its last
    entry and the heap is untouched.  Otherwise [obj] is a live heap object
    and [free(obj)] deletes it, leaving the pool untouched. *)
Theorem free_dispatches_on_address
    (sizeof_T size : Z) (n : nat) (w : world) (out : list Z) (obj : Z) :
  reachable sizeof_T size n w out →
  size + Z.of_nat n + 1 < 2 ^ 64 →
  obj ∈ out →
  obj ≠ 0
  ∧ (pool_owned (pool w) obj →
     ∃ p1 index p2 p3,
       reserve 1 (pool w) = Ok (p1, index)
       ∧ store_free_object (Z.land index (mask_ p1)) obj p1 = Ok p2
       ∧ publish index 1 p2 = Ok p3
       ∧ free obj w = Ok (mkWorld p3 (heap w))
       ∧ index = producer_index (pool w)
       ∧ free_ptr_at p3 index = obj
       ∧ slot_at p3 index = slot.mk index 1
       ∧ ring_entries p3 = ring_entries (pool w) ++ [obj])
  ∧ (¬ pool_owned (pool w) obj →
     obj ∈ heap w
     ∧ free obj w = Ok (mkWorld (pool w) (remove_one obj (heap w)))).
Proof.
  intros Hreach Hword Hobj.
  destruct (reachable_inv _ _ _ _ _ Hreach ltac:(lia)) as (Hc & Hsize & Hidx).
  pose proof (cinv_pool _ _ _ Hc) as Hinv. pose proof (inv_shape _ _ Hinv) as Hp.
  destruct (contract_outstanding _ _ _ Hc obj Hobj) as (Hnz & Hpool & Hheap).
  split; [done|]. split.
  - intros Hown.
    set (next := reserved_info.mk (wrap64 (producer_index (pool w) + 1)) 1).
    assert (Hp1 : pool_shape (set_reserved next (pool w)))
      by (apply pool_shape_set_reserved; [done | apply wrap64_range]).
    exists (set_reserved next (pool w)), (producer_index (pool w)).
    eexists _, (produced obj (pool w)).
    split; [by apply reserve_one|].
    split; [by apply (shape_store_free _ Hp1)|].
    split.
    { unfold publish. rewrite shape_store_control; [done|].
      apply pool_shape_set_free_objects; [done | by rewrite length_insert]. }
    split; [by apply (free_to_ring sizeof_T)|]. split; [done|].
    split; [rewrite free_ptr_at_produced by done; by case_decide|].
    split; [rewrite slot_at_produced by done; by case_decide|].
    apply (ring_entries_produced sizeof_T); [done | apply (inv_cursors _ _ Hinv) | | lia].
    by apply (contract_room sizeof_T w out Hc obj).
  - intros Hnot. split; [auto|].
    rewrite (free_to_heap w obj Hnot). unfold operator_delete.
    destruct (Z.eqb_spec obj 0); [done|]. by rewrite decide_True by auto.
Qed.

Lemma free_dispatches_on_address_witness :
  reachable 8 2 3 exhausted_world exhausted_outstanding
  ∧ 2 + Z.of_nat 3 + 1 < 2 ^ 64
  ∧ 1008 ∈ exhausted_outstanding ∧ 5000 ∈ exhausted_outstanding
  ∧ pool_owned (pool exhausted_world) 1008
  ∧ ¬ pool_owned (pool exhausted_world) 5000
  ∧ (∃ p3, free 1008 exhausted_world = Ok (mkWorld p3 [5000])
           ∧ ring_entries p3 = [1008])
  ∧ free 5000 exhausted_world = Ok (mkWorld (pool exhausted_world) []).
Proof.
  assert (H1008 : 1008 ∈ exhausted_outstanding) by (right; left).
  assert (H5000 : 5000 ∈ exhausted_outstanding) by left.
  assert (Hown : pool_owned (pool exhausted_world) 1008) by (unfold pool_owned; cbn; lia).
  assert (Hnot : ¬ pool_owned (pool exhausted_world) 5000) by (unfold pool_owned; cbn; lia).
  split; [exact exhausted_world_reachable|]. split; [lia|].
  do 4 (split; [done|]). split.
  - destruct (free_dispatches_on_address 8 2 3 exhausted_world exhausted_outstanding 1008
                exhausted_world_reachable ltac:(lia) H1008) as (_ & Hring & _).
    destruct (Hring Hown) as (p1 & index & p2 & p3 & _ & _ & _ & Hfree & _ & _ & _ & Hentries).
    exists p3. split; [exact Hfree | exact Hentries].
  - destruct (free_dispatches_on_address 8 2 3 exhausted_world exhausted_outstanding 5000
                exhausted_world_reachable ltac:(lia) H5000) as (_ & _ & Hheap).
    destruct (Hheap Hnot) as [_ Hfree]. exact Hfree.
Defined.

(** ** C7: every pool object exactly once *)

(** C7.  The exactly-once invariant fails for calls that overlap, although
    every [free] is given an outstanding pointer.  On a fresh pool of two
    8-byte objects at address 1000, thread 0 claims index 0 in [allocate()]
    (the compare-exchange of line 413) and is overtaken before it reads
    [free_objects_[0]] (line 415): thread 1 allocates [&buffer_[1]] and
    frees it, which stores this pointer in slot 0 under index 2.  Thread 0
    then reads slot 0 and returns [&buffer_[1]], and the next [allocate()]
    of thread 1 claims index 2 and returns [&buffer_[1]] as well.  Both
    threads are back outside the pool: [&buffer_[1]] is outstanding twice
    and [&buffer_[0]] is neither in the ring nor outstanding. *)
Theorem overlapping_calls_hand_out_twice :
  world_new 8 1000 2 = Ok world_of_2
  ∧ ∃ c,
      play 8 overlapping_schedule (mkConfig world_of_2 [idle; idle] []) = Some c
      ∧ frames c = [idle; idle]
      ∧ outstanding c = [element 8 1000 1; element 8 1000 1]
      ∧ ¬ NoDup (outstanding c)
      ∧ ring_entries (pool (shared c)) = []
      ∧ count_occ Z.eq_dec (ring_entries (pool (shared c)) ++ outstanding c)
          (element 8 1000 0) = 0%nat
      ∧ count_occ Z.eq_dec (ring_entries (pool (shared c)) ++ outstanding c)
          (element 8 1000 1) = 2%nat
      ∧ heap (shared c) = [].
Proof.
  split; [vm_compute; reflexivity|].
  eexists. split; [vm_compute; reflexivity|].
  cbn [frames outstanding shared pool heap].
  split; [reflexivity|]. split; [reflexivity|]. split.
  { intros Hnd. apply NoDup_cons in Hnd as [Hnotin _]. apply Hnotin. left. }
  split; [vm_compute; reflexivity|]. split; [vm_compute; reflexivity|].
  split; [vm_compute; reflexivity | reflexivity].
Qed.

(** ** Calls that do not overlap: every pool object exactly once *)

(** X16.  When the calls are made one after the other (no two calls overlap
    in time), the exactly-once invariant holds: after the construction of a
    pool of capacity [size] and any such calls that respect the contract of
    [free], every object [&buffer_[k]], [k < size], occurs exactly once in
    the list of the published ring entries followed by the outstanding
    results of [allocate]; every ring entry is published under its absolute
    index; and no address is outstanding twice. *)
Theorem pool_objects_exactly_once
    (sizeof_T size : Z) (n : nat) (w : world) (out : list Z) :
  reachable sizeof_T size n w out →
  size + Z.of_nat n < 2 ^ 64 →
  (∀ k, 0 ≤ k < size →
     count_occ Z.eq_dec (ring_entries (pool w) ++ out)
       (element sizeof_T (buffer_ (pool w)) k) = 1%nat)
  ∧ (∀ j, consumed_ (pool w) ≤ j < producer_index (pool w) →
       slot_at (pool w) j = slot.mk j 1)
  ∧ NoDup out.
Proof.
  intros Hreach Hword.
  destruct (reachable_inv _ _ _ _ _ Hreach Hword) as (Hc & Hsize & Hidx).
  pose proof (cinv_pool _ _ _ Hc) as Hinv.
  pose proof (contract_all_NoDup _ _ _ Hc) as Hnd.
  split; [|split].
  - intros k Hk. apply count_occ_NoDup; [done|].
    rewrite (cinv_perm _ _ _ Hc). apply elem_of_app. left.
    apply storage_element. lia.
  - intros j Hj. apply (published_in_lap sizeof_T); [done | done | apply Hc].
  - by apply NoDup_app in Hnd as (_ & _ & ?).
Qed.

Lemma pool_objects_exactly_once_witness :
  reachable 8 2 3 exhausted_world exhausted_outstanding
  ∧ 2 + Z.of_nat 3 < 2 ^ 64
  ∧ count_occ Z.eq_dec (ring_entries (pool exhausted_world) ++ exhausted_outstanding)
      (element 8 1000 1) = 1%nat
  ∧ NoDup exhausted_outstanding.
Proof.
  split; [exact exhausted_world_reachable|]. split; [lia|].
  destruct (pool_objects_exactly_once 8 2 3 exhausted_world exhausted_outstanding
              exhausted_world_reachable ltac:(lia)) as (Hcount & _ & Hnd).
  split; [|exact Hnd]. apply (Hcount 1). lia.
Defined.

(** ** The guards of the consumption protocol in reachable states *)

(** In every state that the public interface reaches, the record under the
    consumer is published and not ahead of the producer: neither the reset
    check (step 2) nor the sentinel test (step 3) of [consume] fires. *)
Lemma runs_to_guards sizeof_T buffer size fuel ops w :
  runs_to sizeof_T buffer size fuel ops w →
  ¬ reset_detected (pool w) ∧ stored_index (pool w) ≠ UINT64_MAX.
Proof.
  intros Hrun. destruct (runs_to_inv _ _ _ _ _ _ Hrun) as [Hinv _].
  split; [by apply (inv_no_reset sizeof_T) | by apply (inv_published sizeof_T)].
Qed.

(** The same holds when the protocol is used with wider reservations:
    construction publishes every slot, and [reserve], [publish] and
    [consume] keep every slot published and behind the producer. *)

Lemma slot_at_store p x y s :
  pool_shape p →
  slot_at (set_control (<[Z.to_nat (x mod size_ p) := s]> (control_ p)) p) y
  = if decide (y mod size_ p = x mod size_ p) then s else slot_at p y.
Proof.
  intros Hp. unfold slot_at. cbn [control_ mask_ set_control]. rewrite (shape_land p Hp).
  pose proof (shape_slot_range p Hp x). pose proof (shape_slot_range p Hp y).
  case_decide as Heq.
  - rewrite Heq. apply list_lookup_total_insert_eq. rewrite (shape_control p Hp). lia.
  - apply list_lookup_total_insert_ne. lia.
Qed.

Lemma slots_published_guards p :
  pool_shape p → slots_published p →
  ¬ reset_detected p ∧ stored_index p ≠ UINT64_MAX.
Proof.
  intros Hp Hpub.
  destruct (Hpub _ (shape_slot_range p Hp (consumed_ p))) as [Hrange Hle].
  assert (Heq : slot_at p (consumed_ p mod size_ p) = slot_at p (consumed_ p)).
  { unfold slot_at. rewrite !(shape_land p Hp).
    pose proof (shape_size_bounds p Hp). by rewrite Z.mod_mod by lia. }
  rewrite Heq in *. fold (stored_index p) in *.
  split; [intros [_ Hlt]; lia | lia].
Qed.

Lemma full_pool_published sizeof_T buffer k :
  0 ≤ k ≤ 31 → slots_published (full_pool sizeof_T buffer (2 ^ k)).
Proof.
  intros Hk i Hi. pose proof (pow2_bounds k Hk).
  destruct (construction_slots sizeof_T buffer k i Hk Hi) as [-> _].
  unfold UINT64_MAX, producer_index. cbn in *. lia.
Qed.

Lemma reserve_published p n p' index :
  pool_shape p → slots_published p → 0 ≤ n ≤ size_ p →
  producer_index p + size_ p + n < UINT64_MAX →
  reserve n p = Ok (p', index) →
  pool_shape p' ∧ slots_published p'
  ∧ 0 ≤ index < UINT64_MAX ∧ index ≤ producer_index p'.
Proof.
  intros Hp Hpub Hn Hword Hres.
  pose proof (shape_reserved p Hp) as Hrange.
  pose proof (shape_size_bounds p Hp) as Hsize.
  pose proof (shape_slot_range p Hp (producer_index p)) as Hidx.
  unfold UINT64_MAX in *.
  destruct (Z_le_gt_dec (producer_index p mod size_ p + n) (size_ p)) as [Hfit|Hwrap].
  - rewrite reserve_straight in Hres by done. injection Hres as <- <-.
    rewrite wrap64_small by lia.
    split; [apply pool_shape_set_reserved; [done | cbn; lia]|].
    split; [|unfold producer_index; cbn; fold (producer_index p); lia].
    intros i Hi. destruct (Hpub i Hi) as [H1 H2].
    change (slot_at (set_reserved _ p) i) with (slot_at p i).
    unfold producer_index in *. cbn. lia.
  - rewrite reserve_wrapped in Hres by (done || lia). injection Hres as <- <-.
    rewrite !wrap64_small by (rewrite ?wrap64_small; lia).
    set (returned := producer_index p + (size_ p - producer_index p mod size_ p)).
    split.
    { apply pool_shape_set_control; [|by rewrite length_insert].
      apply pool_shape_set_reserved; [done | cbn; lia]. }
    split; [|unfold producer_index; cbn; lia].
    intros i Hi. cbn [size_ set_control set_reserved] in Hi.
    change (slot_at (set_control ?l (set_reserved _ p)) i) with (slot_at (set_control l p) i).
    rewrite slot_at_store by done.
    change (producer_index (set_control _ (set_reserved ?r p)))
      with (reserved_info.index_ r).
    destruct (Hpub i Hi). unfold UINT64_MAX in *.
    case_decide; cbn [slot.data_index reserved_info.index_]; lia.
Qed.

Lemma publish_published p index n p' :
  pool_shape p → slots_published p →
  0 ≤ index < UINT64_MAX → index ≤ producer_index p →
  publish index n p = Ok p' →
  pool_shape p' ∧ slots_published p'.
Proof.
  intros Hp Hpub Hrange Hle Hres. unfold publish in Hres.
  rewrite shape_store_control in Hres by done. injection Hres as <-.
  split; [apply pool_shape_set_control; [done | by rewrite length_insert]|].
  intros i Hi. rewrite slot_at_store by done.
  change (producer_index (set_control _ p)) with (producer_index p).
  case_decide; cbn; [lia | by apply Hpub].
Qed.

Lemma consume_step_frame p it :
  pool_shape p → slots_published p →
  consume_step p = Ok it →
  ∃ c, 0 ≤ c < 2 ^ 64
       ∧ (it = Continue (set_consumed c p) ∨ ∃ r, it = Return (set_consumed c p) r).
Proof.
  intros Hp Hpub. rewrite consume_step_unfold by done.
  destruct (slots_published_guards p Hp Hpub) as [_ Hs].
  pose proof (shape_consumed p Hp) as Hc.
  destruct (Hpub _ (shape_slot_range p Hp (consumed_ p))) as [Hrange _].
  assert (Heq : slot_at p (consumed_ p mod size_ p) = slot_at p (consumed_ p)).
  { unfold slot_at. rewrite !(shape_land p Hp).
    pose proof (shape_size_bounds p Hp). by rewrite Z.mod_mod by lia. }
  rewrite Heq in Hrange. fold (stored_index p) in Hrange. unfold UINT64_MAX in *.
  repeat case_match; intros [= <-].
  - exists 0. split; [lia | by left].
  - exists (consumed_ p). split; [done|]. right. exists (0, 0). by destruct p.
  - exists (stored_index p). split; [lia | by left].
  - eexists. split; [apply wrap64_range|]. right. by eexists.
Qed.

Lemma consume_published fuel : ∀ p p' r,
  pool_shape p → slots_published p →
  consume fuel p = Ok (p', r) →
  pool_shape p' ∧ slots_published p'.
Proof.
  induction fuel as [|fuel IH]; intros p p' r Hp Hpub Hres; [done|].
  cbn [consume] in Hres.
  destruct (consume_step p) as [it| | | |] eqn:Hstep; try done.
  destruct (consume_step_frame p it Hp Hpub Hstep) as (c & Hc & [->|[r' ->]]);
    cbn [mbind outcome_bind] in Hres.
  - apply IH in Hres; [done | by apply pool_shape_set_consumed | done].
  - injection Hres as <- <-. split; [by apply pool_shape_set_consumed | done].
Qed.

(** ** Contract-respecting runs never get stuck *)

(** In a state reached under the contract every further call that the
    contract allows returns: [allocate] always, [free] for every outstanding
    pointer. *)
Lemma reachable_progress sizeof_T size n w out :
  reachable sizeof_T size n w out →
  size + Z.of_nat n + 1 < 2 ^ 64 →
  (∀ fuel a, ∃ w' obj, allocate (S fuel) a w = Ok (w', obj))
  ∧ (∀ obj, obj ∈ out → ∃ w', free obj w = Ok w').
Proof.
  intros Hreach Hword.
  destruct (reachable_inv _ _ _ _ _ Hreach ltac:(lia)) as (Hc & Hsize & Hidx).
  pose proof (cinv_pool _ _ _ Hc) as Hinv. split.
  - intros fuel a.
    destruct (Z_lt_le_dec (stored_index (pool w)) (consumed_ (pool w))) as [Hlt|Hge].
    + eexists _, _. by apply (allocate_from_heap sizeof_T).
    + destruct (allocate_from_ring sizeof_T w Hinv fuel a Hge) as [Halloc _].
      eexists _, _. exact Halloc.
  - intros obj Hobj.
    destruct (contract_outstanding _ _ _ Hc obj Hobj) as (Hnz & _ & Hheap).
    destruct (decide (pool_owned (pool w) obj)) as [Hown|Hnot].
    + eexists. by apply (free_to_ring sizeof_T).
    + exists (mkWorld (pool w) (remove_one obj (heap w))).
      rewrite (free_to_heap w obj Hnot). unfold operator_delete.
      destruct (Z.eqb_spec obj 0); [done|]. by rewrite decide_True by auto.
Qed.

(** * Further properties of the code *)

(** ** [reset] *)

Section reseeding.
Context (sizeof_T : Z) (p0 : ObjectPool) (Hp0 : pool_shape p0).

Lemma reseeding_round i p :
  pool_shape p → reseeding sizeof_T p0 i p → 0 ≤ i < size_ p0 →
  reseeding sizeof_T p0 (i + 1) (produced (element sizeof_T (buffer_ p0) i) p).
Proof.
  intros Hp Hs Hi.
  pose proof (reseeding_size _ _ _ _ Hs) as Hsz.
  pose proof (reseeding_index _ _ _ _ Hs) as Hidx.
  pose proof (shape_size_bounds p0 Hp0) as Hbound.
  assert (Hslot : producer_index p mod size_ p = i)
    by (rewrite Hidx, Hsz; apply Z.mod_small; lia).
  split; try (by destruct Hs).
  - unfold produced, producer_index. cbn. fold (producer_index p).
    rewrite Hidx. apply wrap64_small. lia.
  - intros _. unfold produced. cbn. fold (producer_index p).
    rewrite Hidx, wrap64_small by lia. done.
  - intros j Hj. unfold produced. cbn [control_ free_objects_ set_control
      set_free_objects set_reserved]. rewrite Hslot, Hidx.
    destruct (decide (j = i)) as [->|Hne].
    + rewrite !list_lookup_insert_eq; [done | |].
      * rewrite (shape_free_objects p Hp), Hsz. lia.
      * rewrite (shape_control p Hp), Hsz. lia.
    + rewrite !list_lookup_insert_ne by lia.
      apply (reseeding_done _ _ _ _ Hs). lia.
Qed.

Lemma reseed_spec count : ∀ i p,
  pool_shape p → reseeding sizeof_T p0 i p →
  0 ≤ i → i + Z.of_nat count ≤ size_ p0 →
  ∃ p', seed sizeof_T count i p = Ok p'
        ∧ pool_shape p'
        ∧ reseeding sizeof_T p0 (i + Z.of_nat count) p'.
Proof.
  induction count as [|count IH]; intros i p Hp Hs Hi Hle.
  - exists p. cbn [seed]. by rewrite Z.add_0_r.
  - cbn [seed]. rewrite (reserve_one p Hp).
    cbn [mbind outcome_bind mask_ buffer_ set_reserved].
    rewrite (reseeding_buffer _ _ _ _ Hs).
    pose proof (publish_one p Hp (element sizeof_T (buffer_ p0) i)) as Hpub.
    revert Hpub. destruct (store_free_object _ _ _) as [p1| | | |];
      cbn [mbind outcome_bind]; intros Hpub; try done.
    rewrite Hpub. cbn [mbind outcome_bind]. clear Hpub p1.
    destruct (IH (i + 1) (produced (element sizeof_T (buffer_ p0) i) p))
      as (p' & Hseed & Hp' & Hs'); [by apply pool_shape_produced | | lia | lia |].
    { apply reseeding_round; [done | done | lia]. }
    exists p'. split; [done|]. split; [done|].
    by replace (i + Z.of_nat (S count)) with (i + 1 + Z.of_nat count) by lia.
Qed.
End reseeding.

(** Whatever the cursors, the control records and the ring hold, [reset]
    returns, and leaves the ring full and seeded in the order of the array;
    capacity, array and bounds are kept. *)
Lemma reset_shape sizeof_T p :
  pool_shape p →
  reset sizeof_T p
  = Ok {| reserved_ := reserved_info.mk (size_ p) 1;
          consumed_ := 0;
          size_ := size_ p;
          mask_ := mask_ p;
          buffer_ := buffer_ p;
          lower_bound_ := lower_bound_ p;
          upper_bound_ := upper_bound_ p;
          free_objects_ := element sizeof_T (buffer_ p) <$> seqZ 0 (size_ p);
          control_ := (λ i, slot.mk i 1) <$> seqZ 0 (size_ p) |}.
Proof.
  intros Hp. pose proof (shape_size_bounds p Hp) as Hbound. unfold reset.
  set (p1 := set_reserved reserved_info.fresh
               (set_control (replicate (Z.to_nat (size_ p)) slot.fresh) p)).
  assert (Hp1 : pool_shape p1).
  { apply pool_shape_set_reserved; [|cbn; lia].
    apply pool_shape_set_control; [done|].
    by rewrite length_replicate, (shape_control p Hp). }
  assert (Hs1 : reseeding sizeof_T p 0 p1) by (split; (done || lia)).
  destruct (reseed_spec sizeof_T p Hp (Z.to_nat (size_ p)) 0 p1 Hp1 Hs1)
    as (p' & Hseed & Hp' & Hs'); [lia | lia |].
  change (size_ p1) with (size_ p). cbv zeta.
  fold p1. rewrite Hseed. cbn [mbind outcome_bind noexcept]. f_equal.
  rewrite Z.add_0_l, Z2Nat.id in Hs' by lia.
  pose proof (shape_free_objects p' Hp') as Hfree.
  pose proof (shape_control p' Hp') as Hcontrol.
  destruct Hs' as [Hsz Hmask Hbuf Hcons Hlo Hhi Hidx Hres Hdone].
  specialize (Hres ltac:(lia)).
  destruct p' as [r c sz m b lo hi fo co]. cbn in *. subst.
  unfold set_consumed. cbn. f_equal.
  - apply fmap_seqZ_intro; [done|]. intros j Hj. by apply Hdone.
  - apply fmap_seqZ_intro; [done|]. intros j Hj. by apply Hdone.
Qed.

(** ** What a call changes *)

Lemma call_buffer sizeof_T w fuel o w' :
  pool_inv sizeof_T (pool w) →
  run fuel [o] w = Ok w' →
  buffer_ (pool w') = buffer_ (pool w) ∧ consumed_ (pool w) ≤ consumed_ (pool w').
Proof.
  intros Hinv Hrun. destruct o as [a|obj]; cbn [run] in Hrun.
  - destruct fuel as [|fuel]; [done|].
    destruct (Z_lt_le_dec (stored_index (pool w)) (consumed_ (pool w))) as [Hlt|Hge].
    + rewrite (allocate_from_heap sizeof_T w Hinv fuel a Hlt) in Hrun.
      injection Hrun as <-. cbn. split; [done|lia].
    + destruct (allocate_from_ring sizeof_T w Hinv fuel a Hge) as [Heq _].
      rewrite Heq in Hrun. injection Hrun as <-. cbn. split; [done|lia].
  - destruct (decide (pool_owned (pool w) obj)) as [Hown|Hout].
    + rewrite (free_to_ring sizeof_T w Hinv obj Hown) in Hrun.
      injection Hrun as <-. cbn. split; [done|lia].
    + rewrite (free_to_heap w obj Hout) in Hrun.
      destruct (operator_delete obj (heap w)); try done.
      injection Hrun as <-. cbn. split; [done|lia].
Qed.

Lemma run_cons fuel o ops w :
  run fuel (o :: ops) w = (w' ← run fuel [o] w; run fuel ops w').
Proof.
  destruct o; cbn [run];
    [destruct (allocate _ _ _) as [[]| | | |] | destruct (free _ _)]; done.
Qed.

Lemma run_app fuel ops1 : ∀ ops2 w,
  run fuel (ops1 ++ ops2) w = (w' ← run fuel ops1 w; run fuel ops2 w').
Proof.
  induction ops1 as [|o ops1 IH]; intros ops2 w; [done|].
  cbn [app]. rewrite run_cons, (run_cons fuel o ops1).
  destruct (run fuel [o] w) as [w1| | | |]; cbn [mbind outcome_bind];
    [apply IH | done..].
Qed.

Lemma run_frame sizeof_T fuel ops : ∀ w w',
  pool_inv sizeof_T (pool w) →
  producer_index (pool w) + Z.of_nat (length ops) < 2 ^ 64 →
  run fuel ops w = Ok w' →
  pool_inv sizeof_T (pool w')
  ∧ size_ (pool w') = size_ (pool w)
  ∧ buffer_ (pool w') = buffer_ (pool w)
  ∧ consumed_ (pool w) ≤ consumed_ (pool w')
  ∧ producer_index (pool w) ≤ producer_index (pool w')
      ≤ producer_index (pool w) + Z.of_nat (length ops).
Proof.
  induction ops as [|o ops IH]; intros w w' Hinv Hroom Hrun.
  - cbn [run] in Hrun. injection Hrun as <-. cbn [length].
    split; [done|]. split; [done|]. split; [done|]. lia.
  - cbn [length] in Hroom. rewrite run_cons in Hrun.
    pose proof (call_inv sizeof_T w Hinv fuel o ltac:(lia)) as Hcall.
    destruct (run fuel [o] w) as [w1| | | |] eqn:Hstep; try done.
    cbn [mbind outcome_bind] in Hrun.
    destruct Hcall as (Hinv1 & Hsz1 & Hidx1).
    destruct (call_buffer sizeof_T w fuel o w1 Hinv Hstep) as [Hbuf1 Hcons1].
    destruct (IH w1 w' Hinv1 ltac:(lia) Hrun) as (Hinv2 & Hsz2 & Hbuf2 & Hcons2 & Hidx2).
    split; [done|]. cbn [length].
    split; [congruence|]. split; [congruence|]. lia.
Qed.

(** The array and the producer bound of a reached state. *)
Lemma runs_to_frame sizeof_T buffer size fuel ops w :
  runs_to sizeof_T buffer size fuel ops w →
  pool_inv sizeof_T (pool w)
  ∧ size_ (pool w) = size
  ∧ buffer_ (pool w) = buffer
  ∧ producer_index (pool w) ≤ size + Z.of_nat (length ops).
Proof.
  intros (Hsz & Hbuf & Hrange & Hroom & Hrun).
  unfold world_new in Hrun.
  destruct (ObjectPool_new sizeof_T buffer size) as [p| | | |] eqn:Hnew; try done.
  cbn [mbind outcome_bind] in Hrun.
  destruct (ObjectPool_new_inv _ _ _ _ Hsz Hbuf Hrange Hnew) as [-> Hinv].
  destruct (run_frame sizeof_T fuel ops
              (mkWorld (full_pool sizeof_T buffer size) []) w Hinv
              ltac:(unfold producer_index; cbn; lia) Hrun)
    as (H1 & H2 & H3 & _ & H4).
  unfold producer_index in H4. cbn in H2, H3, H4.
  split; [done|]. split; [done|]. split; [done|]. unfold producer_index. lia.
Qed.

(** X1.  After the construction of a pool and any sequence of calls
    (contract-respecting or not), [reset()] returns and the pool is exactly
    the pool that the constructor built: full ring, seeded in the order of
    the array, both cursors rewound, same capacity, array and bounds. *)
Theorem reset_restores_construction
    (sizeof_T buffer size : Z) (fuel : nat) (ops : list op) (w : world) :
  runs_to sizeof_T buffer size fuel ops w →
  reset sizeof_T (pool w) = Ok (full_pool sizeof_T buffer size)
  ∧ ObjectPool_new sizeof_T buffer size = Ok (full_pool sizeof_T buffer size).
Proof.
  intros Hrun. destruct (runs_to_frame _ _ _ _ _ _ Hrun) as (Hinv & Hsize & Hbuf & _).
  pose proof (inv_shape _ _ Hinv) as Hp.
  split.
  - rewrite (reset_shape sizeof_T (pool w) Hp). unfold full_pool.
    rewrite (inv_lower _ _ Hinv), (inv_upper _ _ Hinv), (shape_mask _ Hp).
    by rewrite Hsize, Hbuf.
  - destruct Hrun as (Hsz & Hb & Hrange & _ & Hrun). unfold world_new in Hrun.
    destruct (ObjectPool_new sizeof_T buffer size) as [p| | | |] eqn:Hnew; try done.
    by destruct (ObjectPool_new_inv _ _ _ _ Hsz Hb Hrange Hnew) as [-> _].
Qed.

Lemma reset_restores_construction_witness :
  runs_to 8 1000 2 1 sample_calls sample_world
  ∧ reset 8 (pool sample_world) = Ok (full_pool 8 1000 2).
Proof.
  split; [exact sample_world_run|].
  exact (proj1 (reset_restores_construction 8 1000 2 1 sample_calls sample_world
                  sample_world_run)).
Defined.

(** X2.  Calls never change the configuration of the pool and never move a
    cursor backwards: after any further calls [size()] is still the
    capacity given to the constructor, the array and the bounds of the
    ownership test are where the constructor put them, and
    [get_read_index()] and the producer index are at least what they
    were. *)
Theorem cursors_only_advance
    (sizeof_T buffer size : Z) (fuel : nat) (ops ops' : list op) (w w' : world) :
  runs_to sizeof_T buffer size fuel ops w →
  size + Z.of_nat (length ops) + Z.of_nat (length ops') < 2 ^ 64 →
  run fuel ops' w = Ok w' →
  ObjectPool_size (pool w') = size
  ∧ mask_ (pool w') = size - 1
  ∧ buffer_ (pool w') = buffer
  ∧ lower_bound_ (pool w') = buffer
  ∧ upper_bound_ (pool w') = buffer + (size - 1) * sizeof_T
  ∧ get_read_index (pool w) ≤ get_read_index (pool w')
  ∧ producer_index (pool w) ≤ producer_index (pool w').
Proof.
  intros Hrun Hword Hrun'.
  destruct (runs_to_frame _ _ _ _ _ _ Hrun) as (Hinv & Hsize & Hbuf & Hidx).
  destruct (run_frame sizeof_T fuel ops' w w' Hinv ltac:(lia) Hrun')
    as (Hinv' & Hsize' & Hbuf' & Hcons & Hprod).
  pose proof (shape_mask _ (inv_shape _ _ Hinv')) as Hmask.
  unfold ObjectPool_size, get_read_index.
  rewrite (inv_lower _ _ Hinv'), (inv_upper _ _ Hinv'), Hmask, Hsize', Hbuf', Hsize, Hbuf.
  unfold element. repeat split; lia.
Qed.

Lemma cursors_only_advance_witness :
  runs_to 8 1000 2 1 sample_calls sample_world
  ∧ 2 + Z.of_nat (length sample_calls) + Z.of_nat (length [op_allocate 6000]) < 2 ^ 64
  ∧ run 1 [op_allocate 6000] sample_world = Ok sample_world_drained
  ∧ ObjectPool_size (pool sample_world_drained) = 2
  ∧ get_read_index (pool sample_world) ≤ get_read_index (pool sample_world_drained).
Proof.
  assert (Hrun : run 1 [op_allocate 6000] sample_world = Ok sample_world_drained)
    by (vm_compute; reflexivity).
  assert (Hword : 2 + Z.of_nat (length sample_calls)
                  + Z.of_nat (length [op_allocate 6000]) < 2 ^ 64) by (cbn; lia).
  split; [exact sample_world_run|]. split; [exact Hword|]. split; [exact Hrun|].
  destruct (cursors_only_advance 8 1000 2 1 sample_calls [op_allocate 6000]
              sample_world sample_world_drained sample_world_run Hword Hrun)
    as (H1 & _ & _ & _ & _ & H2 & _).
  split; [exact H1 | exact H2].
Defined.

(** ** The ring is a queue *)

Lemma set_consumed_twice a b p : set_consumed a (set_consumed b p) = set_consumed a p.
Proof. reflexivity. Qed.

Section lap.
Context (sizeof_T : Z) (w : world).
Context (Hinv : pool_inv sizeof_T (pool w)) (Hlap : within_lap (pool w)).

Local Abbreviation p := (pool w).

(** A ring that is not empty hands out its oldest entry. *)
Lemma allocate_oldest fuel a :
  consumed_ p < producer_index p →
  allocate (S fuel) a w
  = Ok (mkWorld (set_consumed (consumed_ p + 1) p) (heap w), free_ptr_at p (consumed_ p))
  ∧ pool_inv sizeof_T (set_consumed (consumed_ p + 1) p)
  ∧ within_lap (set_consumed (consumed_ p + 1) p)
  ∧ ring_entries p
    = free_ptr_at p (consumed_ p) :: ring_entries (set_consumed (consumed_ p + 1) p).
Proof.
  intros Hlt.
  pose proof (stored_index_in_lap sizeof_T p Hinv Hlt Hlap) as Hstored.
  destruct (allocate_from_ring sizeof_T w Hinv fuel a ltac:(lia)) as [Halloc _].
  pose proof (inv_set_consumed sizeof_T p Hinv ltac:(lia)) as Hinv'.
  rewrite Hstored in Halloc, Hinv'.
  split; [done|]. split; [done|]. split; [|by apply ring_entries_claim].
  unfold within_lap, producer_index in *. cbn. lia.
Qed.

(** An empty ring sends [allocate] to the heap. *)
Lemma allocate_overflow fuel a :
  consumed_ p = producer_index p →
  allocate (S fuel) a w = Ok (mkWorld p (a :: heap w), a)
  ∧ ring_entries p = [].
Proof.
  intros Heq. destruct (inv_current_slot sizeof_T p Hinv) as (_ & Hlt & _).
  split; [apply (allocate_from_heap sizeof_T w Hinv); lia|].
  unfold ring_entries. rewrite seqZ_nil by lia. done.
Qed.
End lap.

Lemma allocate_all_spec sizeof_T fuel fresh : ∀ w,
  pool_inv sizeof_T (pool w) → within_lap (pool w) →
  allocate_all (S fuel) fresh w
  = Ok (mkWorld
          (set_consumed
             (consumed_ (pool w)
              + Z.of_nat (length fresh `min` length (ring_entries (pool w))))
             (pool w))
          (reverse (drop (length (ring_entries (pool w))) fresh) ++ heap w),
        take (length fresh) (ring_entries (pool w))
        ++ drop (length (ring_entries (pool w))) fresh).
Proof.
  induction fresh as [|a fresh IH]; intros w Hinv Hlap.
  - cbn [allocate_all length Nat.min]. rewrite drop_nil, take_0, Z.add_0_r.
    cbn. by destruct w as [[] ?].
  - cbn [allocate_all]. pose proof (inv_cursors _ _ Hinv) as Hle.
    destruct (decide (consumed_ (pool w) < producer_index (pool w))) as [Hlt|Hge].
    + destruct (allocate_oldest sizeof_T w Hinv Hlap fuel a Hlt)
        as (-> & Hinv' & Hlap' & ->).
      cbn [mbind outcome_bind].
      rewrite (IH (mkWorld _ (heap w)) Hinv' Hlap'). cbn [mbind outcome_bind pool heap].
      cbn [length drop take Nat.min app]. rewrite set_consumed_twice.
      cbn [consumed_ set_consumed]. do 3 f_equal. f_equal. lia.
    + destruct (allocate_overflow sizeof_T w Hinv fuel a ltac:(lia)) as [-> Hnil].
      cbn [mbind outcome_bind].
      assert (Hinv' : pool_inv sizeof_T (pool (mkWorld (pool w) (a :: heap w)))) by done.
      rewrite (IH (mkWorld (pool w) (a :: heap w)) Hinv' Hlap).
      cbn [mbind outcome_bind pool heap]. rewrite Hnil.
      cbn [length drop]. rewrite !take_nil, !Nat.min_0_r. cbn [app].
      rewrite reverse_cons, <- app_assoc. done.
Qed.

Lemma ring_entries_drop (p : ObjectPool) (k : nat) :
  consumed_ p + Z.of_nat k ≤ producer_index p →
  ring_entries (set_consumed (consumed_ p + Z.of_nat k) p) = drop k (ring_entries p).
Proof.
  intros Hk. unfold ring_entries. cbn [consumed_ set_consumed].
  change (producer_index (set_consumed _ p)) with (producer_index p).
  change (free_ptr_at (set_consumed ?c p)) with (free_ptr_at p).
  rewrite <- fmap_drop. f_equal.
  replace (producer_index p - consumed_ p)
    with (Z.of_nat k + (producer_index p - (consumed_ p + Z.of_nat k))) by lia.
  rewrite seqZ_app by lia.
  rewrite drop_app_length' by (rewrite length_seqZ; lia). done.
Qed.

Lemma world_of_2_reachable : reachable 8 2 0 world_of_2 [].
Proof. apply (reach_new 8 2 1000); [lia | lia | lia | vm_compute; reflexivity]. Defined.

Lemma drop_min {A} (l : list A) (k : nat) : drop (k `min` length l) l = drop k l.
Proof.
  destruct (decide (k ≤ length l)%nat) as [Hle|Hgt].
  - by rewrite Nat.min_l by done.
  - rewrite Nat.min_r, !drop_ge by lia. done.
Qed.

(** X3.  A pool that has just been constructed with capacity [N = 2^k]
    hands out the objects of its array in order: the results of the first
    [N] calls of [allocate()] are [&buffer_[0]], ..., [&buffer_[N-1]], and
    every later call returns the object that [new T()] creates, which is
    then alive on the heap. *)
Theorem fresh_pool_hands_out_array_in_order
    (sizeof_T buffer k : Z) (fuel : nat) (fresh : list Z) :
  0 < sizeof_T → 0 < buffer → 0 ≤ k ≤ 31 →
  ∃ w',
    (w0 ← world_new sizeof_T buffer (2 ^ k); allocate_all (S fuel) fresh w0)
    = Ok (w', take (length fresh) (element sizeof_T buffer <$> seqZ 0 (2 ^ k))
              ++ drop (Z.to_nat (2 ^ k)) fresh)
    ∧ heap w' = reverse (drop (Z.to_nat (2 ^ k)) fresh)
    ∧ ring_entries (pool w') = drop (length fresh) (element sizeof_T buffer <$> seqZ 0 (2 ^ k)).
Proof.
  intros Hsz Hbuf Hk. pose proof (pow2_bounds k Hk) as Hpow.
  unfold world_new. rewrite ObjectPool_new_power_of_2 by done.
  cbn [mbind outcome_bind].
  set (w0 := mkWorld (full_pool sizeof_T buffer (2 ^ k)) []).
  assert (Hinv : pool_inv sizeof_T (pool w0)) by by apply full_pool_inv.
  assert (Hlap : within_lap (pool w0)) by (unfold within_lap, producer_index; cbn; lia).
  assert (Hring : ring_entries (pool w0) = element sizeof_T buffer <$> seqZ 0 (2 ^ k)).
  { unfold ring_entries, producer_index. cbn. rewrite Z.sub_0_r.
    apply list_fmap_ext. intros i j [-> Hj]%lookup_seqZ.
    by destruct (construction_slots sizeof_T buffer k (0 + Z.of_nat i) Hk ltac:(lia)). }
  assert (Hlen : length (ring_entries (pool w0)) = Z.to_nat (2 ^ k))
    by (rewrite Hring, length_fmap, length_seqZ; done).
  rewrite (allocate_all_spec sizeof_T fuel fresh w0 Hinv Hlap).
  eexists. rewrite Hlen, Hring. split; [done|]. cbn [heap pool].
  split; [by rewrite app_nil_r|].
  rewrite <- Hring, <- Hlen at 1. rewrite ring_entries_drop.
  - apply drop_min.
  - pose proof (Nat.le_min_r (length fresh) (length (ring_entries (pool w0)))).
    rewrite Hlen in *. unfold producer_index. cbn. lia.
Qed.

Lemma fresh_pool_hands_out_array_in_order_witness :
  0 < 8 ∧ 0 < 1000 ∧ 0 ≤ 1 ≤ 31
  ∧ ∃ w', (w0 ← world_new 8 1000 (2 ^ 1); allocate_all 1 [5000; 5008; 5016] w0)
          = Ok (w', [1000; 1008; 5016])
          ∧ heap w' = [5016].
Proof.
  split; [lia|]. split; [lia|]. split; [lia|].
  destruct (fresh_pool_hands_out_array_in_order 8 1000 1 0 [5000; 5008; 5016])
    as (w' & Hrun & Hheap & _); [lia | lia | lia |].
  exists w'. split; [exact Hrun | exact Hheap].
Defined.

(** X4.  The ring is a queue for [allocate]: in every state reached under
    the contract, a sequence of allocations returns the ring entries from the
    oldest on, and once the ring is empty the objects that [new T()]
    creates; the producer cursor does not move. *)
Theorem allocations_drain_the_ring
    (sizeof_T size : Z) (n : nat) (w : world) (out : list Z)
    (fuel : nat) (fresh : list Z) :
  reachable sizeof_T size n w out →
  size + Z.of_nat n < 2 ^ 64 →
  ∃ w',
    allocate_all (S fuel) fresh w
    = Ok (w', take (length fresh) (ring_entries (pool w))
              ++ drop (length (ring_entries (pool w))) fresh)
    ∧ ring_entries (pool w') = drop (length fresh) (ring_entries (pool w))
    ∧ heap w' = reverse (drop (length (ring_entries (pool w))) fresh) ++ heap w
    ∧ producer_index (pool w') = producer_index (pool w).
Proof.
  intros Hreach Hword.
  destruct (reachable_inv _ _ _ _ _ Hreach Hword) as (Hc & _ & _).
  pose proof (cinv_pool _ _ _ Hc) as Hinv. pose proof (cinv_level _ _ _ Hc) as Hlap.
  rewrite (allocate_all_spec sizeof_T fuel fresh w Hinv Hlap).
  eexists. split; [done|]. cbn [pool heap]. split; [|done].
  rewrite ring_entries_drop; [apply drop_min|].
  pose proof (Nat.le_min_r (length fresh) (length (ring_entries (pool w)))) as Hmin.
  rewrite ring_entries_length in Hmin at 2.
  pose proof (inv_cursors _ _ Hinv). lia.
Qed.

Lemma allocations_drain_the_ring_witness :
  reachable 8 2 0 world_of_2 [] ∧ 2 + Z.of_nat 0 < 2 ^ 64
  ∧ ∃ w', allocate_all 1 [5000; 5008; 5016] world_of_2 = Ok (w', [1000; 1008; 5016])
          ∧ ring_entries (pool w') = [].
Proof.
  split; [exact world_of_2_reachable|]. split; [lia|].
  destruct (allocations_drain_the_ring 8 2 0 world_of_2 [] 0 [5000; 5008; 5016]
              world_of_2_reachable ltac:(lia)) as (w' & Hrun & Hring & _).
  exists w'. split; [exact Hrun | exact Hring].
Defined.

Lemma pool_inv_set_consumed sizeof_T p c :
  pool_inv sizeof_T p → consumed_ p ≤ c ≤ producer_index p →
  pool_inv sizeof_T (set_consumed c p).
Proof.
  intros Hinv Hc. pose proof (inv_shape _ _ Hinv) as Hp.
  pose proof (shape_consumed p Hp). pose proof (shape_reserved p Hp).
  destruct Hinv. split; try done.
  - apply pool_shape_set_consumed; [done | lia].
  - cbn. unfold producer_index in *. cbn. lia.
Qed.

Lemma free_all_spec sizeof_T objs : ∀ w,
  pool_inv sizeof_T (pool w) →
  (∀ x, x ∈ objs → pool_owned (pool w) x) →
  producer_index (pool w) - consumed_ (pool w) + Z.of_nat (length objs) ≤ size_ (pool w) →
  producer_index (pool w) + Z.of_nat (length objs) < 2 ^ 64 →
  ∃ p', free_all objs w = Ok (mkWorld p' (heap w))
        ∧ pool_inv sizeof_T p'
        ∧ ring_entries p' = ring_entries (pool w) ++ objs
        ∧ consumed_ p' = consumed_ (pool w)
        ∧ producer_index p' = producer_index (pool w) + Z.of_nat (length objs)
        ∧ size_ p' = size_ (pool w)
        ∧ lower_bound_ p' = lower_bound_ (pool w)
        ∧ upper_bound_ p' = upper_bound_ (pool w).
Proof.
  induction objs as [|obj objs IH]; intros w Hinv Hown Hroom Hword.
  - exists (pool w). cbn [free_all length]. rewrite app_nil_r, Z.add_0_r.
    split; [by destruct w|done].
  - cbn [length] in Hroom, Hword. cbn [free_all].
    assert (Hobj : pool_owned (pool w) obj) by (apply Hown; left).
    pose proof (inv_cursors _ _ Hinv) as Hle.
    pose proof (shape_reserved _ (inv_shape _ _ Hinv)) as Hrange.
    rewrite (free_to_ring sizeof_T w Hinv obj Hobj). cbn [mbind outcome_bind].
    assert (Hidx : producer_index (produced obj (pool w)) = producer_index (pool w) + 1).
    { unfold produced, producer_index. cbn. fold (producer_index (pool w)).
      apply wrap64_small. lia. }
    destruct (IH (mkWorld (produced obj (pool w)) (heap w)))
      as (p' & Hfree & Hinv' & Hring & Hcons & Hprod & Hsize & Hlo & Hhi).
    + cbn [pool]. apply inv_produced; [done | done | lia].
    + intros x Hx. cbn [pool]. apply (Hown x). by right.
    + cbn [pool]. rewrite Hidx.
      change (consumed_ (produced obj (pool w))) with (consumed_ (pool w)).
      change (size_ (produced obj (pool w))) with (size_ (pool w)). lia.
    + cbn [pool]. rewrite Hidx. lia.
    + exists p'. cbn [pool heap] in *. split; [done|]. split; [done|].
      rewrite Hring, (ring_entries_produced sizeof_T (pool w) Hinv) by lia.
      rewrite <- app_assoc. cbn [app]. split; [done|]. split; [done|].
      rewrite Hprod, Hidx. cbn [length]. split; [lia|]. done.
Qed.

(** X5.  The ring is a queue for [free]: after the construction of a pool
    and any calls, releasing pointers that pass the ownership test and fit
    into the ring appends them to the ring in the order of the calls;
    [free] does not look at the pointers beyond the address test, so a
    pointer given twice is queued twice.  Consumer cursor and heap are not
    touched, the producer cursor advances by the number of pointers. *)
Theorem releases_queue_in_order
    (sizeof_T buffer size : Z) (fuel : nat) (ops : list op) (w : world)
    (objs : list Z) :
  runs_to sizeof_T buffer size fuel ops w →
  (∀ x, x ∈ objs → pool_owned (pool w) x) →
  producer_index (pool w) - consumed_ (pool w) + Z.of_nat (length objs) ≤ size →
  size + Z.of_nat (length ops) + Z.of_nat (length objs) < 2 ^ 64 →
  ∃ w', free_all objs w = Ok w'
        ∧ ring_entries (pool w') = ring_entries (pool w) ++ objs
        ∧ heap w' = heap w
        ∧ get_read_index (pool w') = get_read_index (pool w)
        ∧ producer_index (pool w') = producer_index (pool w) + Z.of_nat (length objs).
Proof.
  intros Hrun Hown Hroom Hword.
  destruct (runs_to_frame _ _ _ _ _ _ Hrun) as (Hinv & Hsize & _ & Hidx).
  destruct (free_all_spec sizeof_T objs w Hinv Hown ltac:(lia) ltac:(lia))
    as (p' & Hfree & _ & Hring & Hcons & Hprod & _).
  exists (mkWorld p' (heap w)). by cbn.
Qed.

Lemma releases_queue_in_order_witness :
  runs_to 8 1000 2 1 [op_allocate 5000; op_allocate 5000; op_allocate 5000] exhausted_world
  ∧ (∀ x, x ∈ [1008; 1000] → pool_owned (pool exhausted_world) x)
  ∧ producer_index (pool exhausted_world) - consumed_ (pool exhausted_world)
    + Z.of_nat (length [1008; 1000]) ≤ 2
  ∧ ∃ w', free_all [1008; 1000] exhausted_world = Ok w'
          ∧ ring_entries (pool w') = [1008; 1000].
Proof.
  assert (Hrun : runs_to 8 1000 2 1 [op_allocate 5000; op_allocate 5000; op_allocate 5000]
                   exhausted_world) by (repeat split; try (cbn; lia)).
  assert (Hown : ∀ x, x ∈ [1008; 1000] → pool_owned (pool exhausted_world) x).
  { intros x Hx. unfold pool_owned. cbn.
    apply elem_of_cons in Hx as [->|Hx]; [lia|].
    apply elem_of_cons in Hx as [->|Hx]; [lia|]. by apply elem_of_nil in Hx. }
  split; [exact Hrun|]. split; [exact Hown|]. split; [cbn; lia|].
  destruct (releases_queue_in_order 8 1000 2 1 _ exhausted_world [1008; 1000]
              Hrun Hown ltac:(cbn; lia) ltac:(cbn; lia)) as (w' & Hfree & Hring & _).
  exists w'. split; [exact Hfree | exact Hring].
Defined.

(** X6.  Allocating [k] pointers that the ring holds and releasing them in
    the order in which they were obtained rotates the ring: the other
    entries move to the front and the [k] pointers follow them.  Both
    cursors have advanced by [k], the heap is untouched, and the ring holds
    the same pointers as before; for [k] the length of the ring it is the
    ring it was. *)
Theorem allocate_then_free_rotates_the_ring
    (sizeof_T size : Z) (n : nat) (w : world) (out : list Z)
    (fuel : nat) (fresh : list Z) :
  reachable sizeof_T size n w out →
  size + Z.of_nat n + Z.of_nat (length fresh) < 2 ^ 64 →
  (length fresh ≤ length (ring_entries (pool w)))%nat →
  ∃ w1 w2,
    allocate_all (S fuel) fresh w = Ok (w1, take (length fresh) (ring_entries (pool w)))
    ∧ free_all (take (length fresh) (ring_entries (pool w))) w1 = Ok w2
    ∧ ring_entries (pool w2)
      = drop (length fresh) (ring_entries (pool w))
        ++ take (length fresh) (ring_entries (pool w))
    ∧ ring_entries (pool w2) ≡ₚ ring_entries (pool w)
    ∧ heap w2 = heap w
    ∧ get_read_index (pool w2) = get_read_index (pool w) + Z.of_nat (length fresh)
    ∧ producer_index (pool w2) = producer_index (pool w) + Z.of_nat (length fresh).
Proof.
  intros Hreach Hword Hk.
  destruct (reachable_inv _ _ _ _ _ Hreach ltac:(lia)) as (Hc & Hsize & Hidx).
  pose proof (cinv_pool _ _ _ Hc) as Hinv. pose proof (cinv_level _ _ _ Hc) as Hlap.
  pose proof (inv_cursors _ _ Hinv) as Hle.
  set (ring := ring_entries (pool w)) in *. set (k := length fresh) in *.
  assert (Hlen : length ring = Z.to_nat (producer_index (pool w) - consumed_ (pool w)))
    by apply ring_entries_length.
  pose proof (allocate_all_spec sizeof_T fuel fresh w Hinv Hlap) as Halloc.
  fold ring k in Halloc.
  rewrite Nat.min_l, drop_ge, app_nil_r in Halloc by done.
  set (p1 := set_consumed (consumed_ (pool w) + Z.of_nat k) (pool w)) in *.
  assert (Hinv1 : pool_inv sizeof_T p1) by (apply pool_inv_set_consumed; [done | lia]).
  assert (Hring1 : ring_entries p1 = drop k ring) by (apply ring_entries_drop; lia).
  destruct (free_all_spec sizeof_T (take k ring) (mkWorld p1 (heap w)) Hinv1)
    as (p2 & Hfree & _ & Hring2 & Hcons & Hprod & _).
  - intros x Hx%elem_of_take. destruct Hx as (i & Hx & _).
    apply (ring_entries_owned sizeof_T (pool w) Hinv), list_elem_of_lookup. eauto.
  - cbn [pool]. rewrite length_take, Nat.min_l by done.
    unfold within_lap in Hlap. unfold p1, producer_index in *. cbn. lia.
  - cbn [pool]. rewrite length_take, Nat.min_l by done.
    unfold p1, producer_index in *. cbn. lia.
  - cbn [pool heap] in *. rewrite length_take, Nat.min_l in Hprod by done.
    exists (mkWorld p1 (reverse [] ++ heap w)), (mkWorld p2 (heap w)).
    split; [exact Halloc|]. split; [exact Hfree|]. cbn [pool heap].
    rewrite Hring2, Hring1. split; [done|].
    split; [by rewrite Permutation_app_comm, take_drop|].
    unfold get_read_index. rewrite Hcons, Hprod. done.
Qed.

Lemma allocate_then_free_rotates_the_ring_witness :
  reachable 8 2 0 world_of_2 []
  ∧ 2 + Z.of_nat 0 + Z.of_nat (length [5000]) < 2 ^ 64
  ∧ (length [5000] ≤ length (ring_entries (pool world_of_2)))%nat
  ∧ ∃ w1 w2, allocate_all 1 [5000] world_of_2 = Ok (w1, [1000])
             ∧ free_all [1000] w1 = Ok w2
             ∧ ring_entries (pool w2) = [1008; 1000].
Proof.
  assert (Hk : (length [5000] ≤ length (ring_entries (pool world_of_2)))%nat)
    by (vm_compute; lia).
  split; [exact world_of_2_reachable|]. split; [cbn; lia|]. split; [exact Hk|].
  destruct (allocate_then_free_rotates_the_ring 8 2 0 world_of_2 [] 0 [5000]
              world_of_2_reachable ltac:(cbn; lia) Hk)
    as (w1 & w2 & Halloc & Hfree & Hring & _).
  exists w1, w2. split; [exact Halloc|]. split; [exact Hfree | exact Hring].
Defined.

(** X12.  A double release is not detected.  After the construction of a
    pool and any calls, when [free] is given the same pool-owned pointer
    twice and the ring has room for two entries, both calls return, and the
    allocations that follow hand out the earlier ring entries and then this
    pointer twice. *)
Theorem double_release_hands_out_twice
    (sizeof_T buffer size : Z) (fuel : nat) (ops : list op) (w : world)
    (obj : Z) (fuel' : nat) (fresh : list Z) :
  runs_to sizeof_T buffer size fuel ops w →
  pool_owned (pool w) obj →
  producer_index (pool w) - consumed_ (pool w) + 2 ≤ size →
  size + Z.of_nat (length ops) + 2 < 2 ^ 64 →
  length fresh = (length (ring_entries (pool w)) + 2)%nat →
  ∃ w1 w2,
    free_all [obj; obj] w = Ok w1
    ∧ allocate_all (S fuel') fresh w1 = Ok (w2, ring_entries (pool w) ++ [obj; obj])
    ∧ heap w2 = heap w.
Proof.
  intros Hrun Hown Hroom Hword Hfresh.
  destruct (runs_to_frame _ _ _ _ _ _ Hrun) as (Hinv & Hsize & _ & Hidx).
  pose proof (inv_cursors _ _ Hinv) as Hle.
  destruct (free_all_spec sizeof_T [obj; obj] w Hinv)
    as (p1 & Hfree & Hinv1 & Hring & Hcons & Hprod & Hsize1 & _).
  - intros x Hx. apply elem_of_cons in Hx as [->|Hx]; [done|].
    apply elem_of_cons in Hx as [->|Hx]; [done|]. by apply elem_of_nil in Hx.
  - cbn [length]. lia.
  - cbn [length]. lia.
  - cbn [length] in Hprod.
    assert (Hlap1 : within_lap (pool (mkWorld p1 (heap w))))
      by (unfold within_lap; cbn [pool]; lia).
    pose proof (allocate_all_spec sizeof_T fuel' fresh (mkWorld p1 (heap w)) Hinv1 Hlap1)
      as Halloc. cbn [pool heap] in Halloc.
    assert (Hlen : length (ring_entries p1) = length fresh)
      by (rewrite Hring, length_app, Hfresh; done).
    rewrite Hlen, Nat.min_id, drop_all, take_ge in Halloc by lia.
    rewrite app_nil_r, Hring in Halloc.
    eexists _, _. split; [exact Hfree|]. split; [exact Halloc|]. done.
Qed.

Lemma double_release_hands_out_twice_witness :
  runs_to 8 1000 2 1 [op_allocate 5000; op_allocate 5000; op_allocate 5000] exhausted_world
  ∧ pool_owned (pool exhausted_world) 1000
  ∧ ∃ w1 w2, free_all [1000; 1000] exhausted_world = Ok w1
             ∧ allocate_all 1 [6000; 6008] w1 = Ok (w2, [1000; 1000]).
Proof.
  assert (Hrun : runs_to 8 1000 2 1 [op_allocate 5000; op_allocate 5000; op_allocate 5000]
                   exhausted_world) by (repeat split; try (cbn; lia)).
  assert (Hown : pool_owned (pool exhausted_world) 1000) by (unfold pool_owned; cbn; lia).
  split; [exact Hrun|]. split; [exact Hown|].
  destruct (double_release_hands_out_twice 8 1000 2 1 _ exhausted_world 1000 0 [6000; 6008]
              Hrun Hown ltac:(cbn; lia) ltac:(cbn; lia) ltac:(reflexivity))
    as (w1 & w2 & Hfree & Halloc & _).
  exists w1, w2. split; [exact Hfree | exact Halloc].
Defined.

(** ** Counting the objects *)

Lemma filter_all {A} (P : A → Prop) `{∀ x, Decision (P x)} (l : list A) :
  (∀ x, x ∈ l → P x) → filter P l = l.
Proof.
  induction l as [|x l IH]; intros Hall; [done|].
  rewrite filter_cons, decide_True by (apply Hall; left).
  f_equal. apply IH. intros y Hy. apply Hall. by right.
Qed.

Lemma filter_none {A} (P : A → Prop) `{∀ x, Decision (P x)} (l : list A) :
  (∀ x, x ∈ l → ¬ P x) → filter P l = [].
Proof.
  induction l as [|x l IH]; intros Hall; [done|].
  rewrite filter_cons, decide_False by (apply Hall; left).
  apply IH. intros y Hy. apply Hall. by right.
Qed.

(** X7.  Nothing is lost and nothing is duplicated when the calls are made
    one after the other (no two calls overlap in time, as in the test
    NoObjectLeakage).  In every state reached in this way under the
    contract, the pool-owned pointers that are outstanding and the ring
    entries together number exactly the capacity, so at most [size] pool
    objects are handed out; the outstanding pointers that fail the
    ownership test are exactly the live heap objects.  When every pointer
    has been released, the heap is empty and the ring is full and holds the
    objects of the array. *)
Theorem pool_objects_are_conserved
    (sizeof_T size : Z) (n : nat) (w : world) (out : list Z) :
  reachable sizeof_T size n w out →
  size + Z.of_nat n < 2 ^ 64 →
  Z.of_nat (length (filter (pool_owned (pool w)) out))
    = size - (producer_index (pool w) - consumed_ (pool w))
  ∧ 0 ≤ producer_index (pool w) - consumed_ (pool w) ≤ size
  ∧ filter (λ x, ¬ pool_owned (pool w) x) out ≡ₚ heap w
  ∧ (out = [] →
     heap w = []
     ∧ producer_index (pool w) - consumed_ (pool w) = size
     ∧ ring_entries (pool w) ≡ₚ storage sizeof_T (pool w)).
Proof.
  intros Hreach Hword.
  destruct (reachable_inv _ _ _ _ _ Hreach Hword) as (Hc & Hsize & _).
  pose proof (cinv_pool _ _ _ Hc) as Hinv.
  pose proof (cinv_perm _ _ _ Hc) as Hperm.
  pose proof (inv_cursors _ _ Hinv) as Hle.
  pose proof (cinv_level _ _ _ Hc) as Hlap.
  assert (Hheap_out : ∀ x, x ∈ heap w → ¬ pool_owned (pool w) x)
    by (intros x Hx; by apply (cinv_heap _ _ _ Hc)).
  assert (Howned : ring_entries (pool w) ++ filter (pool_owned (pool w)) out
                   ≡ₚ storage sizeof_T (pool w)).
  { pose proof (filter_Permutation (pool_owned (pool w)) _ _ Hperm) as Hf.
    rewrite !filter_app in Hf.
    rewrite (filter_all _ (ring_entries (pool w))) in Hf
      by apply (ring_entries_owned sizeof_T (pool w) Hinv).
    rewrite (filter_all _ (storage sizeof_T (pool w))) in Hf
      by apply (storage_owned sizeof_T (pool w) Hinv).
    rewrite (filter_none _ (heap w)) in Hf by done. by rewrite app_nil_r in Hf. }
  assert (Hforeign : filter (λ x, ¬ pool_owned (pool w) x) out ≡ₚ heap w).
  { pose proof (filter_Permutation (λ x, ¬ pool_owned (pool w) x) _ _ Hperm) as Hf.
    rewrite !filter_app in Hf.
    rewrite (filter_none _ (ring_entries (pool w))) in Hf
      by (intros x Hx Hn; by apply Hn, (ring_entries_owned sizeof_T (pool w) Hinv)).
    rewrite (filter_none _ (storage sizeof_T (pool w))) in Hf
      by (intros x Hx Hn; by apply Hn, (storage_owned sizeof_T (pool w) Hinv)).
    rewrite (filter_all _ (heap w)) in Hf by done. done. }
  assert (Hcount : Z.of_nat (length (filter (pool_owned (pool w)) out))
                   = size - (producer_index (pool w) - consumed_ (pool w))).
  { apply Permutation_length in Howned.
    rewrite length_app, ring_entries_length, storage_length in Howned. lia. }
  split; [done|]. split; [unfold within_lap in Hlap; lia|]. split; [done|].
  intros ->. cbn in Hcount, Hforeign, Howned. rewrite app_nil_r in Howned.
  split; [by apply Permutation_nil|]. split; [lia | done].
Qed.

Lemma pool_objects_are_conserved_witness :
  reachable 8 2 3 exhausted_world exhausted_outstanding
  ∧ 2 + Z.of_nat 3 < 2 ^ 64
  ∧ Z.of_nat (length (filter (pool_owned (pool exhausted_world)) exhausted_outstanding))
    = 2 - (producer_index (pool exhausted_world) - consumed_ (pool exhausted_world))
  ∧ filter (λ x, ¬ pool_owned (pool exhausted_world) x) exhausted_outstanding
    ≡ₚ heap exhausted_world.
Proof.
  split; [exact exhausted_world_reachable|]. split; [lia|].
  destruct (pool_objects_are_conserved 8 2 3 exhausted_world exhausted_outstanding
              exhausted_world_reachable ltac:(lia)) as (Hcount & _ & Hheap & _).
  split; [exact Hcount | exact Hheap].
Defined.

(** X8.  Closure and alignment.  In every state reached under the contract,
    an outstanding pointer that passes the ownership test of [free] is the
    address of an element of the array, [&buffer_[k]] with [k < size]; if
    the array starts at a multiple of [align] and [sizeof(T)] is a multiple
    of [align], so is the pointer.  An outstanding pointer that fails the
    test is a live heap object. *)
Theorem outstanding_pointers_are_elements
    (sizeof_T size : Z) (n : nat) (w : world) (out : list Z) (obj : Z) :
  reachable sizeof_T size n w out →
  size + Z.of_nat n < 2 ^ 64 →
  obj ∈ out →
  (pool_owned (pool w) obj →
   (∃ k, 0 ≤ k < size ∧ obj = element sizeof_T (buffer_ (pool w)) k)
   ∧ ∀ align, (align | buffer_ (pool w)) → (align | sizeof_T) → (align | obj))
  ∧ (¬ pool_owned (pool w) obj → obj ∈ heap w).
Proof.
  intros Hreach Hword Hobj.
  destruct (reachable_inv _ _ _ _ _ Hreach Hword) as (Hc & Hsize & _).
  destruct (contract_outstanding _ _ _ Hc obj Hobj) as (_ & Hpool & Hheap).
  split; [|done]. intros Hown. destruct (Hpool Hown) as [Hstorage _].
  unfold storage in Hstorage. apply list_elem_of_fmap in Hstorage as (k & -> & Hk).
  apply elem_of_seqZ in Hk. split.
  - exists k. split; [lia | done].
  - intros align Hbuf Hsz. unfold element.
    apply Z.divide_add_r; [done|]. by apply Z.divide_mul_r.
Qed.

Lemma outstanding_pointers_are_elements_witness :
  reachable 8 2 3 exhausted_world exhausted_outstanding
  ∧ 2 + Z.of_nat 3 < 2 ^ 64
  ∧ 1008 ∈ exhausted_outstanding
  ∧ pool_owned (pool exhausted_world) 1008
  ∧ (∃ k, 0 ≤ k < 2 ∧ 1008 = element 8 1000 k)
  ∧ (8 | 1008).
Proof.
  assert (H1008 : 1008 ∈ exhausted_outstanding) by (right; left).
  assert (Hown : pool_owned (pool exhausted_world) 1008) by (unfold pool_owned; cbn; lia).
  split; [exact exhausted_world_reachable|]. split; [lia|].
  split; [exact H1008|]. split; [exact Hown|].
  destruct (outstanding_pointers_are_elements 8 2 3 exhausted_world exhausted_outstanding
              1008 exhausted_world_reachable ltac:(lia) H1008) as [Hpool _].
  destruct (Hpool Hown) as [Helem Halign]. split; [exact Helem|].
  apply Halign; [by exists 125 | by exists 1].
Defined.

(** ** Reservations *)

Lemma reserve_result p n :
  pool_shape p → 0 ≤ n ≤ size_ p →
  producer_index p + size_ p + n < 2 ^ 64 →
  ∃ p' index,
    reserve n p = Ok (p', index)
    ∧ pool_shape p'
    ∧ size_ p' = size_ p
    ∧ consumed_ p' = consumed_ p
    ∧ free_objects_ p' = free_objects_ p
    ∧ producer_index p ≤ index < producer_index p + size_ p
    ∧ index mod size_ p + n ≤ size_ p
    ∧ producer_index p' = index + n
    ∧ reserved_info.size_ (reserved_ p') = n.
Proof.
  intros Hp Hn Hword.
  pose proof (shape_reserved p Hp) as Hrange.
  pose proof (shape_size_bounds p Hp) as Hsize.
  pose proof (shape_slot_range p Hp (producer_index p)) as Hidx.
  destruct (Z_le_gt_dec (producer_index p mod size_ p + n) (size_ p)) as [Hfit|Hwrap].
  - eexists _, _. split; [by apply reserve_straight|].
    rewrite wrap64_small by lia.
    split; [apply pool_shape_set_reserved; [done | cbn; lia]|].
    unfold producer_index. cbn. fold (producer_index p). repeat split; (done || lia).
  - eexists _, _. split; [apply reserve_wrapped; (done || lia)|].
    pose proof (reserve_wrapped_aligned p Hp) as Haligned.
    rewrite (wrap64_small (producer_index p + _)) in * by lia.
    rewrite wrap64_small by lia. rewrite Haligned.
    split.
    { apply pool_shape_set_control; [|by rewrite length_insert].
      apply pool_shape_set_reserved; [done | cbn; lia]. }
    unfold producer_index. cbn. fold (producer_index p). repeat split; (done || lia).
Qed.

(** X9.  Two reservations in a row succeed whatever the consumer has
    consumed ([reserve] does not look at the consumer cursor) and return
    ascending, disjoint ranges of absolute indices, none of which straddles
    the end of the ring; the producer word ends at the end of the second
    range, with its width. *)
Theorem consecutive_reservations_are_disjoint (p : ObjectPool) (n m : Z) :
  pool_shape p →
  0 ≤ n ≤ size_ p → 0 ≤ m ≤ size_ p →
  producer_index p + 2 * size_ p + n + m < 2 ^ 64 →
  ∃ p1 i1 p2 i2,
    reserve n p = Ok (p1, i1)
    ∧ reserve m p1 = Ok (p2, i2)
    ∧ producer_index p ≤ i1
    ∧ i1 + n ≤ i2
    ∧ Z.land i1 (mask_ p) + n ≤ size_ p
    ∧ Z.land i2 (mask_ p) + m ≤ size_ p
    ∧ reserved_ p2 = reserved_info.mk (i2 + m) m
    ∧ get_read_index p2 = get_read_index p.
Proof.
  intros Hp Hn Hm Hword. pose proof (shape_size_bounds p Hp) as Hsize.
  destruct (reserve_result p n Hp Hn ltac:(lia))
    as (p1 & i1 & Hr1 & Hp1 & Hsz1 & Hc1 & _ & Hi1 & Hs1 & Hidx1 & _).
  destruct (reserve_result p1 m Hp1 ltac:(lia) ltac:(lia))
    as (p2 & i2 & Hr2 & Hp2 & Hsz2 & Hc2 & _ & Hi2 & Hs2 & Hidx2 & Hw2).
  exists p1, i1, p2, i2. rewrite !(shape_land p Hp).
  split; [done|]. split; [done|]. split; [lia|]. split; [lia|].
  split; [done|]. split; [by rewrite <- Hsz1|].
  split; [|unfold get_read_index; congruence].
  unfold producer_index in Hidx2.
  destruct (reserved_ p2) as [i s]. cbn in Hidx2, Hw2. by subst.
Qed.

Lemma consecutive_reservations_are_disjoint_witness :
  pool_shape pool_of_4_batched ∧ 0 ≤ 3 ≤ 4 ∧ 0 ≤ 2 ≤ 4
  ∧ ∃ p1 i1 p2 i2,
      reserve 3 pool_of_4_batched = Ok (p1, i1)
      ∧ reserve 2 p1 = Ok (p2, i2)
      ∧ i1 + 3 ≤ i2.
Proof.
  split; [exact pool_of_4_batched_shape|]. split; [lia|]. split; [lia|].
  destruct (consecutive_reservations_are_disjoint pool_of_4_batched 3 2
              pool_of_4_batched_shape ltac:(cbn; lia) ltac:(cbn; lia)
              ltac:(unfold producer_index; cbn; lia))
    as (p1 & i1 & p2 & i2 & H1 & H2 & _ & H3 & _).
  exists p1, i1, p2, i2. split; [exact H1|]. split; [exact H2 | exact H3].
Defined.

(** ** A publication of any width, from the producer to the consumer *)

Lemma free_ptr_at_store p x y v :
  pool_shape p →
  free_ptr_at (set_free_objects (<[Z.to_nat (x mod size_ p) := v]> (free_objects_ p)) p) y
  = if decide (y mod size_ p = x mod size_ p) then v else free_ptr_at p y.
Proof.
  intros Hp. unfold free_ptr_at. cbn [free_objects_ mask_ set_free_objects].
  rewrite (shape_land p Hp).
  pose proof (shape_slot_range p Hp x). pose proof (shape_slot_range p Hp y).
  case_decide as Heq.
  - rewrite Heq. apply list_lookup_total_insert_eq. rewrite (shape_free_objects p Hp). lia.
  - apply list_lookup_total_insert_ne. lia.
Qed.

(** The pool after [index = reserve(n)], [*pool[index] = obj] and
    [publish(index, n)], seen from the consumer. *)
Lemma batch_published p n obj :
  pool_shape p → 0 ≤ n ≤ size_ p →
  producer_index p + size_ p + n < 2 ^ 64 →
  ∃ p1 index p2 p3,
    reserve n p = Ok (p1, index)
    ∧ store_free_object (subscript p1 index) obj p1 = Ok p2
    ∧ publish index n p2 = Ok p3
    ∧ pool_shape p3
    ∧ size_ p3 = size_ p
    ∧ consumed_ p3 = consumed_ p
    ∧ producer_index p3 = index + n
    ∧ producer_index p ≤ index < producer_index p + size_ p
    ∧ slot_at p3 index = slot.mk index n
    ∧ free_ptr_at p3 index = obj
    ∧ (index = producer_index p
       ∨ (index mod size_ p ≠ producer_index p mod size_ p
          ∧ slot_at p3 (producer_index p) = slot.mk index n)).
Proof.
  intros Hp Hn Hword.
  pose proof (shape_reserved p Hp) as Hrange.
  pose proof (shape_size_bounds p Hp) as Hsize.
  pose proof (shape_slot_range p Hp (producer_index p)) as Hidx.
  destruct (Z_le_gt_dec (producer_index p mod size_ p + n) (size_ p)) as [Hfit|Hwrap].
  - set (p1 := set_reserved (reserved_info.mk (wrap64 (producer_index p + n)) n) p).
    assert (Hp1 : pool_shape p1)
      by (apply pool_shape_set_reserved; [done | apply wrap64_range]).
    set (p2 := set_free_objects
                 (<[Z.to_nat (producer_index p mod size_ p1) := obj]> (free_objects_ p1)) p1).
    assert (Hp2 : pool_shape p2)
      by (apply pool_shape_set_free_objects; [done | by rewrite length_insert]).
    set (p3 := set_control
                 (<[Z.to_nat (producer_index p mod size_ p2) := slot.mk (producer_index p) n]>
                    (control_ p2)) p2).
    exists p1, (producer_index p), p2, p3.
    split; [by apply reserve_straight|].
    split; [by apply (shape_store_free p1 Hp1)|].
    split; [by apply (shape_store_control p2 Hp2)|].
    split; [apply pool_shape_set_control; [done | by rewrite length_insert]|].
    split; [done|]. split; [done|].
    split; [unfold producer_index; cbn; apply wrap64_small; fold (producer_index p); lia|].
    split; [lia|].
    split; [unfold p3; rewrite slot_at_store by done; by case_decide|].
    split; [|by left].
    change (free_ptr_at p3 (producer_index p)) with (free_ptr_at p2 (producer_index p)).
    unfold p2. rewrite free_ptr_at_store by done. by case_decide.
  - set (index := producer_index p + (size_ p - producer_index p mod size_ p)).
    assert (Hw : wrap64 index = index) by (apply wrap64_small; lia).
    pose proof (reserve_wrapped_aligned p Hp) as Haligned. fold index in Haligned.
    rewrite Hw in Haligned.
    set (p1 := set_control
                 (<[Z.to_nat (producer_index p mod size_ p) := slot.mk index n]> (control_ p))
                 (set_reserved (reserved_info.mk (wrap64 (index + n)) n) p)).
    assert (Hp1 : pool_shape p1).
    { apply pool_shape_set_control; [|by rewrite length_insert].
      apply pool_shape_set_reserved; [done | apply wrap64_range]. }
    set (p2 := set_free_objects
                 (<[Z.to_nat (index mod size_ p1) := obj]> (free_objects_ p1)) p1).
    assert (Hp2 : pool_shape p2)
      by (apply pool_shape_set_free_objects; [done | by rewrite length_insert]).
    set (p3 := set_control
                 (<[Z.to_nat (index mod size_ p2) := slot.mk index n]> (control_ p2)) p2).
    exists p1, index, p2, p3.
    split.
    { pose proof (reserve_wrapped p Hp n Hn ltac:(lia)) as Hres.
      cbv zeta in Hres. fold index in Hres. by rewrite Hw in Hres. }
    split; [by apply (shape_store_free p1 Hp1)|].
    split; [by apply (shape_store_control p2 Hp2)|].
    split; [apply pool_shape_set_control; [done | by rewrite length_insert]|].
    split; [done|]. split; [done|].
    split; [unfold producer_index; cbn; apply wrap64_small; lia|].
    split; [lia|].
    split; [unfold p3; rewrite slot_at_store by done; by case_decide|].
    split.
    { change (free_ptr_at p3 index) with (free_ptr_at p2 index).
      unfold p2. rewrite free_ptr_at_store by done. by case_decide. }
    right.
    assert (Hne : index mod size_ p ≠ producer_index p mod size_ p) by lia.
    split; [done|].
    unfold p3. rewrite slot_at_store by done. change (size_ p2) with (size_ p).
    rewrite decide_False by auto.
    change (slot_at p2 (producer_index p))
      with (slot_at (set_control
                       (<[Z.to_nat (producer_index p mod size_ p) := slot.mk index n]>
                          (control_ p)) p) (producer_index p)).
    rewrite slot_at_store by done. by rewrite decide_True.
Qed.

Lemma batch_consumed p n obj :
  pool_shape p →
  consumed_ p = producer_index p →
  1 ≤ n ≤ size_ p →
  producer_index p + size_ p + n < 2 ^ 64 →
  ∃ p1 index p2 p3,
    reserve n p = Ok (p1, index)
    ∧ store_free_object (subscript p1 index) obj p1 = Ok p2
    ∧ publish index n p2 = Ok p3
    ∧ ∀ fuel, consume (S (S fuel)) p3 = Ok (set_consumed (index + n) p3, (obj, n)).
Proof.
  intros Hp Hcaught Hn Hword.
  destruct (batch_published p n obj Hp ltac:(lia) Hword)
    as (p1 & index & p2 & p3 & Hr & Hs & Hpub & Hp3 & Hsz & Hc & Hprod & Hi
        & Hslot & Hptr & Hcase).
  exists p1, index, p2, p3. split; [done|]. split; [done|]. split; [done|].
  pose proof (shape_size_bounds p Hp) as Hsize.
  pose proof (shape_reserved p Hp) as Hrange.
  (* the consumer standing on the published slot claims it *)
  assert (Hclaim : ∀ q fuel, pool_shape q → consumed_ q = index →
            slot_at q index = slot.mk index n → free_ptr_at q index = obj →
            producer_index q = index + n →
            consume (S fuel) q = Ok (set_consumed (index + n) q, (obj, n))).
  { intros q fuel Hq Hcq Hsq Hpq Hprodq.
    assert (Hstored : stored_index q = index) by (unfold stored_index; by rewrite Hcq, Hsq).
    assert (Hnr : ¬ reset_detected q) by (intros [_ Hlt]; lia).
    assert (Hread : readable q).
    { unfold readable. rewrite Hstored, Hcq. unfold UINT64_MAX. split; [lia|done]. }
    rewrite (consume_returns fuel q _ _ (consume_step_claim q Hq Hnr Hread)).
    rewrite Hstored, Hcq, Hsq, Hpq. cbn [slot.size].
    by rewrite wrap64_small by lia. }
  intros fuel. destruct Hcase as [Heq|[Hne Hskip]].
  - apply Hclaim; (done || congruence).
  - assert (Hstored : stored_index p3 = index)
      by (unfold stored_index; by rewrite Hc, Hcaught, Hskip).
    assert (Hnr : ¬ reset_detected p3) by (intros [_ Hlt]; lia).
    assert (Hlt : producer_index p < index).
    { destruct (decide (index = producer_index p)) as [Heq|]; [by rewrite Heq in Hne | lia]. }
    rewrite (consume_continues (S fuel) p3 (set_consumed index p3)).
    + rewrite (Hclaim (set_consumed index p3) fuel); [done | | done | done | done | done].
      apply pool_shape_set_consumed; [done | lia].
    + rewrite <- Hstored. apply consume_step_skip; [done | done | | |].
      * rewrite Hstored. unfold UINT64_MAX. lia.
      * rewrite Hstored, Hc, Hcaught. done.
      * rewrite Hstored, Hc, Hcaught, !(shape_land p3 Hp3), Hsz. done.
Qed.

(** X10.  A publication of any width reaches the consumer as one unit.
    When the consumer has caught up with the producer, after
    [index = reserve(n)], a write of [obj] through [operator[](index)] and
    [publish(index, n)], the next [consume()] returns [{obj, n}] and leaves
    the consumer cursor at [index + n], the producer index; when the
    reservation had to skip the end of the ring the consumer first follows
    the wrap-skip record (a second pass through its loop). *)
Theorem published_batch_is_consumed_whole (p : ObjectPool) (n obj : Z) :
  pool_shape p →
  get_read_index p = producer_index p →
  1 ≤ n ≤ size_ p →
  producer_index p + size_ p + n < 2 ^ 64 →
  ∃ p1 index p2 p3,
    reserve n p = Ok (p1, index)
    ∧ store_free_object (subscript p1 index) obj p1 = Ok p2
    ∧ publish index n p2 = Ok p3
    ∧ (∀ fuel, consume (S (S fuel)) p3 = Ok (set_consumed (index + n) p3, (obj, n)))
    ∧ producer_index p3 = index + n.
Proof.
  intros Hp Hcaught Hn Hword.
  destruct (batch_consumed p n obj Hp Hcaught Hn Hword)
    as (p1 & index & p2 & p3 & Hr & Hs & Hpub & Hcons).
  exists p1, index, p2, p3. do 4 (split; [done|]).
  destruct (batch_published p n obj Hp ltac:(lia) Hword)
    as (p1' & index' & p2' & p3' & Hr' & Hs' & Hpub' & _ & _ & _ & Hprod & _).
  rewrite Hr in Hr'. injection Hr' as <- <-.
  rewrite Hs in Hs'. injection Hs' as <-.
  rewrite Hpub in Hpub'. by injection Hpub' as <-.
Qed.

Lemma published_batch_is_consumed_whole_witness :
  pool_shape pool_of_4_batched
  ∧ get_read_index pool_of_4_batched = producer_index pool_of_4_batched
  ∧ 1 ≤ 3 ≤ 4
  ∧ ∃ p1 index p2 p3,
      reserve 3 pool_of_4_batched = Ok (p1, index)
      ∧ store_free_object (subscript p1 index) 1008 p1 = Ok p2
      ∧ publish index 3 p2 = Ok p3
      ∧ consume 2 p3 = Ok (set_consumed 11 p3, (1008, 3)).
Proof.
  split; [exact pool_of_4_batched_shape|]. split; [reflexivity|]. split; [lia|].
  destruct (published_batch_is_consumed_whole pool_of_4_batched 3 1008
              pool_of_4_batched_shape eq_refl ltac:(cbn; lia)
              ltac:(unfold producer_index; cbn; lia))
    as (p1 & index & p2 & p3 & Hr & Hs & Hpub & Hcons & _).
  exists p1, index, p2, p3. split; [exact Hr|]. split; [exact Hs|]. split; [exact Hpub|].
  assert (Hindex : index = 8).
  { assert (Heq : Ok (p1, index) = reserve 3 pool_of_4_batched) by done.
    vm_compute in Heq. by injection Heq as _ ->. }
  rewrite Hindex in Hcons. exact (Hcons 0%nat).
Defined.

(** X13.  [allocate] accepts records of width 1 only.  In the situation of
    X10 with a non-null pointer: for [n = 1] the next [allocate()] returns
    the published pointer; for a wider publication its assertion
    [size == 1] fails. *)
Theorem allocate_requires_width_one (w : world) (n obj a : Z) :
  pool_shape (pool w) →
  get_read_index (pool w) = producer_index (pool w) →
  1 ≤ n ≤ size_ (pool w) →
  producer_index (pool w) + size_ (pool w) + n < 2 ^ 64 →
  obj ≠ 0 →
  ∃ p1 index p2 p3,
    reserve n (pool w) = Ok (p1, index)
    ∧ store_free_object (subscript p1 index) obj p1 = Ok p2
    ∧ publish index n p2 = Ok p3
    ∧ ∀ fuel,
        allocate (S (S fuel)) a (mkWorld p3 (heap w))
        = if decide (n = 1)
          then Ok (mkWorld (set_consumed (index + 1) p3) (heap w), obj)
          else AssertFailed.
Proof.
  intros Hp Hcaught Hn Hword Hobj.
  destruct (batch_consumed (pool w) n obj Hp Hcaught Hn Hword)
    as (p1 & index & p2 & p3 & Hr & Hs & Hpub & Hcons).
  exists p1, index, p2, p3. do 3 (split; [done|]).
  intros fuel. unfold allocate. cbn [pool heap]. rewrite Hcons.
  cbn [mbind outcome_bind]. destruct (Z.eqb_spec obj 0); [done|].
  case_decide as Hone.
  - subst n. done.
  - destruct (Z.eqb_spec n 1); done.
Qed.

Lemma allocate_requires_width_one_witness :
  pool_shape (pool (mkWorld pool_of_4_batched []))
  ∧ 1 ≤ 3 ≤ 4 ∧ 1008 ≠ 0
  ∧ ∃ p1 index p2 p3,
      reserve 3 pool_of_4_batched = Ok (p1, index)
      ∧ store_free_object (subscript p1 index) 1008 p1 = Ok p2
      ∧ publish index 3 p2 = Ok p3
      ∧ allocate 2 5000 (mkWorld p3 []) = AssertFailed.
Proof.
  split; [exact pool_of_4_batched_shape|]. split; [lia|]. split; [discriminate|].
  destruct (allocate_requires_width_one (mkWorld pool_of_4_batched []) 3 1008 5000
              pool_of_4_batched_shape eq_refl ltac:(cbn; lia)
              ltac:(unfold producer_index; cbn; lia) ltac:(discriminate))
    as (p1 & index & p2 & p3 & Hr & Hs & Hpub & Halloc).
  exists p1, index, p2, p3. split; [exact Hr|]. split; [exact Hs|]. split; [exact Hpub|].
  exact (Halloc 0%nat).
Defined.

(** ** The overflow path and the ownership test *)

(** X11.  Overflow leaves no trace.  After the construction of a pool and
    any calls, when the consumer has caught up with the producer (the ring
    is empty), [allocate()] returns the object that [new T()] creates and
    does not touch the pool; releasing this pointer deletes the object, and
    pool and heap are exactly what they were before the two calls. *)
Theorem overflow_round_trip
    (sizeof_T buffer size : Z) (fuel : nat) (ops : list op) (w : world)
    (fuel' : nat) (a : Z) :
  runs_to sizeof_T buffer size fuel ops w →
  get_read_index (pool w) = producer_index (pool w) →
  fresh_object sizeof_T w a →
  allocate (S fuel') a w = Ok (mkWorld (pool w) (a :: heap w), a)
  ∧ free a (mkWorld (pool w) (a :: heap w)) = Ok w.
Proof.
  intros Hrun Hempty Hfresh. unfold get_read_index in Hempty.
  destruct (runs_to_inv _ _ _ _ _ _ Hrun) as [Hinv _].
  destruct (allocate_overflow sizeof_T w Hinv fuel' a Hempty) as [Halloc _].
  split; [done|].
  pose proof (fresh_object_not_owned sizeof_T w a Hinv Hfresh) as Hnot.
  rewrite (free_to_heap (mkWorld (pool w) (a :: heap w)) a Hnot).
  cbn [pool heap]. unfold operator_delete.
  destruct (Z.eqb_spec a 0) as [Hz|_]; [by destruct Hfresh|].
  rewrite decide_True by left. cbn [remove_one]. rewrite decide_True by done.
  cbn. by destruct w.
Qed.

Lemma overflow_round_trip_witness :
  runs_to 8 1000 2 1 (sample_calls ++ [op_allocate 6000]) sample_world_drained
  ∧ get_read_index (pool sample_world_drained) = producer_index (pool sample_world_drained)
  ∧ fresh_object 8 sample_world_drained 6000
  ∧ allocate 1 6000 sample_world_drained
    = Ok (mkWorld (pool sample_world_drained) [6000], 6000)
  ∧ free 6000 (mkWorld (pool sample_world_drained) [6000]) = Ok sample_world_drained.
Proof.
  split; [exact sample_world_drained_run|]. split; [reflexivity|].
  split; [exact sample_world_drained_fresh|].
  exact (overflow_round_trip 8 1000 2 1 _ sample_world_drained 0 6000
           sample_world_drained_run eq_refl sample_world_drained_fresh).
Defined.

(** X14.  [free] decides by the address range
    [&buffer_[0] .. &buffer_[size_-1]] and by nothing else.  After the
    construction of a pool and any calls, [free(obj)] with an address in
    this range runs the reservation-and-publish protocol, whether [obj] is
    the address of an element or not (an address inside an element other
    than the last one is in the range): the call returns, [obj] stands in
    the slot of the old producer index, published with width 1, and the
    producer index has advanced by one.  With an address outside the range,
    such as one inside the last element past its first byte, [free(obj)]
    is [delete obj] and leaves the pool untouched. *)
Theorem ownership_test_is_an_address_range
    (sizeof_T buffer size : Z) (fuel : nat) (ops : list op) (w : world) (obj : Z) :
  runs_to sizeof_T buffer size fuel ops w →
  size + Z.of_nat (length ops) + 1 < 2 ^ 64 →
  (element sizeof_T buffer 0 ≤ obj ≤ element sizeof_T buffer (size - 1) →
   ∃ p', free obj w = Ok (mkWorld p' (heap w))
         ∧ producer_index p' = producer_index (pool w) + 1
         ∧ free_ptr_at p' (producer_index (pool w)) = obj
         ∧ slot_at p' (producer_index (pool w)) = slot.mk (producer_index (pool w)) 1
         ∧ get_read_index p' = get_read_index (pool w))
  ∧ (obj < element sizeof_T buffer 0 ∨ element sizeof_T buffer (size - 1) < obj →
     free obj w = (h ← operator_delete obj (heap w); Ok (mkWorld (pool w) h))).
Proof.
  intros Hrun Hword.
  destruct (runs_to_frame _ _ _ _ _ _ Hrun) as (Hinv & Hsize & Hbuf & Hidx).
  pose proof (inv_shape _ _ Hinv) as Hp.
  pose proof (shape_mask _ Hp) as Hmask.
  pose proof (shape_reserved _ Hp) as Hrange.
  pose proof (inv_lower _ _ Hinv) as Hlo. pose proof (inv_upper _ _ Hinv) as Hhi.
  rewrite Hmask, Hsize, Hbuf in *.
  split.
  - intros Hin. exists (produced obj (pool w)).
    split; [apply (free_to_ring sizeof_T); [done | unfold pool_owned; lia]|].
    split.
    { unfold produced, producer_index. cbn. fold (producer_index (pool w)).
      apply wrap64_small. lia. }
    split; [rewrite free_ptr_at_produced by done; by case_decide|].
    split; [rewrite slot_at_produced by done; by case_decide | done].
  - intros Hout. apply free_to_heap. unfold pool_owned. lia.
Qed.

Lemma ownership_test_is_an_address_range_witness :
  runs_to 8 1000 2 1 sample_calls sample_world
  ∧ 2 + Z.of_nat (length sample_calls) + 1 < 2 ^ 64
  ∧ (∃ p', free (element 8 1000 0 + 4) sample_world = Ok (mkWorld p' [])
           ∧ free_ptr_at p' 3 = 1004)
  ∧ free (element 8 1000 (2 - 1) + 4) sample_world = Undefined.
Proof.
  split; [exact sample_world_run|]. split; [cbn; lia|]. split.
  - destruct (ownership_test_is_an_address_range 8 1000 2 1 sample_calls sample_world
                (element 8 1000 0 + 4) sample_world_run ltac:(cbn; lia)) as [Hin _].
    destruct (Hin ltac:(unfold element; lia)) as (p' & Hfree & _ & Hptr & _).
    exists p'. split; [exact Hfree | exact Hptr].
  - destruct (ownership_test_is_an_address_range 8 1000 2 1 sample_calls sample_world
                (element 8 1000 (2 - 1) + 4) sample_world_run ltac:(cbn; lia)) as [_ Hout].
    exact (Hout ltac:(unfold element; lia)).
Defined.

(** X15.  Releasing into a full ring loses the ring.  [free] does not check
    that the ring has room.  After the construction of a pool and any calls,
    when the ring holds [size] pointers and [free] is given one more address
    that passes the ownership test, the call returns; the next [allocate()]
    returns that address and moves the consumer cursor to the producer
    index, so the ring is empty and the pointers that it held are not handed
    out again. *)
Theorem release_into_full_ring_loses_entries
    (sizeof_T buffer size : Z) (fuel : nat) (ops : list op) (w : world)
    (obj : Z) (fuel' : nat) (a : Z) :
  runs_to sizeof_T buffer size fuel ops w →
  producer_index (pool w) - get_read_index (pool w) = size →
  pool_owned (pool w) obj →
  size + Z.of_nat (length ops) + 1 < 2 ^ 64 →
  ∃ w1 w2,
    free obj w = Ok w1
    ∧ allocate (S fuel') a w1 = Ok (w2, obj)
    ∧ get_read_index (pool w2) = producer_index (pool w2)
    ∧ ring_entries (pool w2) = []
    ∧ heap w2 = heap w.
Proof.
  intros Hrun Hfull Hown Hword. unfold get_read_index in *.
  destruct (runs_to_frame _ _ _ _ _ _ Hrun) as (Hinv & Hsize & _ & Hidx).
  pose proof (inv_shape _ _ Hinv) as Hp.
  pose proof (shape_reserved _ Hp) as Hrange.
  pose proof (shape_size_bounds _ Hp) as Hbound.
  set (p1 := produced obj (pool w)).
  assert (Hinv1 : pool_inv sizeof_T p1) by (apply inv_produced; [done | done | lia]).
  assert (Hprod : producer_index p1 = producer_index (pool w) + 1).
  { unfold p1, produced, producer_index. cbn. fold (producer_index (pool w)).
    apply wrap64_small. lia. }
  assert (Hslot : consumed_ (pool w) mod size_ (pool w)
                  = producer_index (pool w) mod size_ (pool w)).
  { replace (producer_index (pool w)) with (consumed_ (pool w) + 1 * size_ (pool w)) by lia.
    by rewrite Z_mod_plus_full. }
  assert (Hstored : stored_index p1 = producer_index (pool w)).
  { unfold stored_index. change (consumed_ p1) with (consumed_ (pool w)).
    unfold p1. rewrite slot_at_produced by done. by rewrite decide_True. }
  assert (Hptr : free_ptr_at p1 (consumed_ (pool w)) = obj).
  { unfold p1. rewrite free_ptr_at_produced by done. by rewrite decide_True. }
  destruct (allocate_from_ring sizeof_T (mkWorld p1 (heap w)) Hinv1 fuel' a) as [Halloc _].
  { cbn [pool]. rewrite Hstored. change (consumed_ p1) with (consumed_ (pool w)). lia. }
  cbn [pool heap] in Halloc. rewrite Hstored in Halloc.
  change (consumed_ p1) with (consumed_ (pool w)) in Halloc. rewrite Hptr in Halloc.
  eexists _, _. split; [by apply (free_to_ring sizeof_T)|]. split; [exact Halloc|].
  cbn [pool heap]. split; [by rewrite <- Hprod|]. split; [|done].
  unfold ring_entries. rewrite seqZ_nil; [done|].
  change (producer_index (set_consumed _ p1)) with (producer_index p1).
  cbn [consumed_ set_consumed]. lia.
Qed.

Lemma release_into_full_ring_loses_entries_witness :
  runs_to 8 1000 2 1 [] world_of_2
  ∧ producer_index (pool world_of_2) - get_read_index (pool world_of_2) = 2
  ∧ pool_owned (pool world_of_2) 1004
  ∧ ∃ w1 w2, free 1004 world_of_2 = Ok w1
             ∧ allocate 1 5000 w1 = Ok (w2, 1004)
             ∧ ring_entries (pool w2) = [].
Proof.
  assert (Hrun : runs_to 8 1000 2 1 [] world_of_2) by (repeat split; try (cbn; lia)).
  assert (Hown : pool_owned (pool world_of_2) 1004)
    by (split; apply Z.leb_le; vm_compute; reflexivity).
  split; [exact Hrun|]. split; [reflexivity|]. split; [exact Hown|].
  destruct (release_into_full_ring_loses_entries 8 1000 2 1 [] world_of_2 1004 0 5000
              Hrun eq_refl Hown ltac:(cbn; lia)) as (w1 & w2 & Hfree & Halloc & _ & Hring & _).
  exists w1, w2. split; [exact Hfree|]. split; [exact Halloc | exact Hring].
Defined.

(** ** One thread: the steps of a call and the whole call *)

Lemma play_app sizeof_T es1 : ∀ es2 c,
  play sizeof_T (es1 ++ es2) c = (c' ← play sizeof_T es1 c; play sizeof_T es2 c').
Proof.
  induction es1 as [|e es1 IH]; intros es2 c; [done|].
  cbn [app play]. destruct (fire sizeof_T e c) as [c1|]; [apply IH | done].
Qed.

Lemma play_call_allocate sizeof_T es w out a :
  play sizeof_T (ev_call 0 (op_allocate a) :: es) (mkConfig w [idle] out)
  = play sizeof_T es (mkConfig w [in_allocate a load_consumed] out).
Proof. reflexivity. Qed.

Lemma play_call_free sizeof_T es w out obj :
  obj ∈ out →
  play sizeof_T (ev_call 0 (op_free obj) :: es) (mkConfig w [idle] out)
  = play sizeof_T es (mkConfig w [in_free obj test_bounds] (remove_one obj out)).
Proof.
  intros Hobj. cbn [play fire frames outstanding shared].
  change ([idle] !! 0%nat) with (Some idle). by rewrite decide_True.
Qed.

Lemma play_step sizeof_T es f w out w' r :
  f ≠ idle → allocator_kept sizeof_T f w → thread_step f w = Ok (w', r) →
  play sizeof_T (ev_step 0 :: es) (mkConfig w [f] out)
  = play sizeof_T es (retire 0 r w' (mkConfig w [f] out)).
Proof.
  intros Hf Hkept Hstep. cbn [play fire frames shared].
  change ([f] !! 0%nat) with (Some f).
  destruct f as [|a at_|obj at_]; [done|..]; by rewrite decide_True, Hstep.
Qed.

Lemma play_goes_on sizeof_T es f f' w out w' :
  f ≠ idle → allocator_kept sizeof_T f w → thread_step f w = Ok (w', running f') →
  play sizeof_T (ev_step 0 :: es) (mkConfig w [f] out)
  = play sizeof_T es (mkConfig w' [f'] out).
Proof. intros Hf Hkept Hstep. by rewrite (play_step _ _ _ _ _ _ _ Hf Hkept Hstep). Qed.

Lemma play_allocate_returns sizeof_T es f obj w out w' :
  f ≠ idle → allocator_kept sizeof_T f w →
  thread_step f w = Ok (w', allocate_returned obj) →
  play sizeof_T (ev_step 0 :: es) (mkConfig w [f] out)
  = play sizeof_T es (mkConfig w' [idle] (obj :: out)).
Proof. intros Hf Hkept Hstep. by rewrite (play_step _ _ _ _ _ _ _ Hf Hkept Hstep). Qed.

Lemma play_free_returns sizeof_T es f w out w' :
  f ≠ idle → allocator_kept sizeof_T f w →
  thread_step f w = Ok (w', free_returned) →
  play sizeof_T (ev_step 0 :: es) (mkConfig w [f] out)
  = play sizeof_T es (mkConfig w' [idle] out).
Proof. intros Hf Hkept Hstep. by rewrite (play_step _ _ _ _ _ _ _ Hf Hkept Hstep). Qed.

Section alone.
Context (sizeof_T : Z) (p : ObjectPool) (h out : list Z).
Context (Hinv : pool_inv sizeof_T p).

Let Hp : pool_shape p := inv_shape sizeof_T p Hinv.
Let current := consumed_ p.
Let stored := stored_index p.

(** The first three steps of [allocate()]: the loads and the reset check. *)
Lemma allocate_alone_loads es a :
  play sizeof_T (ev_call 0 (op_allocate a) :: ev_step 0 :: ev_step 0 :: ev_step 0 :: es)
    (mkConfig (mkWorld p h) [idle] out)
  = play sizeof_T es
      (mkConfig (mkWorld p h)
         [in_allocate a (after_reset_check p current stored)] out).
Proof.
  pose proof (inv_published sizeof_T p Hinv) as Hpub.
  pose proof (inv_no_reset sizeof_T p Hinv) as Hreset.
  rewrite play_call_allocate.
  rewrite (play_goes_on _ _ _ (in_allocate a (load_stored current)) _ _ (mkWorld p h));
    [|done..].
  rewrite (play_goes_on _ _ _ (in_allocate a (load_reserved current stored)) _ _
             (mkWorld p h)); [|done|done|].
  2:{ cbn [thread_step allocate_step pool heap]. rewrite (shape_get_control p Hp).
      cbn [mbind outcome_bind].
      change (slot.data_index (slot_at p current)) with stored.
      by destruct (Z.eqb_spec stored UINT64_MAX). }
  rewrite (play_goes_on _ _ _ (in_allocate a (after_reset_check p current stored)) _ _
             (mkWorld p h)); [done|done|done|].
  cbn [thread_step allocate_step pool heap]. fold (producer_index p).
  destruct (Z.ltb_spec (producer_index p) stored) as [Hlt|]; [|done].
  exfalso. apply Hreset. by split.
Qed.


(** The ring has nothing for the consumer: [new T()]. *)
Lemma allocate_alone_heap a :
  stored < current → fresh_object sizeof_T (mkWorld p h) a →
  play sizeof_T (ev_call 0 (op_allocate a) :: replicate 4 (ev_step 0))
    (mkConfig (mkWorld p h) [idle] out)
  = Some (mkConfig (mkWorld p (a :: h)) [idle] (a :: out)).
Proof.
  intros Hlt Hfresh. cbn [replicate]. rewrite allocate_alone_loads.
  assert (Hcheck : after_reset_check p current stored = consume_returned 0 0).
  { unfold after_reset_check.
    destruct (Z.eqb_spec stored UINT64_MAX), (Z.ltb_spec stored current); (done || lia). }
  rewrite Hcheck.
  rewrite (play_allocate_returns _ _ _ a _ _ (mkWorld p (a :: h)));
    [done | done | by intros _ | done].
Qed.

(** The ring hands out the pointer under the consumer. *)
Lemma allocate_alone_ring a :
  current ≤ stored →
  play sizeof_T (ev_call 0 (op_allocate a) :: replicate 8 (ev_step 0))
    (mkConfig (mkWorld p h) [idle] out)
  = Some (mkConfig (mkWorld (set_consumed (stored + 1) p) h) [idle]
            (free_ptr_at p current :: out)).
Proof.
  intros Hge. cbn [replicate]. rewrite allocate_alone_loads.
  destruct (inv_current_slot sizeof_T p Hinv) as (Hw & Hlt & _ & Hslot).
  fold current stored in Hw, Hlt, Hslot.
  pose proof (inv_published sizeof_T p Hinv) as Hpub. fold stored in Hpub.
  pose proof (shape_reserved p Hp) as Hrange.
  pose proof (shape_consumed p Hp) as Hcons. fold current in Hcons.
  assert (Hcheck : after_reset_check p current stored = load_size current stored).
  { unfold after_reset_check. rewrite !(shape_land p Hp), Hslot.
    destruct (Z.eqb_spec stored UINT64_MAX), (Z.ltb_spec stored current); try (done || lia).
    cbn [orb]. rewrite Z.eqb_refl. cbn [negb]. by rewrite andb_false_r. }
  rewrite Hcheck. set (p' := set_consumed (stored + 1) p).
  assert (Hp' : pool_shape p') by (apply pool_shape_set_consumed; [done | lia]).
  rewrite (play_goes_on _ _ _ (in_allocate a (exchange_claim current (stored + 1))) _ _
             (mkWorld p h)); [|done|done|].
  2:{ cbn [thread_step allocate_step pool heap]. rewrite (shape_get_control p Hp).
      cbn [mbind outcome_bind]. rewrite Hw, wrap64_small by lia. done. }
  rewrite (play_goes_on _ _ _ (in_allocate a (load_object current)) _ _
             (mkWorld p' h)); [|done|done|].
  2:{ cbn [thread_step allocate_step pool heap]. fold current.
      by rewrite compare_exchange_loaded. }
  rewrite (play_goes_on _ _ _ (in_allocate a (load_size_again current (free_ptr_at p current)))
             _ _ (mkWorld p' h)); [|done|done|].
  2:{ cbn [thread_step allocate_step pool heap].
      change (mask_ p') with (mask_ p). change (free_objects_ p') with (free_objects_ p).
      by rewrite (shape_get_free p Hp). }
  rewrite (play_goes_on _ _ _ (in_allocate a (consume_returned (free_ptr_at p current) 1))
             _ _ (mkWorld p' h)); [|done|done|].
  2:{ cbn [thread_step allocate_step pool heap].
      change (mask_ p') with (mask_ p). change (control_ p') with (control_ p).
      rewrite (shape_get_control p Hp). cbn [mbind outcome_bind]. by rewrite Hw. }
  assert (Hnz : free_ptr_at p current ≠ 0).
  { intros Hz. apply (inv_null_not_owned sizeof_T p Hinv). rewrite <- Hz.
    pose proof (shape_slot_range p Hp current) as Hr.
    pose proof (inv_free_objects sizeof_T p Hinv _ Hr) as Hown.
    unfold free_ptr_at in *. rewrite !(shape_land p Hp) in *.
    by rewrite Z.mod_mod in Hown by lia. }
  rewrite (play_allocate_returns _ _ _ (free_ptr_at p current) _ _ (mkWorld p' h));
    [done | done | by cbn |].
  cbn [thread_step allocate_step pool heap].
  by destruct (Z.eqb_spec (free_ptr_at p current) 0).
Qed.

(** [free] of a pointer that passes the ownership test. *)
Lemma free_alone_ring obj :
  pool_owned p obj → obj ∈ out →
  play sizeof_T (ev_call 0 (op_free obj) :: replicate 6 (ev_step 0))
    (mkConfig (mkWorld p h) [idle] out)
  = Some (mkConfig (mkWorld (produced obj p) h) [idle] (remove_one obj out)).
Proof.
  intros [Hlo Hhi] Hobj. cbn [replicate]. rewrite play_call_free by done.
  pose proof (shape_size_bounds p Hp) as Hsize.
  set (index := producer_index p).
  assert (Hidx : 0 ≤ index mod size_ p < size_ p) by apply (shape_slot_range p Hp).
  set (next := reserved_info.mk (wrap64 (index + 1)) 1).
  set (i := Z.to_nat (index mod size_ p)).
  set (p1 := set_reserved next p).
  set (p2 := set_free_objects (<[i := obj]> (free_objects_ p)) p1).
  assert (Hp1 : pool_shape p1)
    by (apply pool_shape_set_reserved; [done | apply wrap64_range]).
  assert (Hp2 : pool_shape p2)
    by (apply pool_shape_set_free_objects; [done | by rewrite length_insert]).
  rewrite (play_goes_on _ _ _ (in_free obj reserve_load) _ _ (mkWorld p h)); [|done|done|].
  2:{ cbn [thread_step free_step pool heap].
      by destruct (Z.geb_spec obj (lower_bound_ p)), (Z.leb_spec obj (upper_bound_ p));
        try lia. }
  rewrite (play_goes_on _ _ _ (in_free obj (reserve_exchange (reserved_ p))) _ _
             (mkWorld p h)); [|done|done|].
  2:{ cbn [thread_step free_step pool heap].
      by destruct (Z.gtb_spec 1 (size_ p)); [lia|]. }
  rewrite (play_goes_on _ _ _ (in_free obj (store_object index)) _ _ (mkWorld p1 h));
    [|done|done|].
  2:{ cbn [thread_step free_step pool heap]. fold (producer_index p). fold index.
      rewrite (shape_land p Hp), wrap64_small by lia.
      destruct (Z.gtb_spec (index mod size_ p + 1) (size_ p)); [lia|].
      by rewrite compare_exchange_loaded. }
  rewrite (play_goes_on _ _ _ (in_free obj (publish_size index)) _ _ (mkWorld p2 h));
    [|done|done|].
  2:{ cbn [thread_step free_step pool heap].
      by rewrite (shape_store_free p1 Hp1). }
  set (p3 := set_control
               (<[i := slot.mk (slot.data_index (slot_at p index)) 1]> (control_ p)) p2).
  assert (Hp3 : pool_shape p3)
    by (apply pool_shape_set_control; [done | by rewrite length_insert]).
  rewrite (play_goes_on _ _ _ (in_free obj (publish_index index)) _ _ (mkWorld p3 h));
    [|done|done|].
  2:{ cbn [thread_step free_step pool heap]. unfold store_slot_size.
      rewrite (shape_get_control p2 Hp2). cbn [mbind outcome_bind].
      by rewrite (shape_store_control p2 Hp2). }
  rewrite (play_free_returns _ _ _ _ _ (mkWorld (produced obj p) h)); [done|done|done|].
  cbn [thread_step free_step pool heap]. unfold store_slot_index.
  rewrite (shape_get_control p3 Hp3). cbn [mbind outcome_bind].
  rewrite (shape_store_control p3 Hp3). cbn [mbind outcome_bind].
  assert (Hsz : slot.size (slot_at p3 index) = 1).
  { unfold slot_at, p3. cbn [control_ set_control mask_ set_free_objects set_reserved p2 p1].
    rewrite (shape_land p Hp). fold i.
    rewrite list_lookup_total_insert_eq; [done|].
    rewrite (shape_control p Hp). unfold i. lia. }
  rewrite Hsz. change (size_ p3) with (size_ p). fold i.
  unfold p3. cbn [control_ set_control]. by rewrite list_insert_insert_eq.
Qed.

(** [free] of a pointer that fails the ownership test. *)
Lemma free_alone_heap obj h' :
  ¬ pool_owned p obj → obj ∈ out → operator_delete obj h = Ok h' →
  play sizeof_T (ev_call 0 (op_free obj) :: replicate 2 (ev_step 0))
    (mkConfig (mkWorld p h) [idle] out)
  = Some (mkConfig (mkWorld p h') [idle] (remove_one obj out)).
Proof.
  intros Hout Hobj Hdel. cbn [replicate]. rewrite play_call_free by done.
  rewrite (play_goes_on _ _ _ (in_free obj delete_object) _ _ (mkWorld p h)); [|done|done|].
  2:{ cbn [thread_step free_step pool heap]. unfold pool_owned in Hout.
      by destruct (Z.geb_spec obj (lower_bound_ p)), (Z.leb_spec obj (upper_bound_ p));
        try lia. }
  rewrite (play_free_returns _ _ _ _ _ (mkWorld p h')); [done|done|done|].
  cbn [thread_step free_step pool heap]. by rewrite Hdel.
Qed.
End alone.

(** X17.  The step-by-step semantics reproduces the whole calls when calls
    do not overlap.  Every state that is reached from the constructor by
    whole calls under the contract, one after the other, is reached by a
    single thread that makes the same calls access by access (four or eight
    steps for [allocate()], two or six for [free]), with the same pool,
    heap and outstanding pointers. *)
Theorem whole_calls_are_steps_of_one_thread
    (sizeof_T size : Z) (n : nat) (w : world) (out : list Z) :
  reachable sizeof_T size n w out →
  size + Z.of_nat n < 2 ^ 64 →
  ∃ buffer w0 es,
    world_new sizeof_T buffer size = Ok w0
    ∧ play sizeof_T es (mkConfig w0 [idle] []) = Some (mkConfig w [idle] out).
Proof.
  induction 1 as [buffer w Hsz Hbuf Hrange Hnew
                 |n w out fuel a w' obj Hreach IH Hfresh Halloc
                 |n w out obj w' Hreach IH Hobj Hfree]; intros Hword.
  - exists buffer, w, []. by split.
  - destruct (IH ltac:(lia)) as (buffer & w0 & es & Hnew & Hplay).
    destruct (reachable_inv _ _ _ _ _ Hreach ltac:(lia)) as (Hc & _).
    pose proof (cinv_pool _ _ _ Hc) as Hinv.
    destruct fuel as [|fuel]; [done|]. destruct w as [p h]. cbn [pool] in Hinv.
    exists buffer, w0.
    destruct (Z_lt_le_dec (stored_index p) (consumed_ p)) as [Hlt|Hge].
    + rewrite (allocate_from_heap sizeof_T (mkWorld p h) Hinv fuel a Hlt) in Halloc.
      injection Halloc as <- <-.
      exists (es ++ ev_call 0 (op_allocate a) :: replicate 4 (ev_step 0)).
      split; [done|]. rewrite play_app, Hplay. cbn [mbind option_bind].
      by apply (allocate_alone_heap sizeof_T).
    + destruct (allocate_from_ring sizeof_T (mkWorld p h) Hinv fuel a Hge) as [Hring _].
      rewrite Hring in Halloc. injection Halloc as <- <-.
      exists (es ++ ev_call 0 (op_allocate a) :: replicate 8 (ev_step 0)).
      split; [done|]. rewrite play_app, Hplay. cbn [mbind option_bind].
      by apply (allocate_alone_ring sizeof_T).
  - destruct (IH ltac:(lia)) as (buffer & w0 & es & Hnew & Hplay).
    destruct (reachable_inv _ _ _ _ _ Hreach ltac:(lia)) as (Hc & _).
    pose proof (cinv_pool _ _ _ Hc) as Hinv.
    destruct w as [p h]. cbn [pool] in Hinv.
    exists buffer, w0.
    destruct (decide (pool_owned p obj)) as [Hown|Hout].
    + rewrite (free_to_ring sizeof_T (mkWorld p h) Hinv obj Hown) in Hfree. injection Hfree as <-.
      exists (es ++ ev_call 0 (op_free obj) :: replicate 6 (ev_step 0)).
      split; [done|]. rewrite play_app, Hplay. cbn [mbind option_bind].
      by apply (free_alone_ring sizeof_T).
    + rewrite (free_to_heap (mkWorld p h) obj Hout) in Hfree. cbn [pool heap] in Hfree.
      destruct (operator_delete obj h) as [h'| | | |] eqn:Hdel; try done.
      injection Hfree as <-.
      exists (es ++ ev_call 0 (op_free obj) :: replicate 2 (ev_step 0)).
      split; [done|]. rewrite play_app, Hplay. cbn [mbind option_bind].
      by apply (free_alone_heap sizeof_T).
Qed.

Lemma whole_calls_are_steps_of_one_thread_witness :
  reachable 8 2 3 exhausted_world exhausted_outstanding
  ∧ 2 + Z.of_nat 3 < 2 ^ 64
  ∧ ∃ buffer w0 es,
      world_new 8 buffer 2 = Ok w0
      ∧ play 8 es (mkConfig w0 [idle] [])
        = Some (mkConfig exhausted_world [idle] exhausted_outstanding).
Proof.
  split; [exact exhausted_world_reachable|]. split; [lia|].
  exact (whole_calls_are_steps_of_one_thread 8 2 3 exhausted_world exhausted_outstanding
           exhausted_world_reachable ltac:(lia)).
Defined.
